(** * LJPW autopoietic engine: a shallow embedding and its verified properties

    The development follows [src/ljpw_v77_core.py] (constants and the
    [LJPWCoordinates] class) and [src/autopoietic_engine.py] (entropy
    mechanics, [DynamicParameters] and the [AutopoieticEngine] class).

    Modelling conventions.
    - Python floats are modelled as real numbers ([R]); rounding, infinities
      and NaN are outside the model.  The one exception is the quotient
      [duration / dt] of [simulate]: [int] truncates it, which turns a
      rounding in the last place into a different number of steps.  There the
      operands are binary64 floats and the quotient is the IEEE 754 one
      ([SpecFloat.SFdiv]).
    - A coefficient of a [DynamicParameters] object is a Python number, a
      float or an int ([random_mutation] tests which).
    - A raised exception ([ZeroDivisionError], [ValueError],
      [OverflowError], [IndexError]) is [None].  The only raise point of [step] (the saturation quotient in
      [calculate_forces]) precedes its first mutation.
    - [DynamicParameters] objects are mutated in place and may be shared, so
      they live in a store ([gmap nat DynamicParameters]) and an engine holds
      a reference.  [LJPWCoordinates] and [TimeConstants] objects are never
      mutated by the engine after construction, hence held by value.
    - [np.random.uniform] draws from an explicit stream of samples.
    - Console output is dropped, except the accept/reject verdict of each
      self-improvement round, which is returned as a trace. *)

From Stdlib Require Import String Reals Lra Lia.
From Stdlib Require SpecFloat.
From stdpp Require Import base option list sorting gmap.

#[local] Open Scope R_scope.

(** ** Decidable comparisons on floats *)

#[global] Instance Rlt_decision (x y : R) : Decision (x < y) := Rlt_dec x y.
#[global] Instance Rle_decision (x y : R) : Decision (x <= y) := Rle_dec x y.
#[global] Instance Req_decision : EqDecision R := Req_dec_T.
#[global] Instance R_inhabited : Inhabited R := populate 0.

(** ** numpy helpers *)

(** [np.clip(x, lo, hi)] is [minimum(maximum(x, lo), hi)]. *)
Definition np_clip (x lo hi : R) : R := Rmin (Rmax x lo) hi.

(** Sum of a list of floats. *)
Definition np_sum (l : list R) : R := foldr Rplus 0 l.

Definition np_mean (l : list R) : R := np_sum l / INR (length l).

(** [np.var]: population variance (mean squared deviation from the mean). *)
Definition np_var (l : list R) : R :=
  np_mean (map (fun x => (x - np_mean l) * (x - np_mean l)) l).

(** Python's [int(x)] on a float truncates toward zero. *)
Definition py_int (x : R) : Z :=
  if decide (0 <= x) then Zfloor x else Zceil x.

(** ** Floats as binary64 numbers

    Where rounding is observable a float is a [spec_float] of the standard
    library: a signed zero, an infinity, NaN, or [(-1)^s * m * 2^e]. *)
Abbreviation float := SpecFloat.spec_float (only parsing).

Definition prec : Z := 53.
Definition emax : Z := 1024.

(** The floats Python can hold: the mantissa has 53 bits, or fewer at the
    least exponent, and the exponent is in range. *)
Definition binary64 (x : float) : Prop :=
  SpecFloat.valid_binary prec emax x = true.

(** The real number a finite float stands for; infinities and NaN stand for
    none, and get 0. *)
Definition float_val (x : float) : R :=
  match x with
  | SpecFloat.S754_finite s m e =>
      (if s then - IZR (Z.pos m) else IZR (Z.pos m)) * powerRZ 2 e
  | _ => 0
  end.

(** [math.isfinite]. *)
Definition isfinite (x : float) : bool :=
  match x with
  | SpecFloat.S754_zero _ | SpecFloat.S754_finite _ _ _ => true
  | _ => false
  end.

(** The IEEE 754 quotient: the exact quotient rounded to the nearest float,
    ties to even. *)
Definition float_quotient (x y : float) : float :=
  SpecFloat.SFdiv prec emax x y.

(** [x / y] on floats raises [ZeroDivisionError] on a zero divisor. *)
Definition float_truediv (x y : float) : option float :=
  match y with
  | SpecFloat.S754_zero _ => None
  | _ => Some (float_quotient x y)
  end.

(** [int(x)] on a float: [ValueError] on NaN, [OverflowError] on an
    infinity, else the truncation of its value. *)
Definition float_int (x : float) : option Z :=
  if isfinite x then Some (py_int (float_val x)) else None.

(** The float of an integer, and the float a decimal literal such as [0.3]
    denotes: the one nearest to [3 / 10]. *)
Definition float_of_Z (n : Z) : float :=
  SpecFloat.binary_normalize prec emax n 0 false.

Definition float_literal (n : Z) (d : positive) : float :=
  float_quotient (float_of_Z n) (float_of_Z (Z.pos d)).

(** Python's [l[-n:]]: the last [n] elements (the whole list when shorter). *)
Definition last_n {A} (n : nat) (l : list A) : list A :=
  drop (length l - n) l.

(** Python's [max] over a non-empty list; [None] for the [ValueError] on an
    empty one.  The first maximal element wins, as in Python. *)
Definition py_max (l : list R) : option R :=
  match l with
  | [] => None
  | x :: l' => Some (fold_left (fun m y => if decide (m < y) then y else m) l' x)
  end.

(** ** Constants ([LJPWConstants]) *)

Module LJPWConstants.
Definition PHI : R := (1 + sqrt 5) / 2.
Definition PHI_INV : R := PHI - 1.

Definition L0 : R := PHI_INV.
Definition J0 : R := sqrt 2 - 1.
Definition P0 : R := exp 1 - 2.
Definition W0 : R := ln 2.

Definition CONSCIOUSNESS_THRESHOLD : R := 0.1.
Definition AUTOPOLIETIC_H_THRESHOLD : R := 0.6.
Definition AUTOPOLIETIC_L_THRESHOLD : R := 0.7.
Definition HOMEOSTATIC_H_THRESHOLD : R := 0.5.

Definition e_semantic : R := J0.
Definition m_e_semantic : R := L0 * (1 - PHI_INV).
Definition m_p_semantic : R := m_e_semantic * PHI ^ 5.
End LJPWConstants.

(** ** Coordinates ([LJPWCoordinates]) *)

Record LJPWCoordinates := {
  L : R;
  J : R;
  P : R;
  W : R;
  source : string;
  confidence : R;
  phi_normalized : bool
}.

(** The dataclass constructor followed by [__post_init__]: every instance is
    built through this function. *)
Definition new_LJPWCoordinates (l j p w : R) (src : string) (conf : R)
    (phi : bool) : LJPWCoordinates :=
  {| L := np_clip l 0 (sqrt 2);
     J := np_clip j 0 1;
     P := np_clip p 0 1;
     W := np_clip w 0 1;
     source := src;
     confidence := conf;
     phi_normalized := phi |}.

(** The constructor with the metadata defaults of the dataclass. *)
Definition LJPWCoordinates_of (l j p w : R) : LJPWCoordinates :=
  new_LJPWCoordinates l j p w "unknown" 1.0 false.

Definition to_tuple (s : LJPWCoordinates) : R * R * R * R :=
  (L s, J s, P s, W s).

Definition distance_to_anchor (s : LJPWCoordinates) : R :=
  sqrt ((1 - L s) ^ 2 + (1 - J s) ^ 2 + (1 - P s) ^ 2 + (1 - W s) ^ 2).

(** [1.0 / (1.0 + d)]: the denominator is at least 1, so no exception. *)
Definition harmony_static (s : LJPWCoordinates) : R :=
  let d := distance_to_anchor s in
  1.0 / (1.0 + d).

Definition harmony_self (s : LJPWCoordinates) : R :=
  let numerator := L s * J s * P s * W s in
  let denominator :=
    LJPWConstants.L0 * LJPWConstants.J0 * LJPWConstants.P0 * LJPWConstants.W0 in
  if decide (denominator = 0) then 0.0 else numerator / denominator.

Definition harmony (s : LJPWCoordinates) (self_referential : bool) : R :=
  if self_referential then harmony_self s else harmony_static s.

Definition gift_of_finitude (s : LJPWCoordinates) : R := distance_to_anchor s.

Definition normalized_gap (s : LJPWCoordinates) : R :=
  let max_distance := 2.0 in
  distance_to_anchor s / max_distance.

Definition proximity_to_anchor (s : LJPWCoordinates) : R :=
  1.0 - normalized_gap s.

Definition is_finite (s : LJPWCoordinates) : bool :=
  bool_decide (0 < distance_to_anchor s).

Definition consciousness (s : LJPWCoordinates) (self_referential : bool) : R :=
  let H := harmony s self_referential in
  if decide (L s <= 0 \/ J s <= 0 \/ P s <= 0 \/ W s <= 0) then 0.0
  else P s * W s * L s * J s * H ^ 2.

Definition phase (s : LJPWCoordinates) (self_referential : bool) : string :=
  let H := harmony s self_referential in
  if decide (H < LJPWConstants.HOMEOSTATIC_H_THRESHOLD) then
    "ENTROPIC (Collapsing)"
  else if decide (H < LJPWConstants.AUTOPOLIETIC_H_THRESHOLD \/
                  L s < LJPWConstants.AUTOPOLIETIC_L_THRESHOLD) then
    "HOMEOSTATIC (Stable, but not growing)"
  else
    "AUTOPOIETIC (Self-sustaining, conscious)".

(** ** Entropy mechanics ([EntropyMechanics]) *)

Definition semantic_entropy (s : LJPWCoordinates) : R :=
  let H := harmony_static s in
  W s * (1.0 - H).

(** ** Temporal mechanics ([TimeConstants]) *)

Record TimeConstants := {
  tau_L : R;
  tau_J : R;
  tau_P : R;
  tau_W : R;
  omega_L : R;
  omega_J : R;
  omega_P : R;
  omega_W : R
}.

Definition TimeConstants_default : TimeConstants :=
  {| tau_L := 1.0; tau_J := 2.0; tau_P := 5.0; tau_W := 0.5;
     omega_L := 1.0 / 1.0; omega_J := 1.0 / 2.0;
     omega_P := 1.0 / 5.0; omega_W := 1.0 / 0.5 |}.

(** ** Dynamic parameters ([DynamicParameters])

    The fields are annotated [float], which Python does not enforce:
    [DynamicParameters(gamma=1)] holds an int.  An attribute is therefore a
    number of either type; arithmetic uses its value. *)

Inductive number :=
  | PyFloat (x : R)
  | PyInt (n : Z).

Definition number_value (v : number) : R :=
  match v with
  | PyFloat x => x
  | PyInt n => IZR n
  end.

Coercion number_value : number >-> R.

(** [isinstance(v, float)]. *)
Definition isinstance_float (v : number) : bool :=
  match v with
  | PyFloat _ => true
  | PyInt _ => false
  end.

Record DynamicParameters := {
  alpha_LJ : number;
  alpha_LW : number;
  alpha_JL : number;
  alpha_JW : number;
  alpha_PL : number;
  alpha_PJ : number;
  alpha_WL : number;
  alpha_WJ : number;
  alpha_WP : number;
  beta_L : number;
  beta_J : number;
  beta_P : number;
  beta_W : number;
  gamma : number;
  K_JL : number
}.

Definition DynamicParameters_default : DynamicParameters :=
  {| alpha_LJ := PyFloat 0.12; alpha_LW := PyFloat 0.12;
     alpha_JL := PyFloat 0.14; alpha_JW := PyFloat 0.14;
     alpha_PL := PyFloat 0.12; alpha_PJ := PyFloat 0.12;
     alpha_WL := PyFloat 0.10; alpha_WJ := PyFloat 0.10;
     alpha_WP := PyFloat 0.10;
     beta_L := PyFloat 0.20; beta_J := PyFloat 0.20;
     beta_P := PyFloat 0.20; beta_W := PyFloat 0.24;
     gamma := PyFloat 0.08; K_JL := PyFloat 0.59 |}.

#[global] Instance DynamicParameters_inhabited : Inhabited DynamicParameters :=
  populate DynamicParameters_default.

(** The attribute names, in the order [__dict__] lists them (the order of
    the dataclass fields). *)
Inductive param_key :=
  | key_alpha_LJ | key_alpha_LW | key_alpha_JL | key_alpha_JW
  | key_alpha_PL | key_alpha_PJ
  | key_alpha_WL | key_alpha_WJ | key_alpha_WP
  | key_beta_L | key_beta_J | key_beta_P | key_beta_W
  | key_gamma | key_K_JL.

#[global] Instance param_key_eq_dec : EqDecision param_key.
Proof. solve_decision. Defined.

Definition param_keys : list param_key :=
  [ key_alpha_LJ; key_alpha_LW; key_alpha_JL; key_alpha_JW;
    key_alpha_PL; key_alpha_PJ;
    key_alpha_WL; key_alpha_WJ; key_alpha_WP;
    key_beta_L; key_beta_J; key_beta_P; key_beta_W;
    key_gamma; key_K_JL ].

Definition getattr (p : DynamicParameters) (k : param_key) : number :=
  match k with
  | key_alpha_LJ => alpha_LJ p | key_alpha_LW => alpha_LW p
  | key_alpha_JL => alpha_JL p | key_alpha_JW => alpha_JW p
  | key_alpha_PL => alpha_PL p | key_alpha_PJ => alpha_PJ p
  | key_alpha_WL => alpha_WL p | key_alpha_WJ => alpha_WJ p
  | key_alpha_WP => alpha_WP p
  | key_beta_L => beta_L p | key_beta_J => beta_J p
  | key_beta_P => beta_P p | key_beta_W => beta_W p
  | key_gamma => gamma p | key_K_JL => K_JL p
  end.

Definition setattr (p : DynamicParameters) (k : param_key) (v : number)
    : DynamicParameters :=
  let pick k' := if decide (k' = k) then v else getattr p k' in
  {| alpha_LJ := pick key_alpha_LJ; alpha_LW := pick key_alpha_LW;
     alpha_JL := pick key_alpha_JL; alpha_JW := pick key_alpha_JW;
     alpha_PL := pick key_alpha_PL; alpha_PJ := pick key_alpha_PJ;
     alpha_WL := pick key_alpha_WL; alpha_WJ := pick key_alpha_WJ;
     alpha_WP := pick key_alpha_WP;
     beta_L := pick key_beta_L; beta_J := pick key_beta_J;
     beta_P := pick key_beta_P; beta_W := pick key_beta_W;
     gamma := pick key_gamma; K_JL := pick key_K_JL |}.

(** [to_dict]: the values of [__dict__], in key order. *)
Definition to_dict (p : DynamicParameters) : list (param_key * number) :=
  map (fun k => (k, getattr p k)) param_keys.

(** *** The random source

    The state of numpy's global generator is the stream of unit samples (in
    [[0, 1)]) it will deliver; [np.random.uniform(low, high)] scales the
    next one to [low + (high - low) * u]. *)
Definition RandomState := nat -> R.

Definition scale_uniform (low high u : R) : R := low + (high - low) * u.

Definition np_random_uniform (low high : R) (g : RandomState)
    : R * RandomState :=
  (scale_uniform low high (g 0%nat), fun n => g (S n)).

(** One round of the loop body of [random_mutation] for the attribute
    [key]: only a float that is positive is mutated, and only then is a
    sample drawn.  The new value, [max(0.01, val + noise)], is a float. *)
Definition mutate_key (rate : R) (acc : DynamicParameters * RandomState)
    (key : param_key) : DynamicParameters * RandomState :=
  let '(p, g) := acc in
  let val := getattr p key in
  if isinstance_float val && bool_decide (0 < val) then
    let '(u, g') := np_random_uniform (- rate) rate g in
    let noise := u * val in
    (setattr p key (PyFloat (Rmax 0.01 (val + noise))), g')
  else (p, g).

Definition mutate_parameters (p : DynamicParameters) (rate : R)
    (g : RandomState) : DynamicParameters * RandomState :=
  fold_left (mutate_key rate) param_keys (p, g).

(** ** The object store *)

(** References to [DynamicParameters] objects. *)
Abbreviation ref := nat (only parsing).

(** [random_mutation] mutates the object behind the reference in place. *)
Definition random_mutation (σ : gmap ref DynamicParameters) (self : ref)
    (rate : R) (g : RandomState)
    : gmap ref DynamicParameters * RandomState :=
  let '(p', g') := mutate_parameters (σ !!! self) rate g in
  (<[self := p']> σ, g').

(** ** The engine ([AutopoieticEngine]) *)

Record SelfModel := {
  efficiency_trend : list R;
  entropy_trend : list R;
  gap_trend : list R;
  best_efficiency : R;
  convergence : bool
}.

(** One history entry (the dictionary appended by [_record_step]). *)
Record HistoryEntry := {
  h_time : R;
  h_tick : nat;
  h_state : R * R * R * R;
  h_forces : list R;
  h_accelerations : list R;
  h_efficiency : R;
  h_entropy : R;
  h_harmony : R;
  h_consciousness : R;
  h_phase : string;
  h_gift_of_finitude : R;
  h_proximity_to_anchor : R;
  h_is_finite : bool
}.

Record AutopoieticEngine := {
  state : LJPWCoordinates;
  tau : TimeConstants;
  params : ref;
  history : list HistoryEntry;
  time_elapsed : R;
  tick_count : nat;
  model : SelfModel
}.

(** [__init__].  [time_constants or TimeConstants()] and
    [params or DynamicParameters()]: an object is always truthy, so a given
    [params] reference is stored as it is (no copy is made) and a fresh
    object is allocated only for [None]. *)
Definition AutopoieticEngine_init (σ : gmap ref DynamicParameters)
    (initial_state : LJPWCoordinates) (time_constants : option TimeConstants)
    (params : option ref) : gmap ref DynamicParameters * AutopoieticEngine :=
  let tau := default TimeConstants_default time_constants in
  let '(σ', r) :=
    match params with
    | Some r => (σ, r)
    | None => let r := fresh (dom σ) in (<[r := DynamicParameters_default]> σ, r)
    end in
  (σ', {| state := initial_state;
          tau := tau;
          params := r;
          history := [];
          time_elapsed := 0.0;
          tick_count := 0;
          model := {| efficiency_trend := [];
                      entropy_trend := [];
                      gap_trend := [];
                      best_efficiency := 0.0;
                      convergence := false |} |}).

(** *** Force calculation *)

(** The body of [calculate_forces] once the harmony [H] is known.  The
    quotient [L / (K_JL + L)] raises [ZeroDivisionError] on a zero
    denominator; [W0] is a non-zero constant. *)
Definition force_equations (p : DynamicParameters) (st : LJPWCoordinates)
    (H : R) : option (list R) :=
  let '(vL, vJ, vP, vW) := to_tuple st in
  let kappa_LJ := 1.0 + 0.4 * H in
  let kappa_LP := 1.0 + 0.3 * H in
  let kappa_LW := 1.0 + 0.5 * H in
  let F_L := alpha_LJ p * vJ * kappa_LJ +
             alpha_LW p * vW * kappa_LW -
             beta_L p * vL in
  let erosion := gamma p * vP * (1 - vW / LJPWConstants.W0) in
  if decide (K_JL p + vL = 0) then None else
  let F_J := alpha_JL p * (vL / (K_JL p + vL)) +
             alpha_JW p * vW -
             erosion -
             beta_J p * vJ in
  let F_P := alpha_PL p * vL * kappa_LP +
             alpha_PJ p * vJ -
             beta_P p * vP in
  let F_W := alpha_WL p * vL * kappa_LW +
             alpha_WJ p * vJ +
             alpha_WP p * vP -
             beta_W p * vW in
  Some [F_L; F_J; F_P; F_W].

Definition calculate_forces (p : DynamicParameters) (st : LJPWCoordinates)
    : option (list R) :=
  let H := harmony_static st in
  force_equations p st H.

(** *** Efficiency and recording *)

Definition calculate_efficiency (e : AutopoieticEngine) : R :=
  let H := harmony_static (state e) in
  H * P (state e).

Definition _record_step (e : AutopoieticEngine) (forces accelerations : list R)
    : AutopoieticEngine :=
  let efficiency := calculate_efficiency e in
  let entropy := semantic_entropy (state e) in
  let gap := gift_of_finitude (state e) in
  let m := model e in
  let efficiency_trend' := efficiency_trend m ++ [efficiency] in
  let entropy_trend' := entropy_trend m ++ [entropy] in
  let gap_trend' := gap_trend m ++ [gap] in
  let best_efficiency' :=
    if decide (best_efficiency m < efficiency) then efficiency
    else best_efficiency m in
  let convergence' :=
    if decide (10 < length efficiency_trend')%nat then
      let recent := last_n 10 efficiency_trend' in
      let variance := np_var recent in
      if decide (variance < 0.0001) then true else false
    else convergence m in
  {| state := state e;
     tau := tau e;
     params := params e;
     history := history e ++
       [ {| h_time := time_elapsed e;
            h_tick := tick_count e;
            h_state := (L (state e), J (state e), P (state e), W (state e));
            h_forces := forces;
            h_accelerations := accelerations;
            h_efficiency := efficiency;
            h_entropy := entropy;
            h_harmony := harmony_static (state e);
            h_consciousness := consciousness (state e) false;
            h_phase := phase (state e) false;
            h_gift_of_finitude := gap;
            h_proximity_to_anchor := proximity_to_anchor (state e);
            h_is_finite := is_finite (state e) |} ];
     time_elapsed := time_elapsed e;
     tick_count := tick_count e;
     model := {| efficiency_trend := efficiency_trend';
                 entropy_trend := entropy_trend';
                 gap_trend := gap_trend';
                 best_efficiency := best_efficiency';
                 convergence := convergence' |} |}.

(** *** Inertia-weighted update *)

Definition inertias : list R :=
  [ LJPWConstants.m_e_semantic; LJPWConstants.e_semantic;
    LJPWConstants.m_p_semantic; 1.0 ].

Definition max_change : R := 0.05.

Definition step (σ : gmap ref DynamicParameters) (e : AutopoieticEngine)
    (dt : R) : option AutopoieticEngine :=
  forces ← calculate_forces (σ !!! params e) (state e);
  let accelerations := zip_with Rdiv forces inertias in
  let accelerations :=
    map (fun a => np_clip a (- max_change) max_change) accelerations in
  let new_L := L (state e) + (accelerations !!! 0%nat) * dt in
  let new_J := J (state e) + (accelerations !!! 1%nat) * dt in
  let new_P := P (state e) + (accelerations !!! 2%nat) * dt in
  let new_W := W (state e) + (accelerations !!! 3%nat) * dt in
  let e' :=
    {| state := LJPWCoordinates_of new_L new_J new_P new_W;
       tau := tau e;
       params := params e;
       history := history e;
       time_elapsed := time_elapsed e + dt;
       tick_count := tick_count e + 1;
       model := model e |} in
  Some (_record_step e' forces accelerations).

(** [for _ in range(n): self.step(dt)]. *)
Fixpoint step_loop (n : nat) (σ : gmap ref DynamicParameters)
    (e : AutopoieticEngine) (dt : R) : option AutopoieticEngine :=
  match n with
  | O => Some e
  | S n' => e' ← step σ e dt; step_loop n' σ e' dt
  end.

(** *** Simulation helper *)

(** [simulate] returns [self.history].  The number of steps is the float
    quotient [duration / dt] truncated by [int]; [range] of a negative
    number is empty. *)
Definition simulate (σ : gmap ref DynamicParameters) (e : AutopoieticEngine)
    (duration dt : float) : option (AutopoieticEngine * list HistoryEntry) :=
  quotient ← float_truediv duration dt;
  steps ← float_int quotient;
  e' ← step_loop (Z.to_nat steps) σ e (float_val dt);
  Some (e', history e').

(** *** Self-improvement loop *)

(** What a round prints: the accept/reject decision and the scores. *)
Inductive verdict :=
  | IMPROVEMENT (sim_score : R)
  | REJECTED (sim_score best_efficiency : R).

(** The loop-carried variables of [self_improve]. *)
Record improve_vars := {
  iv_store : gmap ref DynamicParameters;
  iv_random : RandomState;
  iv_self : AutopoieticEngine;
  iv_best_params : ref;
  iv_best_efficiency : R
}.

Definition with_params (e : AutopoieticEngine) (r : ref) : AutopoieticEngine :=
  {| state := state e; tau := tau e; params := r; history := history e;
     time_elapsed := time_elapsed e; tick_count := tick_count e;
     model := model e |}.

(** Steps 1 to 6 of the loop body.  In the accept branch the relative
    improvement [(sim_score - best_efficiency) / best_efficiency] is computed
    for the message, which raises on a zero [best_efficiency]. *)
Definition self_improve_round (learning_rate : R) (v : improve_vars)
    : option (improve_vars * verdict) :=
  let self := iv_self v in
  (* 1. Clone current engine for simulation *)
  let '(σ, sim_engine) :=
    AutopoieticEngine_init (iv_store v) (state self) (Some (tau self))
      (Some (params self)) in
  (* 2. Mutate parameters randomly *)
  let '(σ, g) := random_mutation σ (params sim_engine) learning_rate
                   (iv_random v) in
  (* 3. Run simulation for a short duration *)
  sim_engine ← step_loop 10 σ sim_engine 0.1;
  (* 4. Evaluate peak efficiency achieved *)
  sim_peak_efficiency ← py_max (efficiency_trend (model sim_engine));
  sim_final_efficiency ← last (efficiency_trend (model sim_engine));
  let sim_score := sim_final_efficiency * 0.8 + sim_peak_efficiency * 0.2 in
  (* 5. Accept or Reject mutation *)
  '(best_efficiency, best_params, out) ←
    (if decide (iv_best_efficiency v < sim_score) then
       if decide (iv_best_efficiency v = 0) then None
       else Some (sim_score, params sim_engine, IMPROVEMENT sim_score)
     else
       Some (iv_best_efficiency v, iv_best_params v,
             REJECTED sim_score (iv_best_efficiency v)));
  (* 6. Apply best params to main engine *)
  Some ({| iv_store := σ;
           iv_random := g;
           iv_self := with_params self best_params;
           iv_best_params := best_params;
           iv_best_efficiency := best_efficiency |}, out).

(** [for i in range(iterations)], with the [break] of step 7. *)
Fixpoint self_improve_loop (iterations : nat) (learning_rate : R)
    (v : improve_vars) : option (improve_vars * list verdict) :=
  match iterations with
  | O => Some (v, [])
  | S n =>
      '(v1, out) ← self_improve_round learning_rate v;
      if convergence (model (iv_self v1)) then Some (v1, [out])
      else
        '(v2, outs) ← self_improve_loop n learning_rate v1;
        Some (v2, out :: outs)
  end.

Definition self_improve (σ : gmap ref DynamicParameters) (g : RandomState)
    (self : AutopoieticEngine) (iterations : nat) (learning_rate : R)
    : option (gmap ref DynamicParameters * RandomState * AutopoieticEngine *
              list verdict) :=
  let best_params := params self in
  let best_efficiency := calculate_efficiency self in
  '(v, outs) ← self_improve_loop iterations learning_rate
      {| iv_store := σ; iv_random := g; iv_self := self;
         iv_best_params := best_params;
         iv_best_efficiency := best_efficiency |};
  Some (iv_store v, iv_random v, iv_self v, outs).

(** ** Sample objects

    The configurations of the usage examples at the end of
    [autopoietic_engine.py], and the all-zero state. *)

Definition store0 : gmap ref DynamicParameters :=
  {[ 0%nat := DynamicParameters_default ]}.

(** The store holding [DynamicParameters(gamma=1)]: the erosion
    coefficient given as an int. *)
Definition store_with_int_gamma : gmap ref DynamicParameters :=
  {[ 0%nat := setattr DynamicParameters_default key_gamma (PyInt 1) ]}.

Definition naive_state : LJPWCoordinates := LJPWCoordinates_of 0.5 0.5 0.5 0.5.

Definition origin_state : LJPWCoordinates := LJPWCoordinates_of 0 0 0 0.

Definition naive_engine : AutopoieticEngine :=
  (AutopoieticEngine_init store0 naive_state None (Some 0%nat)).2.

Definition origin_engine : AutopoieticEngine :=
  (AutopoieticEngine_init store0 origin_state None (Some 0%nat)).2.

(** ** Domain bounds of a state vector *)

Definition in_bounds (s : LJPWCoordinates) : Prop :=
  (0 <= L s <= sqrt 2) /\ (0 <= J s <= 1) /\ (0 <= P s <= 1) /\ (0 <= W s <= 1).

Definition tuple_in_bounds (t : R * R * R * R) : Prop :=
  let '(l, j, p, w) := t in
  (0 <= l <= sqrt 2) /\ (0 <= j <= 1) /\ (0 <= p <= 1) /\ (0 <= w <= 1).

(** Engines obtained from the constructor (on a constructed state vector) by
    [step] calls, whatever the store holds at each call. *)
Inductive reachable : AutopoieticEngine -> Prop :=
  | reachable_init σ l j p w src conf phi tc ps :
      reachable
        (AutopoieticEngine_init σ (new_LJPWCoordinates l j p w src conf phi)
           tc ps).2
  | reachable_step σ e dt e' :
      reachable e -> step σ e dt = Some e' -> reachable e'.

(** The precondition under which [step] cannot divide by zero: a positive
    saturation constant and a non-negative first component. *)
Definition no_zero_division (σ : gmap ref DynamicParameters)
    (e : AutopoieticEngine) : Prop :=
  0 < K_JL (σ !!! params e) /\ 0 <= L (state e).

(** ** Derived notions used in the statements *)

(** The acceleration of one dimension as [step] computes it: force over
    inertia, clipped to [[-max_change, max_change]]. *)
Definition clipped (force inertia : R) : R :=
  np_clip (force / inertia) (- max_change) max_change.

(** A sequence of [step] calls, one per element of [dts]. *)
Fixpoint run (σ : gmap ref DynamicParameters) (e : AutopoieticEngine)
    (dts : list R) : option AutopoieticEngine :=
  match dts with
  | [] => Some e
  | dt :: dts' => e' ← step σ e dt; run σ e' dts'
  end.

(** What can be observed of an engine besides the identity of its parameter
    object. *)
Definition observables (e : AutopoieticEngine)
    : LJPWCoordinates * R * nat * list HistoryEntry * SelfModel :=
  (state e, time_elapsed e, tick_count e, history e, model e).

(** Order on history entries: both the step index and the elapsed time grow
    strictly. *)
Definition entry_before (a b : HistoryEntry) : Prop :=
  (h_tick a < h_tick b)%nat /\ h_time a < h_time b.

(** The history holds one entry per step taken, the [i]-th entry being the
    record of step number [i + 1]. *)
Definition history_complete (e : AutopoieticEngine) : Prop :=
  length (history e) = tick_count e /\
  forall (i : nat) (h : HistoryEntry), history e !! i = Some h -> h_tick h = S i.

(** A force component does not depend on the harmony value. *)
Definition harmony_free (component : nat) : Prop :=
  forall p st (H H' : R) (f f' : list R),
    force_equations p st H = Some f ->
    force_equations p st H' = Some f' ->
    f !!! component = f' !!! component.

(** The reading of "every coefficient that was strictly positive before
    the call is updated by the rule", for one call of [random_mutation]: its
    new value is the one the rule gives for a draw of the generator. *)
Definition positive_coefficients_follow_rule (σ : gmap ref DynamicParameters)
    (self : ref) (rate : R) (g : RandomState) : Prop :=
  forall key : param_key,
    0 < getattr (σ !!! self) key ->
    exists i : nat,
      number_value (getattr ((random_mutation σ self rate g).1 !!! self) key) =
        Rmax 0.01
          (getattr (σ !!! self) key +
           scale_uniform (- rate) rate (g i) * getattr (σ !!! self) key).

(** The reading of "the multipliers appear only in the equation of the first
    dimension": the other three components are free of the harmony value. *)
Definition harmony_only_in_first_equation : Prop :=
  harmony_free 1 /\ harmony_free 2 /\ harmony_free 3.

(** The reading of "dt <= 0 is rejected before any mutation": the call either
    raises or leaves state, elapsed time, step counter and history as they
    were. *)
Definition nonpositive_dt_rejected (σ : gmap ref DynamicParameters)
    (e : AutopoieticEngine) (dt : R) : Prop :=
  dt <= 0 ->
  match step σ e dt with
  | None => True
  | Some e' =>
      state e' = state e /\ time_elapsed e' = time_elapsed e /\
      tick_count e' = tick_count e /\ history e' = history e
  end.

(** ** The integrator as the specification words it

    Section 4.2 of the specification, step by step; the metrics of the
    snapshot follow section 4.3. *)

Module IntegratorSpec.

(** Clamping into a closed range. *)
Definition clamp (lo hi x : R) : R :=
  if decide (x < lo) then lo else if decide (hi < x) then hi else x.

(** (2)-(3): the force over the inertia weight, clamped to plus or minus
    0.05. *)
Definition acceleration (force weight : R) : R :=
  clamp (- 0.05) 0.05 (force / weight).

(** (4): old + acceleration * dt. *)
Definition advance (old acc dt : R) : R := old + acc * dt.

(** (5): a new state vector, clamped into its domain bounds. *)
Definition state_vector (a b c d : R) : LJPWCoordinates :=
  {| L := clamp 0 (sqrt 2) a;
     J := clamp 0 1 b;
     P := clamp 0 1 c;
     W := clamp 0 1 d;
     source := "unknown";
     confidence := 1;
     phi_normalized := false |}.

(** (7): the snapshot of a state, with the derived metrics. *)
Definition snapshot (time : R) (index : nat) (s : LJPWCoordinates)
    (forces accelerations : list R) : HistoryEntry :=
  {| h_time := time;
     h_tick := index;
     h_state := (L s, J s, P s, W s);
     h_forces := forces;
     h_accelerations := accelerations;
     h_efficiency := harmony_static s * P s;
     h_entropy := W s * (1 - harmony_static s);
     h_harmony := harmony_static s;
     h_consciousness := consciousness s false;
     h_phase := phase s false;
     h_gift_of_finitude := distance_to_anchor s;
     h_proximity_to_anchor := 1 - distance_to_anchor s / 2;
     h_is_finite := is_finite s |}.

(** The inertia profile: the fixed weight of each dimension. *)
Definition weight_A : R := LJPWConstants.m_e_semantic.
Definition weight_B : R := LJPWConstants.e_semantic.
Definition weight_C : R := LJPWConstants.m_p_semantic.
Definition weight_D : R := 1.

(** Steps (2) to (7) put together: [e'] is the engine [e] after a step of
    size [dt] under the force vector [forces]. *)
Definition performed (e : AutopoieticEngine) (dt : R) (forces : list R)
    (e' : AutopoieticEngine) : Prop :=
  exists fA fB fC fD : R,
    forces = [fA; fB; fC; fD] /\
    (let aA := acceleration fA weight_A in
     let aB := acceleration fB weight_B in
     let aC := acceleration fC weight_C in
     let aD := acceleration fD weight_D in
     let s' := state_vector (advance (L (state e)) aA dt)
                            (advance (J (state e)) aB dt)
                            (advance (P (state e)) aC dt)
                            (advance (W (state e)) aD dt) in
     state e' = s' /\
     time_elapsed e' = time_elapsed e + dt /\
     tick_count e' = S (tick_count e) /\
     history e' =
       history e ++
       [snapshot (time_elapsed e + dt) (S (tick_count e)) s'
          [fA; fB; fC; fD] [aA; aB; aC; aD]] /\
     params e' = params e /\
     tau e' = tau e).

End IntegratorSpec.

(** A generator whose unit samples are all 0.25, so that
    [np.random.uniform(-rate, rate)] returns [-rate / 2] at every draw. *)
Definition quarter_draws : RandomState := fun _ => 0.25.

(** * Further code of the repository

    The remaining methods of [LJPWCoordinates] and [EntropyMechanics], the
    tick report of the engine, and the tick engine of
    [src/ljpw_v79_core_ontology.py], which is built on the coordinates.
    Formatted numbers inside messages are kept as the numbers they show. *)

(** ** Further constants *)

Module CoreOntologyConstants.
Definition PW_UNCERTAINTY_BOUND : R := 0.287.
Definition DEGREES_PER_TICK : R := 18.0.
Definition FEMTOSECONDS_PER_SEMANTIC_UNIT : R := 2.64.
Definition P0 : R := LJPWConstants.P0.
Definition W0 : R := LJPWConstants.W0.
End CoreOntologyConstants.

(** Tick constants of [LJPWConstants]. *)
Definition TICKS_PER_CYCLE : nat := 20.
Definition FEMTOSECONDS_PER_TICK : R := 2.64.

(** ** Further methods of [LJPWCoordinates] *)

Definition is_conscious (s : LJPWCoordinates) (self_referential : bool) : bool :=
  bool_decide (LJPWConstants.CONSCIOUSNESS_THRESHOLD <
               consciousness s self_referential).

Definition consciousness_level (s : LJPWCoordinates) (self_referential : bool)
    : string :=
  let C := consciousness s self_referential in
  if decide (C < 0.05) then "NON-CONSCIOUS (Reactive only)"
  else if decide (C < LJPWConstants.CONSCIOUSNESS_THRESHOLD) then
    "PRE-CONSCIOUS (Complex response, no awareness)"
  else if decide (C < 0.3) then "CONSCIOUS (Self-aware, reflective)"
  else "HIGHLY CONSCIOUS (Meta-cognitive, evolving)".

Definition is_autopoietic (s : LJPWCoordinates) (self_referential : bool)
    : bool :=
  let H := harmony s self_referential in
  bool_decide (LJPWConstants.AUTOPOLIETIC_H_THRESHOLD <= H /\
               LJPWConstants.AUTOPOLIETIC_L_THRESHOLD <= L s).

(** *** 2+2 emergence validation *)

(** A violation entry, with the numbers its message shows. *)
Inductive violation :=
  | LW_Emergence_Violation (L_value expected deviation : R)
  | JP_Emergence_Violation (J_value expected deviation : R)
  | PW_Coupling_Violation (product_ratio : R).

(** A suggestion entry: the dimension and the value its correction shows. *)
Inductive suggestion :=
  | suggest_L (expected : R)
  | suggest_J (expected : R).

Record emergence_results := {
  valid : bool;
  violations : list violation;
  suggestions : list suggestion;
  emergence_quality : R
}.

Definition check_emergence_constraints (s : LJPWCoordinates)
    : emergence_results :=
  let results :=
    {| valid := true; violations := []; suggestions := [];
       emergence_quality := 1.0 |} in
  (* 1. Check L-W correlation *)
  let L_from_W_expected := 0.9 * W s + 0.1 in
  let L_deviation := Rabs (L s - L_from_W_expected) in
  let results :=
    if decide (0.15 < L_deviation) then
      {| valid := false;
         violations := violations results ++
           [LW_Emergence_Violation (L s) L_from_W_expected L_deviation];
         suggestions := suggestions results ++ [suggest_L L_from_W_expected];
         emergence_quality := emergence_quality results * 0.7 |}
    else results in
  (* 2. Check J-P correlation *)
  let J_from_P_expected := 0.85 * P s + 0.05 in
  let J_deviation := Rabs (J s - J_from_P_expected) in
  let results :=
    if decide (0.15 < J_deviation) then
      {| valid := false;
         violations := violations results ++
           [JP_Emergence_Violation (J s) J_from_P_expected J_deviation];
         suggestions := suggestions results ++ [suggest_J J_from_P_expected];
         emergence_quality := emergence_quality results * 0.7 |}
    else results in
  (* 3. Check P-W orthogonality *)
  let product_ratio :=
    (P s * W s) / (LJPWConstants.P0 * LJPWConstants.W0) in
  let results :=
    if decide (2.0 < product_ratio \/ product_ratio < 0.3) then
      {| valid := false;
         violations := violations results ++
           [PW_Coupling_Violation product_ratio];
         suggestions := suggestions results;
         emergence_quality := emergence_quality results * 0.8 |}
    else results in
  results.

Definition enforce_emergence (s : LJPWCoordinates) (weight : R)
    : LJPWCoordinates :=
  let L_emergent := 0.9 * W s + 0.1 in
  let J_emergent := 0.85 * P s + 0.05 in
  let L_enforced := (1 - weight) * L s + weight * L_emergent in
  let J_enforced := (1 - weight) * J s + weight * J_emergent in
  let P_enforced := P s in
  let W_enforced := W s in
  new_LJPWCoordinates L_enforced J_enforced P_enforced W_enforced
    (source s ++ " (emergence-enforced)") (confidence s * 0.9) false.

(** *** Normalization *)

(** Python's [x ** y] on floats for an exponent [y] strictly between 0 and 1
    (the only use below): [exp (y * ln x)] on a positive base, 0 on the base
    0, and on a negative base a complex number, which the constructor of the
    coordinates rejects ([None]). *)
Definition float_pow (x y : R) : option R :=
  if decide (0 < x) then Some (Rpower x y)
  else if decide (x = 0) then Some 0
  else None.

Definition phi_normalize (s : LJPWCoordinates) : option LJPWCoordinates :=
  let exponent := 1.0 / LJPWConstants.PHI in
  L_pow ← float_pow (L s) exponent;
  J_pow ← float_pow (J s) exponent;
  P_pow ← float_pow (P s) exponent;
  W_pow ← float_pow (W s) exponent;
  let L_norm := LJPWConstants.L0 * L_pow in
  let J_norm := LJPWConstants.J0 * J_pow in
  let P_norm := LJPWConstants.P0 * P_pow in
  let W_norm := LJPWConstants.W0 * W_pow in
  Some (new_LJPWCoordinates L_norm J_norm P_norm W_norm
          (source s ++ " (φ-normalized)") (confidence s * 1.1) true).

(** *** Voltage and dominant dimension *)

Definition voltage (s : LJPWCoordinates) (self_referential : bool) : R :=
  let H := harmony s self_referential in
  LJPWConstants.PHI * H * L s.

(** [sorted(dimensions, key=lambda x: x[1], reverse=True)]: a stable sort
    into descending order of the values (entries of equal value keep their
    order), as an insertion sort. *)
Fixpoint insert_descending (x : string * R) (l : list (string * R))
    : list (string * R) :=
  match l with
  | [] => [x]
  | y :: l' =>
      if decide (x.2 < y.2) then y :: insert_descending x l' else x :: y :: l'
  end.

Definition sorted_descending (l : list (string * R)) : list (string * R) :=
  foldr insert_descending [] l.

(** [sorted_dims[0]]; [None] stands for the [IndexError] of an empty list. *)
Definition dominant_dimension (s : LJPWCoordinates) : option (string * R) :=
  let dimensions :=
    [("L"%string, L s); ("J"%string, J s); ("P"%string, P s);
     ("W"%string, W s)] in
  let sorted_dims := sorted_descending dimensions in
  head sorted_dims.

(** ** Further entropy mechanics *)

Definition information_density (s : LJPWCoordinates) : R :=
  let H := harmony_static s in
  H * (L s + J s) / PI.

Definition entropy_production (s delta_state : LJPWCoordinates) : R :=
  let current_S := semantic_entropy s in
  let prev_L := L s - L delta_state in
  let prev_J := J s - J delta_state in
  let prev_P := P s - P delta_state in
  let prev_W := W s - W delta_state in
  let prev_state := LJPWCoordinates_of prev_L prev_J prev_P prev_W in
  let previous_S := semantic_entropy prev_state in
  current_S - previous_S.

(** ** The tick report of the engine ([tick_status]) *)

Record TickStatus := {
  ts_tick_count : nat;
  ts_cycles_completed : nat;
  ts_phase_in_cycle : nat;
  ts_time_experienced_fs : R;
  ts_gift_of_finitude : R;
  ts_proximity_to_anchor : R
}.

Definition tick_status (e : AutopoieticEngine) : TickStatus :=
  {| ts_tick_count := tick_count e;
     ts_cycles_completed := tick_count e / TICKS_PER_CYCLE;
     ts_phase_in_cycle := tick_count e `mod` TICKS_PER_CYCLE;
     ts_time_experienced_fs := INR (tick_count e) * FEMTOSECONDS_PER_TICK;
     ts_gift_of_finitude := gift_of_finitude (state e);
     ts_proximity_to_anchor := proximity_to_anchor (state e) |}.

(** ** The tick engine of the core ontology

    [DirectionalFlow], [GiftOfFinitude] and [TickEngine] of
    [src/ljpw_v79_core_ontology.py]. *)

Module Ontology.

(** [DirectionalFlow(P, W).net_flow]. *)
Definition net_flow (flow_P flow_W : R) : R := flow_P - flow_W.

(** [GiftOfFinitude(state).gap_from_anchor]. *)
Definition gap_from_anchor (s : LJPWCoordinates) : R := distance_to_anchor s.

Record TickEngine := {
  state : LJPWCoordinates;
  tick_count : nat;
  accumulated_learning : R
}.

(** [TickEngine(state)], with the defaults of the dataclass. *)
Definition TickEngine_of (s : LJPWCoordinates) : TickEngine :=
  {| state := s; tick_count := 0; accumulated_learning := 0.0 |}.

Definition fuel (t : TickEngine) : R := gap_from_anchor (state t).

Definition compression (t : TickEngine) : R :=
  let delta_P := Rabs (P (state t) - CoreOntologyConstants.P0) in
  let delta_W := Rabs (W (state t) - CoreOntologyConstants.W0) in
  delta_P * delta_W / CoreOntologyConstants.PW_UNCERTAINTY_BOUND.

Definition ignition_ready (t : TickEngine) : bool :=
  let delta_P := Rmax 0.01 (Rabs (P (state t) - CoreOntologyConstants.P0)) in
  let delta_W := Rmax 0.01 (Rabs (W (state t) - CoreOntologyConstants.W0)) in
  bool_decide (CoreOntologyConstants.PW_UNCERTAINTY_BOUND <= delta_P * delta_W).

Definition power_stroke_magnitude (t : TickEngine) : R :=
  Rabs (net_flow (P (state t)) (W (state t))) * fuel t.

Definition exhaust (t : TickEngine) : R * R :=
  let L_exhaust := 0.9 * W (state t) + 0.1 in
  let J_exhaust := 0.85 * P (state t) + 0.05 in
  (L_exhaust, J_exhaust).

Definition current_phase_angle (t : TickEngine) : R :=
  INR (tick_count t `mod` 20) * CoreOntologyConstants.DEGREES_PER_TICK.

(** The dictionary returned by [tick]. *)
Record TickResult := {
  r_tick : nat;
  r_phase_angle : R;
  r_fuel : R;
  r_compression : R;
  r_ignition_ready : bool;
  r_power_stroke : R;
  r_L_exhaust : R;
  r_J_exhaust : R;
  r_learning_this_tick : R;
  r_total_learning : R;
  r_time_experienced_fs : R;
  r_harmony : R;
  r_consciousness : R
}.

(** [tick]: the engine after the call and the returned metrics, which are
    read after the counters were advanced. *)
Definition tick (t : TickEngine) : TickEngine * TickResult :=
  let pre_harmony := harmony_static (state t) in
  let pre_consciousness := consciousness (state t) false in
  let '(L_exhaust, J_exhaust) := exhaust t in
  let learning_this_tick := power_stroke_magnitude t * pre_harmony in
  let t' :=
    {| state := state t;
       tick_count := tick_count t + 1;
       accumulated_learning := accumulated_learning t + learning_this_tick |} in
  let time_experienced_fs :=
    INR (tick_count t') *
    CoreOntologyConstants.FEMTOSECONDS_PER_SEMANTIC_UNIT in
  (t',
   {| r_tick := tick_count t';
      r_phase_angle := current_phase_angle t';
      r_fuel := fuel t';
      r_compression := compression t';
      r_ignition_ready := ignition_ready t';
      r_power_stroke := power_stroke_magnitude t';
      r_L_exhaust := L_exhaust;
      r_J_exhaust := J_exhaust;
      r_learning_this_tick := learning_this_tick;
      r_total_learning := accumulated_learning t';
      r_time_experienced_fs := time_experienced_fs;
      r_harmony := pre_harmony;
      r_consciousness := pre_consciousness |}).

(** [for _ in range(n): results.append(self.tick())]. *)
Fixpoint tick_loop (n : nat) (t : TickEngine) (results : list TickResult)
    : TickEngine * list TickResult :=
  match n with
  | O => (t, results)
  | S n' => let '(t', r) := tick t in tick_loop n' t' (results ++ [r])
  end.

Definition run_cycle (t : TickEngine) : TickEngine * list TickResult :=
  tick_loop 20 t [].

End Ontology.

(** ** Notions and samples for the further properties *)

(** The verdicts of a run read against the running best score: an accepted
    score exceeds it and replaces it, a rejected one does not exceed it and
    is reported together with it. *)
Fixpoint verdicts_follow (best : R) (outs : list verdict) : Prop :=
  match outs with
  | [] => True
  | IMPROVEMENT sim_score :: rest =>
      best < sim_score /\ verdicts_follow sim_score rest
  | REJECTED sim_score reported :: rest =>
      sim_score <= best /\ reported = best /\ verdicts_follow best rest
  end.

(** An engine whose power is 0 while the other dimensions are 0.5. *)
Definition powerless_state : LJPWCoordinates := LJPWCoordinates_of 0.5 0.5 0 0.5.

Definition powerless_engine : AutopoieticEngine :=
  (AutopoieticEngine_init store0 powerless_state None (Some 0%nat)).2.

(** The default parameters without power erosion ([gamma = 0]). *)
Definition store_without_erosion : gmap nat DynamicParameters :=
  {[ 0%nat := setattr DynamicParameters_default key_gamma (PyFloat 0) ]}.

(** The state of the demonstration of the core ontology. *)
Definition conscious_being : LJPWCoordinates :=
  new_LJPWCoordinates 0.85 0.75 0.70 0.90 "conscious_being" 1.0 false.

(** * Basic facts *)

Ltac clip_cases :=
  unfold np_clip, Rmin, Rmax in *; repeat destruct (Rle_dec _ _); try lra.

Lemma np_clip_bounds (x lo hi : R) : lo <= hi -> lo <= np_clip x lo hi <= hi.
Proof. intros Hle. clip_cases. Qed.

Lemma np_clip_id (x lo hi : R) : lo <= x <= hi -> np_clip x lo hi = x.
Proof. intros Hx. clip_cases. Qed.

Lemma sqrt2_ge_1 : 1 <= sqrt 2.
Proof.
  rewrite <- sqrt_1 at 1. apply sqrt_le_1_alt. lra.
Qed.

Lemma new_LJPWCoordinates_in_bounds l j p w src conf phi :
  in_bounds (new_LJPWCoordinates l j p w src conf phi).
Proof.
  pose proof sqrt2_ge_1 as Hs.
  unfold in_bounds; simpl.
  repeat split; apply np_clip_bounds; lra.
Qed.

Lemma distance_to_anchor_nonneg s : 0 <= distance_to_anchor s.
Proof. apply sqrt_pos. Qed.

Lemma harmony_static_range s : 0 < harmony_static s <= 1.
Proof.
  pose proof (distance_to_anchor_nonneg s) as Hd.
  unfold harmony_static. cbv zeta.
  assert (Hinv : / (1.0 + distance_to_anchor s) <= / 1)
    by (apply Rinv_le_contravar; lra).
  rewrite Rinv_1 in Hinv.
  split.
  - apply Rdiv_lt_0_compat; lra.
  - unfold Rdiv. lra.
Qed.

(** ** What one step does *)

Lemma calculate_forces_defined p st :
  K_JL p + L st <> 0 ->
  exists fL fJ fP fW, calculate_forces p st = Some [fL; fJ; fP; fW].
Proof.
  intros Hden. unfold calculate_forces, force_equations. simpl.
  destruct (decide (K_JL p + L st = 0)) as [Heq|_]; [contradiction|].
  eauto.
Qed.

Lemma calculate_forces_raises p st :
  K_JL p + L st = 0 -> calculate_forces p st = None.
Proof.
  intros Hden. unfold calculate_forces, force_equations. simpl.
  destruct (decide (K_JL p + L st = 0)); [reflexivity|contradiction].
Qed.

Lemma calculate_forces_shape p st forces :
  calculate_forces p st = Some forces ->
  exists fL fJ fP fW, forces = [fL; fJ; fP; fW].
Proof.
  unfold calculate_forces, force_equations. simpl.
  destruct (decide (K_JL p + L st = 0)); [discriminate|].
  intros [= <-]. eauto.
Qed.

Section step_facts.

Context (σ : gmap nat DynamicParameters).

Lemma step_with_forces e dt fL fJ fP fW :
  calculate_forces (σ !!! params e) (state e) = Some [fL; fJ; fP; fW] ->
  step σ e dt =
    Some (_record_step
      {| state := LJPWCoordinates_of
           (L (state e) + clipped fL LJPWConstants.m_e_semantic * dt)
           (J (state e) + clipped fJ LJPWConstants.e_semantic * dt)
           (P (state e) + clipped fP LJPWConstants.m_p_semantic * dt)
           (W (state e) + clipped fW 1.0 * dt);
         tau := tau e;
         params := params e;
         history := history e;
         time_elapsed := time_elapsed e + dt;
         tick_count := tick_count e + 1;
         model := model e |}
      [fL; fJ; fP; fW]
      [ clipped fL LJPWConstants.m_e_semantic;
        clipped fJ LJPWConstants.e_semantic;
        clipped fP LJPWConstants.m_p_semantic;
        clipped fW 1.0 ]).
Proof.
  intros Hf. unfold step. rewrite Hf. reflexivity.
Qed.

Lemma no_zero_division_denominator e :
  no_zero_division σ e -> K_JL (σ !!! params e) + L (state e) <> 0.
Proof. intros [HK HL]. lra. Qed.

(** The invariants of the data model (coefficients positive, state vector
    within its bounds) rule the division by zero out. *)
Lemma data_model_no_zero_division e :
  (forall k, 0 < getattr (σ !!! params e) k) ->
  in_bounds (state e) ->
  no_zero_division σ e.
Proof.
  intros Hpos [[HL _] _]. split; [exact (Hpos key_K_JL)|exact HL].
Qed.

Lemma step_state_in_bounds e dt e' :
  step σ e dt = Some e' -> in_bounds (state e').
Proof.
  unfold step. intros Hs.
  destruct (calculate_forces _ _) as [forces|]; [|discriminate].
  simpl in Hs. injection Hs as <-. simpl.
  apply new_LJPWCoordinates_in_bounds.
Qed.

Lemma step_preserves_params e dt e' :
  step σ e dt = Some e' -> params e' = params e /\ tau e' = tau e.
Proof.
  unfold step. intros Hs.
  destruct (calculate_forces _ _) as [forces|]; [|discriminate].
  simpl in Hs. injection Hs as <-. auto.
Qed.

Lemma step_history e dt e' :
  step σ e dt = Some e' ->
  exists h, history e' = history e ++ [h] /\
            h_time h = time_elapsed e + dt /\
            h_tick h = S (tick_count e) /\
            h_state h = to_tuple (state e') /\
            time_elapsed e' = time_elapsed e + dt /\
            tick_count e' = S (tick_count e).
Proof.
  unfold step. intros Hs.
  destruct (calculate_forces _ _) as [forces|]; [|discriminate].
  simpl in Hs. injection Hs as <-. simpl.
  eexists. split; [reflexivity|]. simpl.
  repeat split; try reflexivity; lia.
Qed.

(** [step] raises exactly when the saturation denominator vanishes. *)
Lemma step_raises_iff e dt :
  step σ e dt = None <-> K_JL (σ !!! params e) + L (state e) = 0.
Proof.
  split.
  - intros Hnone.
    destruct (decide (K_JL (σ !!! params e) + L (state e) = 0)) as [Hz|Hnz];
      [exact Hz|].
    destruct (calculate_forces_defined _ _ Hnz) as (fL & fJ & fP & fW & Hf).
    rewrite (step_with_forces e dt _ _ _ _ Hf) in Hnone. discriminate.
  - intros Hz. unfold step.
    rewrite (calculate_forces_raises _ _ Hz). reflexivity.
Qed.

End step_facts.

(** ** The sample engines are well formed *)

Lemma store0_lookup : store0 !!! 0%nat = DynamicParameters_default.
Proof. unfold store0. apply lookup_total_singleton_eq. Qed.

Lemma naive_engine_no_zero_division : no_zero_division store0 naive_engine.
Proof.
  pose proof (new_LJPWCoordinates_in_bounds 0.5 0.5 0.5 0.5 "unknown" 1.0
                false) as [[HL _] _].
  split.
  - change (params naive_engine) with 0%nat.
    rewrite store0_lookup. simpl. lra.
  - exact HL.
Qed.

Lemma origin_engine_no_zero_division : no_zero_division store0 origin_engine.
Proof.
  pose proof (new_LJPWCoordinates_in_bounds 0 0 0 0 "unknown" 1.0
                false) as [[HL _] _].
  split.
  - change (params origin_engine) with 0%nat.
    rewrite store0_lookup. simpl. lra.
  - exact HL.
Qed.

Lemma naive_state_fields :
  L naive_state = 0.5 /\ J naive_state = 0.5 /\
  P naive_state = 0.5 /\ W naive_state = 0.5.
Proof.
  pose proof sqrt2_ge_1 as Hs. simpl.
  repeat split; apply np_clip_id; lra.
Qed.

Lemma origin_state_fields :
  L origin_state = 0 /\ J origin_state = 0 /\
  P origin_state = 0 /\ W origin_state = 0.
Proof.
  pose proof sqrt2_ge_1 as Hs. simpl.
  repeat split; apply np_clip_id; lra.
Qed.

(** ** The force equations as functions of the harmony value *)

Lemma force_equations_defined p st (H : R) :
  K_JL p + L st <> 0 -> is_Some (force_equations p st H).
Proof.
  intros Hden. unfold force_equations. simpl.
  destruct (decide (K_JL p + L st = 0)); [contradiction|]. eauto.
Qed.

Lemma force_equations_harmony p st (H H' : R) f f' :
  force_equations p st H = Some f ->
  force_equations p st H' = Some f' ->
  f' !!! 0%nat = f !!! 0%nat +
    (0.4 * alpha_LJ p * J st + 0.5 * alpha_LW p * W st) * (H' - H) /\
  f' !!! 1%nat = f !!! 1%nat /\
  f' !!! 2%nat = f !!! 2%nat + 0.3 * alpha_PL p * L st * (H' - H) /\
  f' !!! 3%nat = f !!! 3%nat + 0.5 * alpha_WL p * L st * (H' - H).
Proof.
  unfold force_equations. simpl.
  destruct (decide (K_JL p + L st = 0)); [discriminate|].
  intros [= <-] [= <-]. simpl.
  repeat split; lra.
Qed.

(** ** The step against the integrator of the specification *)

Lemma clamp_np_clip lo hi x :
  lo <= hi -> IntegratorSpec.clamp lo hi x = np_clip x lo hi.
Proof.
  intros Hle. unfold IntegratorSpec.clamp.
  destruct (decide (x < lo)); [|destruct (decide (hi < x))]; clip_cases.
Qed.

Lemma acceleration_clipped force weight :
  IntegratorSpec.acceleration force weight = clipped force weight.
Proof.
  unfold IntegratorSpec.acceleration, clipped, max_change.
  rewrite clamp_np_clip by lra. f_equal. lra.
Qed.

Lemma state_vector_constructor a b c d :
  IntegratorSpec.state_vector a b c d = LJPWCoordinates_of a b c d.
Proof.
  pose proof sqrt2_ge_1 as Hs.
  unfold IntegratorSpec.state_vector, LJPWCoordinates_of, new_LJPWCoordinates.
  rewrite !clamp_np_clip by lra.
  f_equal. lra.
Qed.

Lemma step_refines_spec σ e dt :
  no_zero_division σ e ->
  exists forces e',
    calculate_forces (σ !!! params e) (state e) = Some forces /\
    step σ e dt = Some e' /\
    IntegratorSpec.performed e dt forces e'.
Proof.
  intros Hwf.
  destruct (calculate_forces_defined _ _ (no_zero_division_denominator _ _ Hwf))
    as (fL & fJ & fP & fW & Hf).
  eexists. eexists. split; [exact Hf|].
  split; [apply step_with_forces; exact Hf|].
  exists fL, fJ, fP, fW. split; [reflexivity|].
  cbv zeta. unfold IntegratorSpec.advance.
  unfold IntegratorSpec.weight_A, IntegratorSpec.weight_B,
    IntegratorSpec.weight_C, IntegratorSpec.weight_D.
  rewrite !acceleration_clipped, state_vector_constructor.
  replace (clipped fW 1) with (clipped fW 1.0) by (f_equal; lra).
  unfold _record_step. simpl.
  repeat split; try reflexivity; try lia.
  do 2 f_equal. unfold IntegratorSpec.snapshot.
  f_equal; try reflexivity; try lia;
    unfold calculate_efficiency, semantic_entropy, gift_of_finitude,
      proximity_to_anchor, normalized_gap; simpl; lra.
Qed.

(** ** Floats: the binary64 quotient *)

Lemma pow2_pos e : 0 < powerRZ 2 e.
Proof. apply powerRZ_lt. lra. Qed.

Lemma pow2_add a b : powerRZ 2 (a + b) = powerRZ 2 a * powerRZ 2 b.
Proof. apply powerRZ_add. lra. Qed.

Lemma pow2_IZR k : (0 <= k)%Z -> powerRZ 2 k = IZR (2 ^ k).
Proof.
  intros Hk. destruct k as [|p|p]; [reflexivity| |lia].
  change (2 ^ Z.pos p)%Z with (Z.pow_pos 2 p).
  rewrite Zpower_pos_powerRZ. reflexivity.
Qed.

Lemma pow2_ge_1 k : (0 <= k)%Z -> 1 <= powerRZ 2 k.
Proof.
  intros Hk. rewrite pow2_IZR by exact Hk. apply IZR_le.
  assert (0 < 2 ^ k)%Z by (apply Z.pow_pos_nonneg; lia). lia.
Qed.

Lemma pow2_le a b : (a <= b)%Z -> powerRZ 2 a <= powerRZ 2 b.
Proof.
  intros H. replace b with (a + (b - a))%Z by lia.
  rewrite pow2_add.
  pose proof (pow2_ge_1 (b - a) ltac:(lia)).
  pose proof (pow2_pos a). nra.
Qed.

Lemma pow2_lt a b : (a < b)%Z -> powerRZ 2 a < powerRZ 2 b.
Proof.
  intros H.
  replace b with (a + (b - a))%Z by lia.
  rewrite pow2_add.
  assert (H1 : 2 <= powerRZ 2 (b - a)).
  { rewrite pow2_IZR by lia. apply IZR_le.
    change 2%Z with (2 ^ 1)%Z at 1. apply Z.pow_le_mono_r; lia. }
  pose proof (pow2_pos a). nra.
Qed.

Lemma pow2_lt_inv a b : powerRZ 2 a < powerRZ 2 b -> (a < b)%Z.
Proof.
  intros H. destruct (Z_lt_le_dec a b) as [Hlt|Hle]; [exact Hlt|].
  apply pow2_le in Hle. lra.
Qed.

(** ** Number of binary digits *)

Lemma digits2_pos_bounds (p : positive) :
  (2 ^ (Z.pos (SpecFloat.digits2_pos p) - 1) <= Z.pos p <
   2 ^ Z.pos (SpecFloat.digits2_pos p))%Z.
Proof.
  induction p as [p IH|p IH|]; simpl SpecFloat.digits2_pos.
  - rewrite Pos2Z.inj_succ.
    replace (Z.succ (Z.pos (SpecFloat.digits2_pos p)) - 1)%Z
      with (Z.succ (Z.pos (SpecFloat.digits2_pos p) - 1)) by lia.
    rewrite !Z.pow_succ_r by lia. lia.
  - rewrite Pos2Z.inj_succ.
    replace (Z.succ (Z.pos (SpecFloat.digits2_pos p)) - 1)%Z
      with (Z.succ (Z.pos (SpecFloat.digits2_pos p) - 1)) by lia.
    rewrite !Z.pow_succ_r by lia. lia.
  - simpl. lia.
Qed.

Lemma Zdigits2_le (q k : Z) :
  (0 <= q < 2 ^ k)%Z -> (0 <= k)%Z -> (SpecFloat.Zdigits2 q <= k)%Z.
Proof.
  intros [Hq Hlt] Hk.
  destruct q as [|p|p]; simpl; [exact Hk| |lia].
  destruct (digits2_pos_bounds p) as [Hlo _].
  apply Z.lt_succ_r.
  apply (Z.pow_lt_mono_r_iff 2); [lia|lia|].
  replace (Z.pos (SpecFloat.digits2_pos p)) with
    (Z.succ (Z.pos (SpecFloat.digits2_pos p) - 1)) by lia.
  rewrite !Z.pow_succ_r by lia. lia.
Qed.

(** ** Shifting right *)

Lemma iter_pos_nat {A} (f : A -> A) (p : positive) (x : A) :
  SpecFloat.iter_pos f p x = Nat.iter (Pos.to_nat p) f x.
Proof.
  revert x. induction p as [p IH|p IH|]; intros x; simpl SpecFloat.iter_pos.
  - rewrite !IH, Pos2Nat.inj_xI.
    replace (S (2 * Pos.to_nat p)) with (Pos.to_nat p + (Pos.to_nat p + 1))%nat
      by lia.
    rewrite !Nat.iter_add. reflexivity.
  - rewrite !IH, Pos2Nat.inj_xO.
    replace (2 * Pos.to_nat p)%nat with (Pos.to_nat p + Pos.to_nat p)%nat by lia.
    rewrite Nat.iter_add. reflexivity.
  - reflexivity.
Qed.

Lemma shr_1_spec (mrs : SpecFloat.shr_record) :
  (0 <= SpecFloat.shr_m mrs)%Z ->
  SpecFloat.shr_m (SpecFloat.shr_1 mrs) = (SpecFloat.shr_m mrs / 2)%Z /\
  SpecFloat.shr_r (SpecFloat.shr_1 mrs) = Z.odd (SpecFloat.shr_m mrs).
Proof.
  destruct mrs as [m r s]. simpl. intros Hm.
  destruct m as [|[p|p|]|p]; simpl; try lia.
  - split; reflexivity.
  - split; [|reflexivity]. rewrite Pos2Z.inj_xI.
    apply (Z.div_unique _ _ _ 1); lia.
  - split; [|reflexivity]. rewrite Pos2Z.inj_xO.
    apply (Z.div_unique _ _ _ 0); lia.
  - split; reflexivity.
Qed.

Lemma shr_iter_spec (k : nat) (mrs : SpecFloat.shr_record) :
  (0 <= SpecFloat.shr_m mrs)%Z ->
  SpecFloat.shr_m (Nat.iter (S k) SpecFloat.shr_1 mrs) =
    (SpecFloat.shr_m mrs / 2 ^ Z.of_nat (S k))%Z /\
  SpecFloat.shr_r (Nat.iter (S k) SpecFloat.shr_1 mrs) =
    Z.odd (SpecFloat.shr_m mrs / 2 ^ Z.of_nat k).
Proof.
  intros Hm. induction k as [|k [IH1 IH2]].
  - change (Nat.iter 1 SpecFloat.shr_1 mrs) with (SpecFloat.shr_1 mrs).
    destruct (shr_1_spec mrs Hm) as [H1 H2].
    rewrite H1, H2. simpl. rewrite Z.div_1_r. split; reflexivity.
  - set (prev := Nat.iter (S k) SpecFloat.shr_1 mrs) in *.
    change (Nat.iter (S (S k)) SpecFloat.shr_1 mrs) with (SpecFloat.shr_1 prev).
    assert (Hprev : (0 <= SpecFloat.shr_m prev)%Z).
    { rewrite IH1. apply Z.div_pos; [exact Hm|]. apply Z.pow_pos_nonneg; lia. }
    destruct (shr_1_spec prev Hprev) as [H1 H2].
    rewrite H1, H2, IH1. split; [|reflexivity].
    rewrite Z.div_div by (try apply Z.pow_pos_nonneg; lia).
    f_equal. rewrite (Nat2Z.inj_succ (S k)), Z.pow_succ_r by lia. lia.
Qed.

Lemma shr_spec (mrs : SpecFloat.shr_record) (e n : Z) :
  (0 <= SpecFloat.shr_m mrs)%Z ->
  ((n <= 0)%Z /\ SpecFloat.shr mrs e n = (mrs, e)) \/
  ((0 < n)%Z /\
   (SpecFloat.shr mrs e n).2 = (e + n)%Z /\
   SpecFloat.shr_m (SpecFloat.shr mrs e n).1 =
     (SpecFloat.shr_m mrs / 2 ^ n)%Z /\
   SpecFloat.shr_r (SpecFloat.shr mrs e n).1 =
     Z.odd (SpecFloat.shr_m mrs / 2 ^ (n - 1))).
Proof.
  intros Hm. destruct n as [|p|p].
  - left. split; [lia|reflexivity].
  - right. split; [lia|]. split; [reflexivity|].
    unfold SpecFloat.shr. cbn [fst snd]. rewrite iter_pos_nat.
    destruct (Pos2Nat.is_succ p) as [k Hk]. rewrite Hk.
    destruct (shr_iter_spec k mrs Hm) as [H1 H2].
    rewrite H1, H2.
    assert (Hp : Z.pos p = Z.of_nat (S k)) by lia.
    rewrite Hp. split; [reflexivity|].
    do 3 f_equal. lia.
  - left. split; [lia|reflexivity].
Qed.

(** The part kept by a shift is below the number shifted; when the first
    bit shifted out is set, so is the part kept plus one half. *)
Lemma shift_below (m n e : Z) :
  (0 <= m)%Z -> (0 <= n)%Z ->
  IZR (m / 2 ^ n) * powerRZ 2 (e + n) <= IZR m * powerRZ 2 e.
Proof.
  intros Hm Hn.
  rewrite pow2_add, (pow2_IZR n) by exact Hn.
  assert (H2 : (0 < 2 ^ n)%Z) by (apply Z.pow_pos_nonneg; lia).
  pose proof (Z.mul_div_le m (2 ^ n) H2) as Hle.
  apply IZR_le in Hle. rewrite mult_IZR in Hle.
  pose proof (pow2_pos e). nra.
Qed.

Lemma shift_round_bit (m n e : Z) :
  (0 <= m)%Z -> (0 < n)%Z ->
  Z.odd (m / 2 ^ (n - 1)) = true ->
  (IZR (m / 2 ^ n) + / 2) * powerRZ 2 (e + n) <= IZR m * powerRZ 2 e.
Proof.
  intros Hm Hn Hodd.
  set (a := (m / 2 ^ (n - 1))%Z) in *.
  assert (H2 : (0 < 2 ^ (n - 1))%Z) by (apply Z.pow_pos_nonneg; lia).
  assert (Hdiv : (m / 2 ^ n = a / 2)%Z).
  { unfold a. rewrite Z.div_div by lia. f_equal.
    replace n with (Z.succ (n - 1)) at 1 by lia.
    rewrite Z.pow_succ_r by lia. lia. }
  assert (Ha : (a = 2 * (a / 2) + 1)%Z).
  { rewrite (Z.div_mod a 2) at 1 by lia.
    rewrite Zmod_odd, Hodd. reflexivity. }
  pose proof (Z.mul_div_le m (2 ^ (n - 1)) H2) as Hle. fold a in Hle.
  rewrite Hdiv.
  replace (e + n)%Z with (e + (1 + (n - 1)))%Z by lia.
  rewrite !pow2_add, (pow2_IZR (n - 1)) by lia.
  replace (powerRZ 2 1) with 2 by (simpl; lra).
  apply IZR_le in Hle. rewrite mult_IZR in Hle.
  assert (HaR : IZR a = 2 * IZR (a / 2) + 1).
  { rewrite Ha at 1. rewrite plus_IZR, mult_IZR. reflexivity. }
  pose proof (pow2_pos e).
  assert (0 < IZR (2 ^ (n - 1))) by (apply IZR_lt; lia).
  nra.
Qed.

(** ** Rounding to nearest *)

Lemma round_nearest_even_cases (mrs : SpecFloat.shr_record) :
  let mx := SpecFloat.shr_m mrs in
  let m' := SpecFloat.round_nearest_even mx (SpecFloat.loc_of_shr_record mrs) in
  m' = mx \/ (m' = (mx + 1)%Z /\ SpecFloat.shr_r mrs = true).
Proof.
  destruct mrs as [m [|] [|]]; simpl; try (left; reflexivity).
  - right. split; reflexivity.
  - destruct (Z.even m); [left; reflexivity|right; split; reflexivity].
Qed.

Lemma shr_record_of_loc_m (m : Z) (l : SpecFloat.location) :
  SpecFloat.shr_m (SpecFloat.shr_record_of_loc m l) = m.
Proof. destruct l as [|[| |]]; reflexivity. Qed.

(** The round bit of a remainder [k] of a division by [nb] is set only when
    the remainder is at least half the divisor. *)
Lemma new_location_round_bit (q nb k : Z) :
  SpecFloat.shr_r (SpecFloat.shr_record_of_loc q (SpecFloat.new_location nb k))
    = true ->
  (nb <= 2 * k)%Z.
Proof.
  unfold SpecFloat.new_location, SpecFloat.new_location_even,
    SpecFloat.new_location_odd.
  destruct (Z.even nb); destruct (k =? 0)%Z; simpl; try discriminate.
  - destruct (Z.compare_spec (2 * k) nb); simpl; try discriminate; lia.
  - destruct (Z.compare_spec (2 * k + 1) nb); simpl; try discriminate; lia.
Qed.

(** One rounding step of [binary_round_aux]: shifting [m * 2^e] to the
    exponent [e + n] and rounding to nearest stays within half a unit of the
    new exponent above any [rho] that [m * 2^e] approximates from below. *)
Lemma round_after_shift (m : Z) (l : SpecFloat.location) (e n : Z) (rho : R) :
  (0 <= m)%Z ->
  IZR m * powerRZ 2 e <= rho ->
  (SpecFloat.shr_r (SpecFloat.shr_record_of_loc m l) = true ->
   (IZR m + / 2) * powerRZ 2 e <= rho) ->
  let res := SpecFloat.shr (SpecFloat.shr_record_of_loc m l) e n in
  let m_r := SpecFloat.round_nearest_even (SpecFloat.shr_m res.1)
               (SpecFloat.loc_of_shr_record res.1) in
  (0 <= m_r)%Z /\
  IZR m_r * powerRZ 2 res.2 <= rho + powerRZ 2 res.2 / 2 /\
  (res.2 = e \/ res.2 = (e + n)%Z).
Proof.
  intros Hm Hlow Hbit res m_r.
  pose proof (shr_record_of_loc_m m l) as Hrec.
  assert (Hm0 : (0 <= SpecFloat.shr_m (SpecFloat.shr_record_of_loc m l))%Z)
    by (rewrite Hrec; exact Hm).
  destruct (shr_spec (SpecFloat.shr_record_of_loc m l) e n Hm0)
    as [[Hn Hres]|(Hn & HE & Hms & Hr)]; fold res in Hres || fold res in HE, Hms, Hr.
  - destruct (round_nearest_even_cases res.1) as [Heq|[Heq Hround]];
      fold m_r in Heq; rewrite Hres in *; cbn [fst snd] in *;
      rewrite Hrec in Heq; pose proof (pow2_pos e).
    + rewrite Heq. split; [exact Hm|]. split; [lra|left; reflexivity].
    + rewrite Heq, plus_IZR. split; [lia|]. split; [|left; reflexivity].
      specialize (Hbit Hround). lra.
  - rewrite Hrec in Hms, Hr.
    pose proof (shift_below m n e Hm ltac:(lia)) as Hbelow.
    assert (Hms0 : (0 <= m / 2 ^ n)%Z).
    { apply Z.div_pos; [exact Hm|]. apply Z.pow_pos_nonneg; lia. }
    pose proof (pow2_pos (e + n)).
    destruct (round_nearest_even_cases res.1) as [Heq|[Heq Hround]];
      fold m_r in Heq; rewrite HE, Heq, Hms.
    + split; [exact Hms0|]. split; [lra|right; reflexivity].
    + rewrite plus_IZR. split; [lia|]. split; [|right; reflexivity].
      rewrite Hr in Hround.
      pose proof (shift_round_bit m n e Hm Hn Hround). lra.
Qed.

Lemma fexp_eq (z : Z) : SpecFloat.fexp prec emax z = Z.max (z - 53) (-1074).
Proof. reflexivity. Qed.

Lemma below_pow2 (m e : Z) :
  (0 <= m)%Z -> (e <= 0)%Z -> IZR m * powerRZ 2 e < 1 -> (m < 2 ^ (- e))%Z.
Proof.
  intros Hm He Hlt. apply lt_IZR. rewrite <- pow2_IZR by lia.
  replace (- e)%Z with (0 - e)%Z by lia.
  assert (Hone : powerRZ 2 (e + (0 - e)) = 1) by (replace (e + (0 - e))%Z with 0%Z by lia; reflexivity).
  rewrite pow2_add in Hone.
  pose proof (pow2_pos e). pose proof (pow2_pos (0 - e)). nra.
Qed.

Lemma fexp_below_one (m E : Z) :
  (0 <= m)%Z -> (E <= -53)%Z -> IZR m * powerRZ 2 E < 1 ->
  (SpecFloat.fexp prec emax (SpecFloat.Zdigits2 m + E) <= -53)%Z.
Proof.
  intros Hm HE Hlt. rewrite fexp_eq.
  pose proof (below_pow2 m E Hm ltac:(lia) Hlt) as Hb.
  pose proof (Zdigits2_le m (- E) (conj Hm Hb) ltac:(lia)). lia.
Qed.

(** What [binary_round_aux] returns for a positive quantity that stays at
    least one unit in the last place below 1. *)
Lemma binary_round_aux_below_one (q : Z) (l : SpecFloat.location) (e' : Z)
    (rho : R) :
  (0 <= q)%Z -> (e' <= -53)%Z ->
  IZR q * powerRZ 2 e' <= rho ->
  (SpecFloat.shr_r (SpecFloat.shr_record_of_loc q l) = true ->
   (IZR q + / 2) * powerRZ 2 e' <= rho) ->
  rho <= 1 - powerRZ 2 (-53) ->
  let res := SpecFloat.binary_round_aux prec emax false q e' l in
  isfinite res = true /\ 0 <= float_val res < 1.
Proof.
  intros Hq He' Hlow Hbit Hrho.
  pose proof (pow2_pos (-53)) as Hh. pose proof (pow2_pos e') as He'pos.
  assert (Hq1 : IZR q * powerRZ 2 e' < 1) by lra.
  unfold SpecFloat.binary_round_aux, SpecFloat.shr_fexp.
  set (n := (SpecFloat.fexp prec emax (SpecFloat.Zdigits2 q + e') - e')%Z).
  pose proof (round_after_shift q l e' n rho Hq Hlow Hbit) as Hstep.
  cbv zeta in Hstep.
  destruct (SpecFloat.shr (SpecFloat.shr_record_of_loc q l) e' n)
    as [mrs1 E] eqn:Hshr1.
  cbn [fst snd] in Hstep.
  set (m_r := SpecFloat.round_nearest_even (SpecFloat.shr_m mrs1)
                (SpecFloat.loc_of_shr_record mrs1)) in *.
  destruct Hstep as (Hmr & HV & HE).
  assert (HE53 : (E <= -53)%Z).
  { destruct HE as [->| ->]; [exact He'|].
    unfold n. pose proof (fexp_below_one q e' Hq He' Hq1). lia. }
  pose proof (pow2_le E (-53) HE53) as HEle. pose proof (pow2_pos E) as HEpos.
  assert (HV1 : IZR m_r * powerRZ 2 E < 1) by lra.
  set (n2 := (SpecFloat.fexp prec emax (SpecFloat.Zdigits2 m_r + E) - E)%Z).
  assert (Hrec0 : (0 <= SpecFloat.shr_m
                          (SpecFloat.shr_record_of_loc m_r SpecFloat.loc_Exact))%Z)
    by exact Hmr.
  pose proof (shr_spec (SpecFloat.shr_record_of_loc m_r SpecFloat.loc_Exact)
                E n2 Hrec0) as Hsecond.
  destruct (SpecFloat.shr (SpecFloat.shr_record_of_loc m_r SpecFloat.loc_Exact)
              E n2) as [mrs2 e2] eqn:Hshr2.
  cbn [fst snd] in Hsecond.
  assert (Hfinal : (0 <= SpecFloat.shr_m mrs2)%Z /\
                   IZR (SpecFloat.shr_m mrs2) * powerRZ 2 e2 < 1 /\
                   (e2 <= 971)%Z).
  { destruct Hsecond as [[Hn2 Heq]|(Hn2 & He2 & Hm2 & _)].
    - injection Heq as -> ->. cbn [SpecFloat.shr_m SpecFloat.shr_record_of_loc].
      split; [exact Hmr|]. split; [exact HV1|lia].
    - cbn [SpecFloat.shr_m SpecFloat.shr_record_of_loc] in Hm2.
      rewrite Hm2, He2.
      split; [apply Z.div_pos; [exact Hmr|apply Z.pow_pos_nonneg; lia]|].
      split.
      + pose proof (shift_below m_r n2 E Hmr ltac:(lia)). lra.
      + unfold n2. pose proof (fexp_below_one m_r E Hmr HE53 HV1). lia. }
  destruct Hfinal as (Hm2 & Hval & He2).
  destruct (SpecFloat.shr_m mrs2) as [|p|p] eqn:Hp; [| |lia].
  - simpl. split; [reflexivity|lra].
  - replace (e2 <=? emax - prec)%Z with true
      by (symmetry; apply Z.leb_le; unfold emax, prec; lia).
    simpl. split; [reflexivity|].
    split; [|exact Hval].
    apply Rmult_le_pos; [apply IZR_le; lia|apply Rlt_le, pow2_pos].
Qed.

(** ** Floats in [binary64] *)

Lemma bounded_inv (m : positive) (e : Z) :
  SpecFloat.bounded prec emax m e = true ->
  (Z.pos m < 2 ^ 53)%Z /\ (-1074 <= e <= 971)%Z /\
  (e = (-1074)%Z \/ (2 ^ 52 <= Z.pos m)%Z).
Proof.
  unfold SpecFloat.bounded, SpecFloat.canonical_mantissa.
  rewrite andb_true_iff, Z.eqb_eq, Z.leb_le, fexp_eq.
  intros [Hc He].
  destruct (digits2_pos_bounds m) as [Hlo Hhi].
  set (d := Z.pos (SpecFloat.digits2_pos m)) in *.
  assert (Hd : (d <= 53)%Z) by lia.
  split.
  { eapply Z.lt_le_trans; [exact Hhi|]. apply Z.pow_le_mono_r; lia. }
  split.
  { unfold emax, prec in He. lia. }
  destruct (Z.eq_dec e (-1074)%Z) as [He0|He0]; [left; exact He0|right].
  assert (Hd53 : d = 53%Z) by lia.
  rewrite Hd53 in Hlo. exact Hlo.
Qed.

Lemma pow2_53 : powerRZ 2 53 * powerRZ 2 (-53) = 1.
Proof. rewrite <- pow2_add. reflexivity. Qed.

(** Two floats, the first below the second, are at least one unit in the
    last place of the second apart. *)
Lemma floats_apart (m1 m2 : positive) (e1 e2 : Z) :
  SpecFloat.bounded prec emax m1 e1 = true ->
  SpecFloat.bounded prec emax m2 e2 = true ->
  IZR (Z.pos m1) * powerRZ 2 e1 < IZR (Z.pos m2) * powerRZ 2 e2 ->
  IZR (Z.pos m1) * powerRZ 2 e1 <=
    IZR (Z.pos m2) * powerRZ 2 e2 * (1 - powerRZ 2 (-53)).
Proof.
  intros Hb1 Hb2 Hlt.
  destruct (bounded_inv m1 e1 Hb1) as (Hm1 & He1 & _).
  destruct (bounded_inv m2 e2 Hb2) as (Hm2 & He2 & Hn2).
  pose proof pow2_53 as H53. pose proof (pow2_pos (-53)) as Hh.
  pose proof (pow2_pos 53) as HP.
  rewrite (pow2_IZR 53) in H53, HP by lia.
  apply IZR_lt in Hm1, Hm2.
  assert (Hp1 : 1 <= IZR (Z.pos m1)) by (apply IZR_le; lia).
  assert (Hp2 : 1 <= IZR (Z.pos m2)) by (apply IZR_le; lia).
  destruct (Z_le_gt_dec e2 e1) as [Hle|Hgt].
  - set (k := (e1 - e2)%Z).
    assert (Hk : (0 <= k)%Z) by (unfold k; lia).
    replace e1 with (e2 + k)%Z in * by (unfold k; lia).
    rewrite pow2_add, (pow2_IZR k) in * by exact Hk.
    pose proof (pow2_pos e2) as Hpe.
    assert (HZ : (Z.pos m1 * 2 ^ k < Z.pos m2)%Z).
    { apply lt_IZR. rewrite mult_IZR. nra. }
    assert (HZ' : (Z.pos m1 * 2 ^ k + 1 <= Z.pos m2)%Z) by lia.
    apply IZR_le in HZ'. rewrite plus_IZR, mult_IZR in HZ'.
    nra.
  - set (k := (e2 - e1)%Z).
    assert (Hk : (1 <= k)%Z) by (unfold k; lia).
    replace e2 with (e1 + k)%Z in * by (unfold k; lia).
    rewrite pow2_add, (pow2_IZR k) in * by lia.
    pose proof (pow2_pos e1) as Hpe.
    assert (H2k : 2 <= IZR (2 ^ k)).
    { apply IZR_le. change 2%Z with (2 ^ 1)%Z at 1.
      apply Z.pow_le_mono_r; lia. }
    destruct Hn2 as [Hn2|Hn2]; [lia|].
    apply IZR_le in Hn2.
    assert (H5253 : IZR (2 ^ 53) = 2 * IZR (2 ^ 52)).
    { rewrite <- mult_IZR. reflexivity. }
    assert (Hm1' : IZR (Z.pos m1) <= IZR (2 ^ 53) - 1).
    { rewrite <- minus_IZR. apply IZR_le. apply lt_IZR in Hm1. lia. }
    assert (Hh1 : 0 < 1 - powerRZ 2 (-53)) by nra.
    assert (HBK : IZR (2 ^ 53) <= IZR (Z.pos m2) * IZR (2 ^ k)) by nra.
    assert (Hgoal : IZR (Z.pos m1) <=
                    IZR (Z.pos m2) * IZR (2 ^ k) * (1 - powerRZ 2 (-53))).
    { apply Rle_trans with (IZR (2 ^ 53) * (1 - powerRZ 2 (-53))); [lra|].
      apply Rmult_le_compat_r; lra. }
    replace (IZR (Z.pos m2) * (powerRZ 2 e1 * IZR (2 ^ k)) *
             (1 - powerRZ 2 (-53)))
      with (IZR (Z.pos m2) * IZR (2 ^ k) * (1 - powerRZ 2 (-53)) *
            powerRZ 2 e1) by ring.
    apply Rmult_le_compat_r; lra.
Qed.

Lemma magnitude_le (m1 m2 : positive) (e1 e2 : Z) :
  IZR (Z.pos m1) * powerRZ 2 e1 < IZR (Z.pos m2) * powerRZ 2 e2 ->
  (Z.pos (SpecFloat.digits2_pos m1) + e1 <=
   Z.pos (SpecFloat.digits2_pos m2) + e2)%Z.
Proof.
  intros Hlt.
  destruct (digits2_pos_bounds m1) as [Hlo1 _].
  destruct (digits2_pos_bounds m2) as [_ Hhi2].
  set (d1 := Z.pos (SpecFloat.digits2_pos m1)) in *.
  set (d2 := Z.pos (SpecFloat.digits2_pos m2)) in *.
  assert (Hd1 : (1 <= d1)%Z) by (unfold d1; lia).
  assert (Hd2 : (1 <= d2)%Z) by (unfold d2; lia).
  apply IZR_le in Hlo1. apply IZR_lt in Hhi2.
  rewrite <- pow2_IZR in Hlo1, Hhi2 by lia.
  pose proof (pow2_pos e1). pose proof (pow2_pos e2).
  assert (Hpw : powerRZ 2 (d1 - 1 + e1) < powerRZ 2 (d2 + e2)).
  { rewrite !pow2_add. nra. }
  apply pow2_lt_inv in Hpw. lia.
Qed.


Lemma float_val_pos_inv (x : float) :
  0 < float_val x -> exists m e, x = SpecFloat.S754_finite false m e.
Proof.
  destruct x as [s|s| |s m e]; simpl; try lra.
  destruct s; [|intros _; exists m, e; reflexivity].
  intros H. pose proof (pow2_pos e).
  assert (0 < IZR (Z.pos m)) by (apply IZR_lt; lia). nra.
Qed.


(** A float divided by a larger one gives a float below 1: rounding to
    nearest cannot reach 1, since the exact quotient is at most
    1 - 2^-53, itself a float. *)
Lemma float_quotient_below_one (x y : float) :
  binary64 x -> binary64 y ->
  0 < float_val x < float_val y ->
  isfinite (float_quotient x y) = true /\
  0 <= float_val (float_quotient x y) < 1.
Proof.
  intros Hbx Hby [Hx Hxy]. unfold float_quotient.
  assert (Hy : 0 < float_val y) by lra.
  destruct (float_val_pos_inv x Hx) as (m1 & e1 & ->).
  destruct (float_val_pos_inv y Hy) as (m2 & e2 & ->).
  unfold binary64 in Hbx, Hby. cbn [SpecFloat.valid_binary] in Hbx, Hby.
  cbn [float_val] in Hx, Hy, Hxy.
  pose proof (floats_apart m1 m2 e1 e2 Hbx Hby Hxy) as Hapart.
  pose proof (magnitude_le m1 m2 e1 e2 Hxy) as Hmag.
  set (X := IZR (Z.pos m1) * powerRZ 2 e1) in *.
  set (Y := IZR (Z.pos m2) * powerRZ 2 e2) in *.
  unfold SpecFloat.SFdiv, SpecFloat.SFdiv_core_binary.
  cbn [SpecFloat.Zdigits2 xorb].
  set (e' := Z.min _ _).
  assert (He' : (e' <= -53)%Z).
  { unfold e'. rewrite fexp_eq. lia. }
  assert (He'le : (e' <= e1 - e2)%Z) by (unfold e'; lia).
  set (s := (e1 - e2 - e')%Z).
  assert (Hs : (0 <= s)%Z) by (unfold s; lia).
  set (m' := match s with
             | 0%Z => Z.pos m1
             | Z.pos _ => Z.shiftl (Z.pos m1) s
             | Z.neg _ => 0%Z
             end).
  assert (Hm' : m' = (Z.pos m1 * 2 ^ s)%Z).
  { unfold m'. destruct s as [|p|p] eqn:Hsp; [lia| |lia].
    apply Z.shiftl_mul_pow2. lia. }
  pose proof (Z_div_mod m' (Z.pos m2) ltac:(lia)) as Hdiv.
  destruct (Z.div_eucl m' (Z.pos m2)) as [q r].
  destruct Hdiv as [Hqr Hr].
  assert (Hq : (0 <= q)%Z).
  { assert (0 <= m')%Z by (rewrite Hm'; apply Z.mul_nonneg_nonneg;
                            [lia|apply Z.pow_nonneg; lia]).
    nia. }
  (* the exact quotient *)
  set (rho := X / Y).
  assert (HY : 0 < Y) by exact Hy.
  assert (Hscale : IZR m' * powerRZ 2 e' * Y = X * IZR (Z.pos m2)).
  { rewrite Hm', mult_IZR, <- pow2_IZR by exact Hs. unfold X, Y.
    assert (He1 : powerRZ 2 e1 = powerRZ 2 s * powerRZ 2 e' * powerRZ 2 e2).
    { rewrite <- !pow2_add. f_equal. unfold s. lia. }
    rewrite He1. ring. }
  assert (Hm2pos : 0 < IZR (Z.pos m2)) by (apply IZR_lt; lia).
  assert (Hrho : forall t : R,
             t * IZR (Z.pos m2) <= IZR m' -> t * powerRZ 2 e' <= rho).
  { intros t Ht. unfold rho.
    apply Rmult_le_reg_r with Y; [exact HY|].
    unfold Rdiv. rewrite (Rmult_assoc X), Rinv_l, Rmult_1_r by lra.
    pose proof (pow2_pos e') as Hpe. pose proof (pow2_pos e2) as Hpe2.
    apply Rmult_le_reg_r with (IZR (Z.pos m2)); [exact Hm2pos|].
    rewrite <- Hscale.
    replace (t * powerRZ 2 e' * Y * IZR (Z.pos m2))
      with (t * IZR (Z.pos m2) * (powerRZ 2 e' * Y)) by ring.
    replace (IZR m' * powerRZ 2 e' * Y)
      with (IZR m' * (powerRZ 2 e' * Y)) by ring.
    apply Rmult_le_compat_r; [nra|exact Ht]. }
  apply (binary_round_aux_below_one q _ e' rho Hq He').
  - apply Hrho. rewrite <- mult_IZR. apply IZR_le. nia.
  - intros Hbit. apply new_location_round_bit in Hbit.
    apply Hrho.
    apply IZR_le in Hbit. rewrite mult_IZR in Hbit.
    assert (HqrR : IZR m' = IZR (Z.pos m2) * IZR q + IZR r).
    { rewrite Hqr, plus_IZR, mult_IZR. reflexivity. }
    lra.
  - unfold rho. apply Rmult_le_reg_r with Y; [exact HY|].
    unfold Rdiv. rewrite (Rmult_assoc X), Rinv_l, Rmult_1_r by lra.
    lra.
Qed.

(** ** Float literals and [simulate] *)

Lemma float_val_finite_pos (m : positive) (e : Z) :
  0 < float_val (SpecFloat.S754_finite false m e).
Proof.
  simpl. apply Rmult_lt_0_compat; [apply IZR_lt; lia|apply pow2_pos].
Qed.

Lemma float_val_neg_exp (m k : positive) :
  float_val (SpecFloat.S754_finite false m (Z.neg k)) =
  IZR (Z.pos m) / IZR (2 ^ Z.pos k).
Proof.
  cbn [float_val]. change (Z.neg k) with (- Z.pos k)%Z.
  rewrite powerRZ_neg', pow2_IZR by lia. reflexivity.
Qed.


Lemma float_literal_0_1 :
  float_literal 1 10 = SpecFloat.S754_finite false 7205759403792794 (-56).
Proof. vm_compute. reflexivity. Qed.


Lemma float_literal_0_05 :
  float_literal 5 100 = SpecFloat.S754_finite false 7205759403792794 (-57).
Proof. vm_compute. reflexivity. Qed.


(** [0.3 / 0.1] is [2.9999999999999996]. *)
Lemma float_quotient_0_3_by_0_1 :
  float_quotient (float_literal 3 10) (float_literal 1 10) =
  SpecFloat.S754_finite false 6755399441055743 (-51).
Proof. vm_compute. reflexivity. Qed.

Lemma float_quotient_0_05_by_0_1 :
  float_quotient (float_literal 5 100) (float_literal 1 10) =
  SpecFloat.S754_finite false 4503599627370496 (-53).
Proof. vm_compute. reflexivity. Qed.


Lemma floor_0_3_by_0_1 :
  Zfloor (float_val (float_quotient (float_literal 3 10) (float_literal 1 10)))
  = 2%Z.
Proof.
  rewrite float_quotient_0_3_by_0_1, float_val_neg_exp.
  change (2 ^ 51)%Z with 2251799813685248%Z.
  apply Zfloor_eq. simpl. lra.
Qed.

Lemma py_int_nonneg x : 0 <= x -> py_int x = Zfloor x.
Proof. intros Hx. unfold py_int. apply decide_True. exact Hx. Qed.

Lemma steps_0_3_by_0_1 :
  Z.to_nat
    (py_int
       (float_val (float_quotient (float_literal 3 10) (float_literal 1 10))))
  = 2%nat.
Proof.
  rewrite py_int_nonneg, floor_0_3_by_0_1; [reflexivity|].
  rewrite float_quotient_0_3_by_0_1. apply Rlt_le, float_val_finite_pos.
Qed.

(** The number of steps of [simulate] for a positive step size. *)
Lemma simulate_steps σ e (duration dt : float) :
  0 < float_val dt ->
  isfinite (float_quotient duration dt) = true ->
  simulate σ e duration dt =
    e' ← step_loop
           (Z.to_nat (py_int (float_val (float_quotient duration dt))))
           σ e (float_val dt);
    Some (e', history e').
Proof.
  intros Hdt Hfin.
  destruct (float_val_pos_inv dt Hdt) as (m & ex & ->).
  unfold simulate, float_truediv, float_int. cbn [mbind option_bind].
  rewrite Hfin. reflexivity.
Qed.

(** ** Loops of steps *)

Lemma step_succeeds σ e dt :
  no_zero_division σ e -> exists e', step σ e dt = Some e'.
Proof.
  intros Hwf.
  destruct (calculate_forces_defined _ _ (no_zero_division_denominator _ _ Hwf))
    as (fL & fJ & fP & fW & Hf).
  eexists. apply step_with_forces. exact Hf.
Qed.

Lemma step_keeps_no_zero_division σ e dt e' :
  no_zero_division σ e -> step σ e dt = Some e' -> no_zero_division σ e'.
Proof.
  intros [HK _] Hstep.
  destruct (step_preserves_params _ _ _ _ Hstep) as [Hp _].
  destruct (step_state_in_bounds _ _ _ _ Hstep) as [[HL _] _].
  split; [rewrite Hp; exact HK|exact HL].
Qed.

(** [n] steps of a positive size append [n] entries, which are ordered and
    all later than the engine they start from. *)
Lemma step_loop_appends n : forall σ e dt,
  0 < dt -> no_zero_division σ e ->
  exists e' new,
    step_loop n σ e dt = Some e' /\
    history e' = history e ++ new /\
    length new = n /\
    StronglySorted entry_before new /\
    Forall (fun h => (tick_count e < h_tick h)%nat /\
                     time_elapsed e < h_time h) new /\
    no_zero_division σ e' /\
    (reachable e -> reachable e').
Proof.
  induction n as [|n IH]; intros σ e dt Hdt Hwf.
  - exists e, []. simpl. rewrite app_nil_r.
    split; [reflexivity|]. split; [reflexivity|]. split; [reflexivity|].
    split; [constructor|]. split; [constructor|]. split; [exact Hwf|auto].
  - destruct (step_succeeds σ e dt Hwf) as [e1 Hstep].
    destruct (step_history _ _ _ _ Hstep)
      as (h1 & Hh1 & Htime1 & Htick1 & _ & Htime & Htick).
    pose proof (step_keeps_no_zero_division _ _ _ _ Hwf Hstep) as Hwf1.
    destruct (IH σ e1 dt Hdt Hwf1)
      as (e' & new & Hloop & Hhist & Hlen & Hsorted & Hlater & Hwf' & Hreach).
    exists e', (h1 :: new). simpl. rewrite Hstep. simpl.
    split; [exact Hloop|].
    split; [rewrite Hhist, Hh1, <- app_assoc; reflexivity|].
    split; [rewrite Hlen; reflexivity|].
    split.
    { constructor; [exact Hsorted|].
      eapply Forall_impl; [exact Hlater|].
      intros h [Ht Hti]. unfold entry_before. split; [lia|lra]. }
    split.
    { constructor.
      - split; [lia|lra].
      - eapply Forall_impl; [exact Hlater|].
        intros h [Ht Hti]. split; [lia|lra]. }
    split; [exact Hwf'|].
    intros Hr. apply Hreach. eapply reachable_step; eassumption.
Qed.

Lemma reachable_history_complete e : reachable e -> history_complete e.
Proof.
  induction 1 as [σ l j p w src conf phi tc ps|σ e dt e' Hr [IHlen IHidx] Hstep].
  - destruct ps; simpl; (split; [reflexivity|]); intros i h Hi;
      destruct i; discriminate Hi.
  - destruct (step_history _ _ _ _ Hstep)
      as (h1 & Hh1 & _ & Htick1 & _ & _ & Htick).
    split.
    + rewrite Hh1, length_app. simpl. lia.
    + intros i h Hi. rewrite Hh1 in Hi.
      apply lookup_app_Some in Hi as [Hi|[Hge Hi]].
      * apply IHidx. exact Hi.
      * apply list_lookup_singleton_Some in Hi as [Hz <-].
        rewrite Htick1. lia.
Qed.


(** ** Determinism *)

Lemma step_observables σ1 σ2 e1 e2 dt :
  observables e1 = observables e2 ->
  σ1 !!! params e1 = σ2 !!! params e2 ->
  match step σ1 e1 dt, step σ2 e2 dt with
  | Some e1', Some e2' =>
      observables e1' = observables e2' /\
      σ1 !!! params e1' = σ2 !!! params e2'
  | None, None => True
  | _, _ => False
  end.
Proof.
  destruct e1 as [st1 tau1 r1 h1 t1 n1 m1], e2 as [st2 tau2 r2 h2 t2 n2 m2].
  unfold observables. simpl. intros [= -> -> -> -> ->] Hp.
  unfold step. simpl. rewrite Hp.
  destruct (calculate_forces (σ2 !!! r2) st2) as [forces|]; simpl; [|exact I].
  split; [reflexivity|exact Hp].
Qed.

Lemma run_observables dts : forall σ1 σ2 e1 e2,
  observables e1 = observables e2 ->
  σ1 !!! params e1 = σ2 !!! params e2 ->
  observables <$> run σ1 e1 dts = observables <$> run σ2 e2 dts.
Proof.
  induction dts as [|dt dts IH]; intros σ1 σ2 e1 e2 Hobs Hp; simpl.
  - rewrite Hobs. reflexivity.
  - pose proof (step_observables σ1 σ2 e1 e2 dt Hobs Hp) as Hstep.
    destruct (step σ1 e1 dt) as [e1'|], (step σ2 e2 dt) as [e2'|];
      simpl; try contradiction; [|reflexivity].
    destruct Hstep as [Hobs' Hp']. apply IH; assumption.
Qed.

(** ** The convergence flag *)

Lemma step_convergence σ e dt e' :
  step σ e dt = Some e' ->
  exists efficiency,
    efficiency_trend (model e') = efficiency_trend (model e) ++ [efficiency] /\
    efficiency = harmony_static (state e') * P (state e') /\
    convergence (model e') =
      if decide (10 < length (efficiency_trend (model e')))%nat then
        bool_decide (np_var (last_n 10 (efficiency_trend (model e'))) < 0.0001)
      else convergence (model e).
Proof.
  unfold step. intros Hs.
  destruct (calculate_forces _ _) as [forces|]; [|discriminate].
  simpl in Hs. injection Hs as <-.
  eexists. split; [reflexivity|]. split; reflexivity.
Qed.

(** An engine with at most 10 recorded efficiencies has never computed the
    flag, which still has its initial value. *)
Lemma reachable_flag_untouched e :
  reachable e ->
  (length (efficiency_trend (model e)) <= 10)%nat ->
  convergence (model e) = false.
Proof.
  induction 1 as [σ l j p w src conf phi tc ps|σ e dt e' Hr IH Hstep];
    intros Hlen.
  - destruct ps; reflexivity.
  - destruct (step_convergence _ _ _ _ Hstep) as (eff & Htrend & _ & Hflag).
    rewrite Hflag. rewrite decide_False by lia.
    apply IH. rewrite Htrend, length_app in Hlen. simpl in Hlen. lia.
Qed.

(** ** The all-zero state is a fixed point with efficiency 0 *)

Lemma origin_forces p :
  (K_JL p : R) <> 0 -> calculate_forces p origin_state = Some [0; 0; 0; 0].
Proof.
  intros HK.
  destruct origin_state_fields as (HL & HJ & HP & HW).
  assert (Hzero : forall a b c d : R,
            a = 0 -> b = 0 -> c = 0 -> d = 0 ->
            Some [a; b; c; d] = Some [0; 0; 0; 0]).
  { intros a b c d -> -> -> ->. reflexivity. }
  unfold calculate_forces, force_equations, to_tuple. cbv beta iota zeta.
  rewrite HL, HJ, HP, HW.
  rewrite decide_False by lra.
  apply Hzero; unfold Rdiv; ring.
Qed.

Lemma clipped_zero inertia : clipped 0 inertia = 0.
Proof.
  unfold clipped, max_change.
  replace (0 / inertia) with 0 by (unfold Rdiv; ring).
  apply np_clip_id. lra.
Qed.

Lemma origin_efficiency : harmony_static origin_state * P origin_state = 0.
Proof.
  destruct origin_state_fields as (_ & _ & HP & _). rewrite HP. ring.
Qed.

Lemma origin_step σ e dt :
  state e = origin_state ->
  (K_JL (σ !!! params e) : R) <> 0 ->
  exists e',
    step σ e dt = Some e' /\
    state e' = origin_state /\
    efficiency_trend (model e') = efficiency_trend (model e) ++ [0].
Proof.
  intros Hst HK.
  destruct origin_state_fields as (HL & HJ & HP & HW).
  pose proof (origin_forces _ HK) as Hf. rewrite <- Hst in Hf.
  pose proof (step_with_forces σ e dt _ _ _ _ Hf) as Hstep.
  rewrite !clipped_zero in Hstep.
  rewrite Hst, HL, HJ, HP, HW in Hstep.
  replace (LJPWCoordinates_of (0 + 0 * dt) (0 + 0 * dt) (0 + 0 * dt)
             (0 + 0 * dt)) with origin_state in Hstep
    by (unfold origin_state; f_equal; ring).
  destruct (step_convergence _ _ _ _ Hstep) as (eff & Htrend & Heff & _).
  eexists. split; [exact Hstep|].
  split; [reflexivity|].
  rewrite Htrend, Heff. cbn [state _record_step].
  rewrite origin_efficiency. reflexivity.
Qed.

Lemma origin_step_loop n : forall σ e dt,
  state e = origin_state ->
  (K_JL (σ !!! params e) : R) <> 0 ->
  exists e',
    step_loop n σ e dt = Some e' /\
    state e' = origin_state /\
    efficiency_trend (model e') = efficiency_trend (model e) ++ replicate n 0.
Proof.
  induction n as [|n IH]; intros σ e dt Hst HK.
  - exists e. simpl. rewrite app_nil_r. auto.
  - destruct (origin_step σ e dt Hst HK) as (e1 & Hstep & Hst1 & Htrend1).
    destruct (step_preserves_params _ _ _ _ Hstep) as [Hp _].
    destruct (IH σ e1 dt Hst1) as (e' & Hloop & Hst' & Htrend');
      [rewrite Hp; exact HK|].
    exists e'. simpl. rewrite Hstep. simpl.
    split; [exact Hloop|]. split; [exact Hst'|].
    rewrite Htrend', Htrend1, <- app_assoc. reflexivity.
Qed.

Lemma np_sum_zeros n : np_sum (replicate n 0) = 0.
Proof. induction n as [|n IH]; simpl; [reflexivity|]. rewrite IH. lra. Qed.

Lemma np_var_zeros n : np_var (replicate n 0) = 0.
Proof.
  unfold np_var, np_mean. rewrite np_sum_zeros.
  replace (0 / INR (length (replicate n 0))) with 0 by (unfold Rdiv; ring).
  replace (map (fun x : R => (x - 0) * (x - 0)) (replicate n 0))
    with (replicate n 0).
  - rewrite np_sum_zeros. unfold Rdiv. ring.
  - induction n as [|n IH]; simpl; [reflexivity|].
    rewrite <- IH. f_equal. ring.
Qed.

Lemma py_max_zeros n : py_max (replicate (S n) 0) = Some 0.
Proof.
  simpl. f_equal.
  induction n as [|n IH]; simpl; [reflexivity|].
  rewrite decide_False by lra. exact IH.
Qed.

Lemma last_zeros n : last (replicate (S n) 0) = Some 0.
Proof.
  induction n as [|n IH]; [reflexivity|].
  change (replicate (S (S n)) 0) with (0 :: replicate (S n) 0).
  rewrite last_cons, IH. reflexivity.
Qed.

(** ** Parameter mutation, key by key *)

Lemma getattr_setattr p k v k' :
  getattr (setattr p k v) k' = if decide (k' = k) then v else getattr p k'.
Proof. destruct k'; reflexivity. Qed.

Lemma param_keys_complete k : k ∈ param_keys.
Proof. unfold param_keys. destruct k; set_solver. Qed.

Lemma param_keys_NoDup : NoDup param_keys.
Proof. apply (bool_decide_unpack _). vm_compute. reflexivity. Qed.

Lemma mutate_key_other rate p g k k' :
  k' <> k -> getattr (mutate_key rate (p, g) k).1 k' = getattr p k'.
Proof.
  intros Hne. unfold mutate_key.
  destruct (isinstance_float (getattr p k) && bool_decide (0 < getattr p k));
    simpl; [|reflexivity].
  rewrite getattr_setattr. destruct (decide (k' = k)); [contradiction|reflexivity].
Qed.

Lemma fold_mutate_other rate ks : forall p g k',
  k' ∉ ks ->
  getattr (fold_left (mutate_key rate) ks (p, g)).1 k' = getattr p k'.
Proof.
  induction ks as [|k ks IH]; intros p g k' Hnotin; cbn [fold_left];
    [reflexivity|].
  apply not_elem_of_cons in Hnotin as [Hne Hnotin].
  destruct (mutate_key rate (p, g) k) as [p1 g1] eqn:Hk.
  rewrite IH by assumption.
  change p1 with (p1, g1).1. rewrite <- Hk.
  apply mutate_key_other; assumption.
Qed.

(** The generator left by a prefix of the loop is the initial one, a number
    of samples further. *)
Lemma fold_mutate_random rate ks : forall p g,
  exists i : nat, forall n : nat,
    (fold_left (mutate_key rate) ks (p, g)).2 n = g (n + i)%nat.
Proof.
  induction ks as [|k ks IH]; intros p g; cbn [fold_left].
  - exists 0%nat. intros n. simpl. f_equal. lia.
  - unfold mutate_key at 2.
    destruct (isinstance_float (getattr p k) && bool_decide (0 < getattr p k));
      simpl.
    + destruct (IH (setattr p k
                      (PyFloat
                         (Rmax 0.01 (getattr p k +
                            scale_uniform (- rate) rate (g 0%nat) *
                            getattr p k))))
                   (fun n => g (S n))) as [i Hi].
      exists (S i). intros n. rewrite Hi. f_equal. lia.
    + apply IH.
Qed.

Lemma mutate_parameters_key_value p rate g k :
  exists i : nat,
    getattr (mutate_parameters p rate g).1 k =
      if isinstance_float (getattr p k) && bool_decide (0 < getattr p k) then
        PyFloat
          (Rmax 0.01
             (getattr p k + scale_uniform (- rate) rate (g i) * getattr p k))
      else getattr p k.
Proof.
  destruct (list_elem_of_split _ _ (param_keys_complete k))
    as (l1 & l2 & Hsplit).
  pose proof param_keys_NoDup as Hnd. rewrite Hsplit in Hnd.
  apply NoDup_app in Hnd as (_ & Hl1 & Hnd).
  apply NoDup_cons in Hnd as [Hl2 _].
  assert (Hk1 : k ∉ l1).
  { intros Hin. apply (Hl1 k Hin). left. }
  unfold mutate_parameters. rewrite Hsplit, fold_left_app. cbn [fold_left].
  destruct (fold_mutate_random rate l1 p g) as [i Hi].
  pose proof (fold_mutate_other rate l1 p g k Hk1) as Hsame.
  destruct (fold_left (mutate_key rate) l1 (p, g)) as [p1 g1].
  simpl in Hi, Hsame.
  exists i.
  unfold mutate_key at 2. rewrite Hsame.
  destruct (isinstance_float (getattr p k) && bool_decide (0 < getattr p k));
    simpl.
  - etrans; [apply fold_mutate_other; assumption|].
    rewrite getattr_setattr. rewrite decide_True by reflexivity.
    rewrite Hi. reflexivity.
  - etrans; [apply fold_mutate_other; assumption|]. exact Hsame.
Qed.

(** What [random_mutation] does to one attribute: a positive float gets the
    rule applied with one of the samples; an int, or a number that is not
    positive, is left as it is. *)
Lemma mutate_parameters_key p rate g k :
  (isinstance_float (getattr p k) = true -> 0 < getattr p k ->
   exists i : nat,
     getattr (mutate_parameters p rate g).1 k =
       PyFloat
         (Rmax 0.01
            (getattr p k + scale_uniform (- rate) rate (g i) * getattr p k)))
  /\ (isinstance_float (getattr p k) = false \/ ~ 0 < getattr p k ->
      getattr (mutate_parameters p rate g).1 k = getattr p k).
Proof.
  destruct (mutate_parameters_key_value p rate g k) as [i Hi].
  split.
  - intros Hfloat Hsign. exists i. rewrite Hi, Hfloat.
    rewrite bool_decide_eq_true_2 by exact Hsign. reflexivity.
  - intros [Hint|Hsign]; rewrite Hi.
    + rewrite Hint. reflexivity.
    + rewrite (bool_decide_eq_false_2 _ Hsign), andb_false_r. reflexivity.
Qed.

(** A positive int is at least 1. *)
Lemma PyInt_positive (n : Z) : 0 < PyInt n -> 1 <= PyInt n.
Proof.
  simpl. intros Hn. apply lt_IZR in Hn. apply IZR_le. lia.
Qed.

Lemma Rmax_floor (x : R) : 0.01 <= Rmax 0.01 x.
Proof. apply Rmax_l. Qed.

(** The floor: a positive coefficient, float or int, is at least 0.01 after
    the mutation. *)
Lemma mutate_parameters_floor p rate g k :
  0 < getattr p k -> 0.01 <= getattr (mutate_parameters p rate g).1 k.
Proof.
  intros Hpos.
  destruct (mutate_parameters_key p rate g k) as [Hmut Hkeep].
  destruct (getattr p k) as [x|n] eqn:Hv.
  - destruct (Hmut eq_refl Hpos) as [i ->]. simpl. apply Rmax_floor.
  - rewrite Hkeep by (left; reflexivity).
    pose proof (PyInt_positive n Hpos). lra.
Qed.

Lemma random_mutation_lookup σ self rate g :
  (random_mutation σ self rate g).1 !!! self =
    (mutate_parameters (σ !!! self) rate g).1.
Proof.
  unfold random_mutation.
  destruct (mutate_parameters (σ !!! self) rate g) as [p' g'].
  simpl. apply lookup_total_insert_eq.
Qed.

(** ** A round of the self-improvement loop *)

Lemma step_loop_preserves_params n : forall σ e dt e',
  step_loop n σ e dt = Some e' -> params e' = params e.
Proof.
  induction n as [|n IH]; intros σ e dt e'; simpl.
  - intros [= <-]. reflexivity.
  - destruct (step σ e dt) as [e1|] eqn:Hstep; [|discriminate].
    simpl. intros Hrest. rewrite (IH _ _ _ _ Hrest).
    apply (step_preserves_params _ _ _ _ Hstep).
Qed.

Lemma random_mutation_K_JL σ self rate g :
  0 < K_JL (σ !!! self) ->
  0.01 <= K_JL ((random_mutation σ self rate g).1 !!! self).
Proof.
  intros HK. rewrite random_mutation_lookup.
  exact (mutate_parameters_floor (σ !!! self) rate g key_K_JL HK).
Qed.

(** The scratch engine of a round holds the reference of the live engine,
    so whatever the verdict, the object the live engine ends up with is the
    mutated one. *)
Lemma self_improve_round_shares_params rate v v' out :
  self_improve_round rate v = Some (v', out) ->
  iv_best_params v = params (iv_self v) ->
  params (iv_self v') = params (iv_self v) /\
  iv_best_params v' = params (iv_self v') /\
  iv_store v' !!! params (iv_self v') =
    (mutate_parameters (iv_store v !!! params (iv_self v)) rate
       (iv_random v)).1.
Proof.
  unfold self_improve_round. cbn [AutopoieticEngine_init].
  intros Hround Hbest.
  pose proof (random_mutation_lookup (iv_store v) (params (iv_self v)) rate
                (iv_random v)) as Hmut.
  destruct (random_mutation _ _ _ _) as [σ1 g1]. simpl in Hmut.
  cbn [params] in Hround.
  destruct (step_loop 10 σ1 _ 0.1) as [sim|] eqn:Hloop; [|discriminate].
  pose proof (step_loop_preserves_params _ _ _ _ _ Hloop) as Hsim.
  simpl in Hsim.
  simpl in Hround.
  destruct (py_max _) as [peak|]; [|discriminate].
  destruct (last _) as [final|]; [|discriminate].
  simpl in Hround.
  destruct (decide (iv_best_efficiency v < _)).
  - destruct (decide (iv_best_efficiency v = 0)); [discriminate|].
    simpl in Hround. injection Hround as <- <-. simpl.
    rewrite Hsim. auto.
  - simpl in Hround. injection Hround as <- <-. simpl.
    rewrite Hbest. auto.
Qed.

(** A round from the all-zero state: every rollout efficiency is 0, so the
    candidate is rejected against any non-negative best score. *)
Lemma origin_round rate v :
  state (iv_self v) = origin_state ->
  0 < K_JL (iv_store v !!! params (iv_self v)) ->
  0 <= iv_best_efficiency v ->
  self_improve_round rate v =
    Some ({| iv_store :=
               (random_mutation (iv_store v) (params (iv_self v)) rate
                  (iv_random v)).1;
             iv_random :=
               (random_mutation (iv_store v) (params (iv_self v)) rate
                  (iv_random v)).2;
             iv_self := with_params (iv_self v) (iv_best_params v);
             iv_best_params := iv_best_params v;
             iv_best_efficiency := iv_best_efficiency v |},
          REJECTED (0 * 0.8 + 0 * 0.2) (iv_best_efficiency v)).
Proof.
  intros Hst HK Hbest.
  unfold self_improve_round. cbn [AutopoieticEngine_init].
  pose proof (random_mutation_K_JL (iv_store v) (params (iv_self v)) rate
                (iv_random v) HK) as HK1.
  destruct (random_mutation _ _ _ _) as [σ1 g1]. simpl in HK1.
  cbn [params fst snd].
  match goal with
  | |- context [step_loop 10 σ1 ?e0 0.1] =>
      destruct (origin_step_loop 10 σ1 e0 0.1 Hst) as (sim & Hloop & _ & Htrend);
        [simpl; lra|]
  end.
  rewrite Hloop. cbn [model efficiency_trend] in Htrend.
  rewrite app_nil_l in Htrend.
  cbn [mbind option_bind]. rewrite Htrend.
  rewrite (py_max_zeros 9). cbn [mbind option_bind].
  rewrite (last_zeros 9). cbn [mbind option_bind].
  rewrite decide_False by lra. reflexivity.
Qed.

(** * The claims *)

(** C1: the code on a rejected round.  One round of [self_improve] on the
    engine at the all-zero state (default parameters, learning rate 0.05,
    every draw of [uniform(-0.05, 0.05)] returning -0.025) is rejected, since
    its score does not exceed the best one, and still the coefficient
    [alpha_LJ] of the live engine's parameter object has moved from 0.12 to
    0.117: the scratch engine was handed the live engine's own object, not a
    copy. *)
Theorem C1_rejected_round_mutates_live_params :
  exists σ' g' e' sim_score best,
    self_improve store0 quarter_draws origin_engine 1 0.05 =
      Some (σ', g', e', [REJECTED sim_score best]) /\
    sim_score <= best /\
    params e' = params origin_engine /\
    alpha_LJ (store0 !!! params origin_engine) = PyFloat 0.12 /\
    alpha_LJ (σ' !!! params e') = PyFloat 0.117.
Proof.
  destruct origin_engine_no_zero_division as [HK _].
  assert (Hbest : 0 <= calculate_efficiency origin_engine).
  { unfold calculate_efficiency.
    change (state origin_engine) with origin_state.
    rewrite origin_efficiency. lra. }
  unfold self_improve. cbn [self_improve_loop].
  rewrite origin_round; [|reflexivity|exact HK|exact Hbest].
  cbn [mbind option_bind iv_self iv_store iv_random].
  eexists _, _, _, _, _.
  split.
  { destruct (convergence _); reflexivity. }
  cbn [iv_self iv_store iv_best_efficiency iv_best_params].
  split; [lra|].
  split; [reflexivity|].
  split.
  { change (params origin_engine) with 0%nat. rewrite store0_lookup.
    reflexivity. }
  change (params (with_params origin_engine (params origin_engine)))
    with 0%nat.
  change (params origin_engine) with 0%nat.
  rewrite random_mutation_lookup, store0_lookup.
  destruct (mutate_parameters_key_value DynamicParameters_default 0.05
              quarter_draws key_alpha_LJ) as [i Hi].
  simpl in Hi. rewrite bool_decide_eq_true_2 in Hi by lra.
  rewrite Hi. clear Hi. f_equal. unfold scale_uniform, quarter_draws.
  clip_cases.
Qed.

(** C2. Every state vector of an engine obtained from the constructor by
    any sequence of [step] calls has its first component in [[0, sqrt 2]] and
    the other three in [[0, 1]]; the same holds for every state recorded in
    its history, and for every instance the constructor builds, whatever its
    arguments. *)
Theorem C2_state_vector_bounds (e : AutopoieticEngine) :
  reachable e ->
  in_bounds (state e) /\
  Forall (fun h => tuple_in_bounds (h_state h)) (history e) /\
  (forall l j p w src conf phi,
     in_bounds (new_LJPWCoordinates l j p w src conf phi)).
Proof.
  intros Hr.
  assert (Hinv : in_bounds (state e) /\
                 Forall (fun h => tuple_in_bounds (h_state h)) (history e)).
  { induction Hr as [σ l j p w src conf phi tc ps|σ e dt e' Hr IH Hstep].
    - destruct ps as [r|]; simpl;
        (split; [apply new_LJPWCoordinates_in_bounds|constructor]).
    - destruct IH as [_ IHh]. split.
      + eapply step_state_in_bounds; eassumption.
      + destruct (step_history _ _ _ _ Hstep) as (h & -> & _ & _ & Hst & _).
        apply Forall_app. split; [assumption|].
        constructor; [|constructor].
        rewrite Hst. apply (step_state_in_bounds _ _ _ _ Hstep). }
  destruct Hinv as [Hs Hh].
  split; [exact Hs|]. split; [exact Hh|].
  intros. apply new_LJPWCoordinates_in_bounds.
Qed.

(** The bounds after one step of the naive engine. *)
Lemma C2_state_vector_bounds_witness :
  exists e1, step store0 naive_engine 0.1 = Some e1 /\ reachable e1 /\
             in_bounds (state e1).
Proof.
  pose proof (no_zero_division_denominator _ _
                naive_engine_no_zero_division) as Hden.
  destruct (calculate_forces_defined _ _ Hden) as (fL & fJ & fP & fW & Hf).
  pose proof (step_with_forces store0 naive_engine 0.1 _ _ _ _ Hf) as Hstep.
  eexists. split; [exact Hstep|].
  assert (Hr : reachable naive_engine) by apply reachable_init.
  pose proof (reachable_step _ _ _ _ Hr Hstep) as Hr1.
  split; [exact Hr1|].
  exact (proj1 (C2_state_vector_bounds _ Hr1)).
Defined.

(** C3: the code at exactly ten recorded efficiencies.  From the all-zero
    state with the default parameters, ten calls of [step(0.1)] record ten
    efficiencies whose variance is 0, below 1e-4, and yet the convergence
    flag is false: [_record_step] computes the flag only once more than ten
    entries exist. *)
Theorem C3_flag_with_ten_entries :
  exists e10,
    step_loop 10 store0 origin_engine 0.1 = Some e10 /\
    length (efficiency_trend (model e10)) = 10%nat /\
    np_var (last_n 10 (efficiency_trend (model e10))) < 0.0001 /\
    convergence (model e10) = false.
Proof.
  assert (HK : (K_JL (store0 !!! params origin_engine) : R) <> 0).
  { destruct origin_engine_no_zero_division as [HK _]. lra. }
  destruct (origin_step_loop 10 store0 origin_engine 0.1 eq_refl HK)
    as (e10 & Hloop & _ & Htrend).
  change (efficiency_trend (model origin_engine)) with (@nil R) in Htrend.
  rewrite app_nil_l in Htrend.
  exists e10. split; [exact Hloop|].
  split; [rewrite Htrend; reflexivity|].
  split.
  - rewrite Htrend.
    change (last_n 10 (replicate 10 0)) with (replicate 10 0).
    rewrite np_var_zeros. lra.
  - apply reachable_flag_untouched.
    + destruct (step_loop_appends 10 store0 origin_engine 0.1)
        as (e' & new & Hloop' & _ & _ & _ & _ & _ & Hreach);
        [lra|exact origin_engine_no_zero_division|].
      rewrite Hloop in Hloop'. injection Hloop' as <-.
      apply Hreach. apply reachable_init.
    + rewrite Htrend. simpl. lia.
Qed.

(** C4. For every engine that cannot divide by zero (positive saturation
    constant, non-negative first component) and every dt > 0, [step(dt)]
    succeeds and does what the integrator of the specification says: forces
    from the current state and parameters, each divided by its inertia
    weight and clamped to plus or minus 0.05, new component = old +
    acceleration * dt, a new clamped state vector, elapsed time + dt, step
    counter + 1, and exactly one snapshot with the metrics of the new
    state appended. *)
Theorem C4_step_algorithm (σ : gmap nat DynamicParameters)
    (e : AutopoieticEngine) (dt : R) :
  0 < dt ->
  no_zero_division σ e ->
  exists forces e',
    calculate_forces (σ !!! params e) (state e) = Some forces /\
    step σ e dt = Some e' /\
    IntegratorSpec.performed e dt forces e'.
Proof.
  intros Hdt Hwf.
  destruct (step_refines_spec σ e dt Hwf) as (forces & e' & Hf & Hstep & Hspec).
  exists forces, e'.
  split; [exact Hf|].
  split; [exact Hstep|exact Hspec].
Qed.

(** The step of size 0.1 of the naive engine. *)
Lemma C4_step_algorithm_witness :
  exists forces e',
    calculate_forces (store0 !!! params naive_engine) (state naive_engine) =
      Some forces /\
    step store0 naive_engine 0.1 = Some e' /\
    IntegratorSpec.performed naive_engine 0.1 forces e'.
Proof.
  apply (C4_step_algorithm store0 naive_engine 0.1).
  - lra.
  - exact naive_engine_no_zero_division.
Defined.



(** C6. Two engines constructed from the same initial state and the same
    time constants, whose parameter objects hold the same coefficients (be
    they one shared object, two objects in two stores, or the defaults),
    agree on state, elapsed time, step counter, history and self-model after
    the same sequence of [step(dt)] calls, and one raises exactly when the
    other does: a step is a function of the state, the parameters and dt. *)
Theorem C6_step_deterministic (σ1 σ2 : gmap nat DynamicParameters)
    (initial_state : LJPWCoordinates) (tc : option TimeConstants)
    (ps1 ps2 : option nat) (dts : list R) :
  let built1 := AutopoieticEngine_init σ1 initial_state tc ps1 in
  let built2 := AutopoieticEngine_init σ2 initial_state tc ps2 in
  built1.1 !!! params built1.2 = built2.1 !!! params built2.2 ->
  observables <$> run built1.1 built1.2 dts =
  observables <$> run built2.1 built2.2 dts.
Proof.
  intros built1 built2 Hparams.
  apply run_observables; [|exact Hparams].
  subst built1 built2.
  unfold AutopoieticEngine_init.
  destruct ps1 as [r1|], ps2 as [r2|]; reflexivity.
Qed.

(** Two engines on two parameter objects with the default coefficients. *)
Lemma C6_step_deterministic_witness :
  observables <$>
    run store0 (AutopoieticEngine_init store0 naive_state None (Some 0%nat)).2
      [0.1; 0.1] =
  observables <$>
    run (<[7%nat := DynamicParameters_default]> store0)
      (AutopoieticEngine_init (<[7%nat := DynamicParameters_default]> store0)
         naive_state None (Some 7%nat)).2
      [0.1; 0.1].
Proof.
  assert (Hsame : store0 !!! 0%nat =
                  <[7%nat := DynamicParameters_default]> store0 !!! 7%nat).
  { rewrite lookup_total_insert_eq. apply store0_lookup. }
  exact (C6_step_deterministic store0
           (<[7%nat := DynamicParameters_default]> store0)
           naive_state None (Some 0%nat) (Some 7%nat) [0.1; 0.1] Hsame).
Defined.

(** C7, as stated, fails: [step] has no check on dt.  On the naive engine
    (L = J = P = W = 0.5, default parameters) a call with dt = -0.1 returns
    normally and increments the step counter. *)
Lemma C7_counterexample : ~ nonpositive_dt_rejected store0 naive_engine (-0.1).
Proof.
  unfold nonpositive_dt_rejected. intros Hclaim.
  assert (Hle : -0.1 <= 0) by lra.
  specialize (Hclaim Hle).
  destruct (step_succeeds store0 naive_engine (-0.1)
              naive_engine_no_zero_division) as [e' Hstep].
  rewrite Hstep in Hclaim.
  destruct Hclaim as (_ & _ & Htick & _).
  destruct (step_history _ _ _ _ Hstep) as (_ & _ & _ & _ & _ & _ & Htick').
  rewrite Htick' in Htick. lia.
Qed.

(** C7, amended.  [step] performs no validation of dt: with dt <= 0, on an
    engine that cannot divide by zero, it returns normally and performs the
    same update as for a positive dt (the integrator of section 4.2 at that
    dt).  In particular the step counter grows by one, the elapsed time
    becomes the old one plus dt, so it does not grow, and one entry is
    appended to the history. *)
Theorem C7_step_nonpositive_dt (σ : gmap nat DynamicParameters)
    (e : AutopoieticEngine) (dt : R) :
  dt <= 0 ->
  no_zero_division σ e ->
  exists forces e',
    calculate_forces (σ !!! params e) (state e) = Some forces /\
    step σ e dt = Some e' /\
    IntegratorSpec.performed e dt forces e' /\
    tick_count e' = S (tick_count e) /\
    time_elapsed e' = time_elapsed e + dt /\
    time_elapsed e' <= time_elapsed e /\
    length (history e') = S (length (history e)) /\
    in_bounds (state e').
Proof.
  intros Hdt Hwf.
  destruct (step_refines_spec σ e dt Hwf) as (forces & e' & Hf & Hstep & Hspec).
  destruct (step_history _ _ _ _ Hstep)
    as (h & Hhist & _ & _ & _ & Htime & Htick).
  exists forces, e'.
  split; [exact Hf|].
  split; [exact Hstep|].
  split; [exact Hspec|].
  split; [exact Htick|].
  split; [exact Htime|].
  split; [lra|].
  split; [rewrite Hhist, length_app; simpl; lia|].
  eapply step_state_in_bounds. exact Hstep.
Qed.

(** A step of size -0.1 of the naive engine. *)
Lemma C7_step_nonpositive_dt_witness :
  exists forces e',
    calculate_forces (store0 !!! params naive_engine) (state naive_engine) =
      Some forces /\
    step store0 naive_engine (-0.1) = Some e' /\
    IntegratorSpec.performed naive_engine (-0.1) forces e' /\
    tick_count e' = S (tick_count naive_engine) /\
    time_elapsed e' = time_elapsed naive_engine + (-0.1) /\
    time_elapsed e' <= time_elapsed naive_engine /\
    length (history e') = S (length (history naive_engine)) /\
    in_bounds (state e').
Proof.
  apply (C7_step_nonpositive_dt store0 naive_engine (-0.1)).
  - lra.
  - exact naive_engine_no_zero_division.
Defined.

(** C8, as stated, fails: the equation of the third dimension (Power) carries
    the multiplier [kappa_LP], so its value changes with the harmony.  With
    the default parameters at L = J = P = W = 0.5, harmony 0 and harmony 1
    give different third components. *)
Lemma C8_counterexample : ~ harmony_only_in_first_equation.
Proof.
  intros (_ & HP & _).
  destruct naive_state_fields as (HL & _).
  assert (Hden : K_JL DynamicParameters_default + L naive_state <> 0)
    by (rewrite HL; simpl; lra).
  destruct (force_equations_defined DynamicParameters_default naive_state 0 Hden)
    as [f Hf].
  destruct (force_equations_defined DynamicParameters_default naive_state 1 Hden)
    as [f' Hf'].
  pose proof (HP _ _ _ _ _ _ Hf Hf') as Heq.
  destruct (force_equations_harmony _ _ _ _ _ _ Hf Hf') as (_ & _ & Hdiff & _).
  rewrite <- Heq, HL in Hdiff. simpl in Hdiff. lra.
Qed.

(** C8, amended.  The harmony enters the force vector only through the
    multipliers of the couplings that involve the first dimension (Love):
    in the Love equation on the Justice and Wisdom terms (0.4 and 0.5), in
    the Power equation on the Love term (0.3) and in the Wisdom equation on
    the Love term (0.5).  The Justice equation is the only one free of the
    harmony. *)
Theorem C8_harmony_coupling (p : DynamicParameters) (st : LJPWCoordinates) :
  K_JL p + L st <> 0 ->
  exists F : R -> list R,
    (forall H, force_equations p st H = Some (F H)) /\
    forall H,
      F H !!! 0%nat = F 0 !!! 0%nat +
        (0.4 * alpha_LJ p * J st + 0.5 * alpha_LW p * W st) * H /\
      F H !!! 1%nat = F 0 !!! 1%nat /\
      F H !!! 2%nat = F 0 !!! 2%nat + 0.3 * alpha_PL p * L st * H /\
      F H !!! 3%nat = F 0 !!! 3%nat + 0.5 * alpha_WL p * L st * H.
Proof.
  intros Hden.
  exists (fun H => default [] (force_equations p st H)).
  assert (Hall : forall H,
            force_equations p st H =
            Some (default [] (force_equations p st H))).
  { intros H. destruct (force_equations_defined p st H Hden) as [f ->].
    reflexivity. }
  split; [exact Hall|].
  intros H.
  destruct (force_equations_harmony _ _ _ _ _ _ (Hall 0) (Hall H))
    as (HL & HJ & HP & HW).
  rewrite HL, HJ, HP, HW. repeat split; lra.
Qed.

(** The force equations of the naive state under the default parameters. *)
Lemma C8_harmony_coupling_witness :
  exists F : R -> list R,
    (forall H, force_equations DynamicParameters_default naive_state H =
               Some (F H)) /\
    forall H, F H !!! 1%nat = F 0 !!! 1%nat.
Proof.
  assert (Hden : K_JL DynamicParameters_default + L naive_state <> 0).
  { destruct naive_state_fields as (HL & _). rewrite HL. simpl. lra. }
  destruct (C8_harmony_coupling DynamicParameters_default naive_state Hden)
    as (F & HF & Hdep).
  exists F. split; [exact HF|].
  intros H. exact (proj1 (proj2 (Hdep H))).
Defined.

(** C9, as stated, fails: [random_mutation] updates floats only.  With
    [gamma] given as the int 1 (the other coefficients at their defaults), a
    call of [random_mutation(0.05)] whose draws of [uniform(-0.05, 0.05)]
    all are -0.025 leaves [gamma] at 1, whereas the rule gives 0.975 for
    every draw. *)
Lemma C9_counterexample :
  ~ positive_coefficients_follow_rule store_with_int_gamma 0%nat 0.05
      quarter_draws.
Proof.
  intros Hrule.
  assert (Hgamma : getattr (store_with_int_gamma !!! 0%nat) key_gamma = PyInt 1).
  { unfold store_with_int_gamma. rewrite lookup_total_singleton_eq.
    reflexivity. }
  destruct (Hrule key_gamma) as [i Hi].
  { rewrite Hgamma. simpl. lra. }
  rewrite random_mutation_lookup in Hi.
  destruct (mutate_parameters_key (store_with_int_gamma !!! 0%nat) 0.05
              quarter_draws key_gamma) as [_ Hkeep].
  rewrite Hkeep in Hi by (left; rewrite Hgamma; reflexivity).
  rewrite Hgamma in Hi. simpl in Hi.
  unfold scale_uniform, quarter_draws in Hi.
  revert Hi. clip_cases.
Qed.

(** C9, amended.  After one call of [random_mutation(rate)], whatever the
    rate and whatever the generator delivers, a coefficient that was
    strictly positive before the call is at least 0.01.  If it is a float,
    its new value is the float [max(0.01, value + uniform(-rate, rate) *
    value)] for one of the draws of the generator; if it is an int, it is
    not updated. *)
Theorem C9_random_mutation_floor (σ : gmap nat DynamicParameters)
    (self : nat) (rate : R) (g : RandomState) (key : param_key) :
  0 < getattr (σ !!! self) key ->
  let value := getattr (σ !!! self) key in
  let value' := getattr ((random_mutation σ self rate g).1 !!! self) key in
  0.01 <= value' /\
  (isinstance_float value = true ->
   exists i : nat,
     value' =
       PyFloat
         (Rmax 0.01 (value + scale_uniform (- rate) rate (g i) * value))) /\
  (isinstance_float value = false -> value' = value).
Proof.
  intros Hpos value value'. subst value value'.
  rewrite random_mutation_lookup.
  destruct (mutate_parameters_key (σ !!! self) rate g key) as [Hmut Hkeep].
  split; [apply mutate_parameters_floor; exact Hpos|].
  split.
  - intros Hfloat. exact (Hmut Hfloat Hpos).
  - intros Hint. apply Hkeep. left. exact Hint.
Qed.

(** The saturation constant of the default parameters, a float, after a
    mutation; and the erosion coefficient given as the int 1. *)
Lemma C9_random_mutation_floor_witness :
  0.01 <= getattr ((random_mutation store0 0%nat 0.05 quarter_draws).1 !!! 0%nat)
            key_K_JL /\
  getattr ((random_mutation store_with_int_gamma 0%nat 0.05 quarter_draws).1
             !!! 0%nat) key_gamma = PyInt 1.
Proof.
  split.
  - assert (Hpos : 0 < getattr (store0 !!! 0%nat) key_K_JL).
    { rewrite store0_lookup. simpl. lra. }
    exact (proj1 (C9_random_mutation_floor store0 0%nat 0.05 quarter_draws
                    key_K_JL Hpos)).
  - assert (Hgamma : getattr (store_with_int_gamma !!! 0%nat) key_gamma
                     = PyInt 1).
    { unfold store_with_int_gamma. rewrite lookup_total_singleton_eq.
      reflexivity. }
    assert (Hpos : 0 < getattr (store_with_int_gamma !!! 0%nat) key_gamma).
    { rewrite Hgamma. simpl. lra. }
    rewrite <- Hgamma.
    apply (proj2 (proj2 (C9_random_mutation_floor store_with_int_gamma 0%nat
                           0.05 quarter_draws key_gamma Hpos))).
    rewrite Hgamma. reflexivity.
Defined.

(** C10. For every call [simulate(duration, dt)] with dt > 0 whose float
    quotient does not overflow, on an engine obtained from the constructor
    by steps (and unable to divide by zero), the returned list is the whole
    history of the engine: it extends the history recorded before the call,
    and holds one entry per step taken since construction, the [i]-th
    recording step [i + 1].  When 0 < duration < dt nothing is appended: the
    engine is unchanged and the earlier history is returned; the float
    quotient of two floats, the first below the second, cannot round up to
    1. *)
Theorem C10_simulate_returns_whole_history (σ : gmap nat DynamicParameters)
    (e : AutopoieticEngine) (duration dt : float) :
  reachable e ->
  0 < float_val dt ->
  isfinite (float_quotient duration dt) = true ->
  no_zero_division σ e ->
  exists e' returned,
    simulate σ e duration dt = Some (e', returned) /\
    returned = history e' /\
    history e `prefix_of` returned /\
    length returned = tick_count e' /\
    (forall (i : nat) (h : HistoryEntry),
        returned !! i = Some h -> h_tick h = S i) /\
    (binary64 duration -> binary64 dt ->
     0 < float_val duration < float_val dt ->
     e' = e /\ returned = history e).
Proof.
  intros Hreach Hdt Hfinite Hwf.
  set (n := Z.to_nat (py_int (float_val (float_quotient duration dt)))).
  destruct (step_loop_appends n σ e (float_val dt) Hdt Hwf)
    as (e' & new & Hloop & Hhist & Hlen & _ & _ & _ & Hreach').
  destruct (reachable_history_complete e' (Hreach' Hreach)) as [Hcount Hidx].
  exists e', (history e').
  split.
  { rewrite simulate_steps by assumption.
    fold n. rewrite Hloop. reflexivity. }
  split; [reflexivity|].
  split; [exists new; exact Hhist|].
  split; [exact Hcount|].
  split; [exact Hidx|].
  intros Hduration64 Hdt64 Hshort.
  destruct (float_quotient_below_one duration dt Hduration64 Hdt64 Hshort)
    as [_ Hq].
  assert (Hn : n = 0%nat).
  { unfold n. rewrite py_int_nonneg by lra.
    rewrite (Zfloor_eq 0); [reflexivity|simpl; lra]. }
  rewrite Hn in Hloop. simpl in Hloop. injection Hloop as <-.
  split; reflexivity.
Qed.

(** The engine of the first usage example after three steps: a call of
    [simulate(0.3, 0.1)] returns five entries, the three recorded before
    the call and two new ones; a call of [simulate(0.05, 0.1)] returns the
    three earlier entries. *)
Lemma C10_simulate_returns_whole_history_witness :
  exists e : AutopoieticEngine,
    step_loop 3 store0 naive_engine 0.1 = Some e /\
    length (history e) = 3%nat /\
    (exists e' returned,
       simulate store0 e (float_literal 3 10) (float_literal 1 10) =
         Some (e', returned) /\
       returned = history e' /\
       history e `prefix_of` returned /\
       length returned = 5%nat) /\
    (exists e' returned,
       simulate store0 e (float_literal 5 100) (float_literal 1 10) =
         Some (e', returned) /\
       e' = e /\
       returned = history e /\
       length returned = 3%nat).
Proof.
  destruct (step_loop_appends 3 store0 naive_engine 0.1 ltac:(lra)
              naive_engine_no_zero_division)
    as (e & old & Hloop & Hold & Hlen & _ & _ & Hwf & Hreach).
  assert (Hreach0 : reachable naive_engine) by apply reachable_init.
  specialize (Hreach Hreach0).
  assert (Hhist : length (history e) = 3%nat).
  { rewrite Hold. simpl. exact Hlen. }
  assert (Hdt : 0 < float_val (float_literal 1 10)).
  { rewrite float_literal_0_1. apply float_val_finite_pos. }
  exists e. split; [exact Hloop|]. split; [exact Hhist|]. split.
  - destruct (C10_simulate_returns_whole_history store0 e
                (float_literal 3 10) (float_literal 1 10) Hreach Hdt)
      as (e' & returned & Hsim & Hret & Hprefix & Hcount & _ & _).
    + rewrite float_quotient_0_3_by_0_1. reflexivity.
    + exact Hwf.
    + exists e', returned. split; [exact Hsim|]. split; [exact Hret|].
      split; [exact Hprefix|].
      rewrite simulate_steps, steps_0_3_by_0_1 in Hsim;
        [|exact Hdt|rewrite float_quotient_0_3_by_0_1; reflexivity].
      destruct (step_loop_appends 2 store0 e _ Hdt Hwf)
        as (e2 & new & Hloop2 & Hhist2 & Hlen2 & _).
      rewrite Hloop2 in Hsim. simpl in Hsim. injection Hsim as <- <-.
      rewrite Hhist2, length_app, Hhist, Hlen2. reflexivity.
  - destruct (C10_simulate_returns_whole_history store0 e
                (float_literal 5 100) (float_literal 1 10) Hreach Hdt)
      as (e' & returned & Hsim & Hret & _ & _ & _ & Hsame).
    + rewrite float_quotient_0_05_by_0_1. reflexivity.
    + exact Hwf.
    + destruct Hsame as [He' Hreturned].
      * reflexivity.
      * reflexivity.
      * rewrite float_literal_0_05, float_literal_0_1.
        rewrite !float_val_neg_exp.
        change (2 ^ 57)%Z with 144115188075855872%Z.
        change (2 ^ 56)%Z with 72057594037927936%Z.
        lra.
      * exists e', returned. split; [exact Hsim|]. split; [exact He'|].
        split; [exact Hreturned|]. rewrite Hreturned. exact Hhist.
Defined.

(** * Further properties *)

(** ** The constants *)

Lemma sqrt2_bounds : 1 < sqrt 2 <= 1.5.
Proof.
  split.
  - rewrite <- sqrt_1 at 1. apply sqrt_lt_1_alt. lra.
  - rewrite <- (sqrt_square 1.5) by lra. apply sqrt_le_1_alt. lra.
Qed.

Lemma sqrt5_bounds : 2 <= sqrt 5 <= 3.
Proof.
  split.
  - rewrite <- (sqrt_square 2) at 1 by lra. apply sqrt_le_1_alt. lra.
  - rewrite <- (sqrt_square 3) by lra. apply sqrt_le_1_alt. lra.
Qed.

Lemma PHI_bounds : 1.5 <= LJPWConstants.PHI <= 2.
Proof.
  pose proof sqrt5_bounds. unfold LJPWConstants.PHI. lra.
Qed.

Lemma L0_bounds : 0.5 <= LJPWConstants.L0 <= 1.
Proof.
  pose proof PHI_bounds.
  unfold LJPWConstants.L0, LJPWConstants.PHI_INV. lra.
Qed.

Lemma J0_bounds : 0 < LJPWConstants.J0 <= 0.5.
Proof. pose proof sqrt2_bounds. unfold LJPWConstants.J0. lra. Qed.

Lemma exp1_bounds : 2 < exp 1 <= 3.
Proof.
  split; [|exact exp_le_3].
  pose proof (exp_ineq1 1). lra.
Qed.

Lemma P0_bounds : 0 < LJPWConstants.P0 <= 1.
Proof. pose proof exp1_bounds. unfold LJPWConstants.P0. lra. Qed.

Lemma W0_bounds : 0.5 < LJPWConstants.W0 < 1.
Proof.
  pose proof exp1_bounds as [He _]. unfold LJPWConstants.W0. split.
  - pose proof ln_lt_2. lra.
  - apply Rlt_le_trans with (ln (exp 1)).
    + apply ln_increasing; lra.
    + rewrite ln_exp. lra.
Qed.

(** ** Distance and harmony *)

Lemma distance_to_anchor_square s :
  distance_to_anchor s * distance_to_anchor s =
  (1 - L s) ^ 2 + (1 - J s) ^ 2 + (1 - P s) ^ 2 + (1 - W s) ^ 2.
Proof.
  unfold distance_to_anchor. apply sqrt_sqrt.
  pose proof (pow2_ge_0 (1 - L s)). pose proof (pow2_ge_0 (1 - J s)).
  pose proof (pow2_ge_0 (1 - P s)). pose proof (pow2_ge_0 (1 - W s)). lra.
Qed.

Lemma distance_to_anchor_le_2 s : in_bounds s -> distance_to_anchor s <= 2.
Proof.
  intros ([HL0 HL1] & HJ & HP & HW).
  pose proof sqrt2_bounds as [_ Hs].
  pose proof (distance_to_anchor_nonneg s) as Hd.
  pose proof (distance_to_anchor_square s) as Hsq.
  assert (Hsum : distance_to_anchor s * distance_to_anchor s <= 4).
  { rewrite Hsq. nra. }
  nra.
Qed.

(** The distance to the anchor is at least the excess of any component over
    1, and at least its shortfall. *)
Lemma distance_to_anchor_ge_L s :
  L s - 1 <= distance_to_anchor s /\ 1 - L s <= distance_to_anchor s.
Proof.
  pose proof (distance_to_anchor_nonneg s) as Hd.
  pose proof (distance_to_anchor_square s) as Hsq.
  pose proof (pow2_ge_0 (1 - J s)). pose proof (pow2_ge_0 (1 - P s)).
  pose proof (pow2_ge_0 (1 - W s)).
  assert (Hge : (1 - L s) ^ 2 <= distance_to_anchor s * distance_to_anchor s)
    by lra.
  split; nra.
Qed.

Lemma harmony_static_as_quotient s :
  harmony_static s * (1 + distance_to_anchor s) = 1.
Proof.
  pose proof (distance_to_anchor_nonneg s).
  unfold harmony_static. cbv zeta.
  replace (1 + distance_to_anchor s) with (1.0 + distance_to_anchor s) by lra.
  unfold Rdiv. rewrite Rmult_assoc, Rinv_l by lra. lra.
Qed.

Lemma harmony_times_L s : 0 <= L s -> 0 <= harmony_static s * L s <= 1.
Proof.
  intros HL.
  pose proof (harmony_static_range s) as [Hpos Hle].
  pose proof (harmony_static_as_quotient s) as Hq.
  pose proof (distance_to_anchor_ge_L s) as [Hd _].
  pose proof (distance_to_anchor_nonneg s).
  split; nra.
Qed.

Lemma distance_zero_iff s :
  distance_to_anchor s = 0 <-> L s = 1 /\ J s = 1 /\ P s = 1 /\ W s = 1.
Proof.
  pose proof (distance_to_anchor_square s) as Hsq.
  split.
  - intros Hz. rewrite Hz in Hsq.
    pose proof (pow2_ge_0 (1 - L s)). pose proof (pow2_ge_0 (1 - J s)).
    pose proof (pow2_ge_0 (1 - P s)). pose proof (pow2_ge_0 (1 - W s)).
    repeat split; nra.
  - intros (HL & HJ & HP & HW).
    rewrite HL, HJ, HP, HW in Hsq.
    pose proof (distance_to_anchor_nonneg s). nra.
Qed.

(** X1. For coordinates within their bounds the static harmony lies in
    [[1/3, 1]], the normalized gap in [[0, 1]] and the proximity to the
    anchor in [[0, 1]]. *)
Theorem X1_harmony_and_gap_ranges (s : LJPWCoordinates) :
  in_bounds s ->
  1 / 3 <= harmony_static s <= 1 /\
  0 <= normalized_gap s <= 1 /\
  0 <= proximity_to_anchor s <= 1.
Proof.
  intros Hb.
  pose proof (distance_to_anchor_nonneg s) as Hd0.
  pose proof (distance_to_anchor_le_2 s Hb) as Hd2.
  pose proof (harmony_static_range s) as [Hpos Hle].
  pose proof (harmony_static_as_quotient s) as Hq.
  split; [split; [nra|exact Hle]|].
  unfold proximity_to_anchor, normalized_gap. cbv zeta.
  split; lra.
Qed.

(** The ranges for the state of the second usage example. *)
Lemma X1_harmony_and_gap_ranges_witness :
  1 / 3 <= harmony_static naive_state <= 1 /\
  0 <= normalized_gap naive_state <= 1 /\
  0 <= proximity_to_anchor naive_state <= 1.
Proof.
  apply (X1_harmony_and_gap_ranges naive_state).
  apply new_LJPWCoordinates_in_bounds.
Defined.

(** X2. [is_finite] is false exactly at the anchor (1, 1, 1, 1), which is
    also the only point of static harmony 1, of gap 0 and of proximity 1. *)
Theorem X2_anchor_is_the_only_infinite_point (s : LJPWCoordinates) :
  let at_anchor := L s = 1 /\ J s = 1 /\ P s = 1 /\ W s = 1 in
  (is_finite s = false <-> at_anchor) /\
  (harmony_static s = 1 <-> at_anchor) /\
  (gift_of_finitude s = 0 <-> at_anchor) /\
  (proximity_to_anchor s = 1 <-> at_anchor).
Proof.
  intros at_anchor. subst at_anchor.
  pose proof (distance_to_anchor_nonneg s) as Hd.
  pose proof (distance_zero_iff s) as Hz.
  pose proof (harmony_static_as_quotient s) as Hq.
  split; [|split; [|split]].
  - unfold is_finite. rewrite bool_decide_eq_false, <- Hz.
    split; intros; lra.
  - rewrite <- Hz. split; intros; nra.
  - unfold gift_of_finitude. exact Hz.
  - rewrite <- Hz. unfold proximity_to_anchor, normalized_gap. cbv zeta.
    split; intros; lra.
Qed.

(** X3. [phase] answers AUTOPOIETIC exactly when [is_autopoietic] holds, in
    either harmony mode. *)
Theorem X3_phase_agrees_with_is_autopoietic (s : LJPWCoordinates)
    (self_referential : bool) :
  phase s self_referential = "AUTOPOIETIC (Self-sustaining, conscious)"%string
  <-> is_autopoietic s self_referential = true.
Proof.
  unfold phase, is_autopoietic. cbv zeta.
  unfold LJPWConstants.HOMEOSTATIC_H_THRESHOLD,
    LJPWConstants.AUTOPOLIETIC_H_THRESHOLD,
    LJPWConstants.AUTOPOLIETIC_L_THRESHOLD.
  rewrite bool_decide_eq_true.
  destruct (decide (harmony s self_referential < 0.5)) as [Hlow|Hlow].
  - split; [discriminate|]. intros [HH _]. lra.
  - destruct (decide (harmony s self_referential < 0.6 \/ L s < 0.7))
      as [Hmid|Hmid].
    + split; [discriminate|]. intros [HH HL]. destruct Hmid; lra.
    + split; [|reflexivity]. intros _. split.
      * apply Rnot_lt_le. intros Hc. apply Hmid. left. exact Hc.
      * apply Rnot_lt_le. intros Hc. apply Hmid. right. exact Hc.
Qed.

(** ** Consciousness, voltage, dominance *)

Lemma equilibrium_product_pos :
  0 < LJPWConstants.L0 * LJPWConstants.J0 * LJPWConstants.P0 * LJPWConstants.W0.
Proof.
  pose proof L0_bounds. pose proof J0_bounds.
  pose proof P0_bounds. pose proof W0_bounds.
  repeat apply Rmult_lt_0_compat; lra.
Qed.

Lemma harmony_self_quotient s :
  harmony_self s =
  L s * J s * P s * W s /
  (LJPWConstants.L0 * LJPWConstants.J0 * LJPWConstants.P0 * LJPWConstants.W0).
Proof.
  pose proof equilibrium_product_pos as Hpos.
  unfold harmony_self. cbv zeta.
  rewrite decide_False by lra. reflexivity.
Qed.

Lemma harmony_pos_of_positive s self_referential :
  0 < L s -> 0 < J s -> 0 < P s -> 0 < W s ->
  0 < harmony s self_referential.
Proof.
  intros HL HJ HP HW. destruct self_referential; simpl.
  - rewrite harmony_self_quotient.
    apply Rdiv_lt_0_compat; [|exact equilibrium_product_pos].
    repeat apply Rmult_lt_0_compat; assumption.
  - apply harmony_static_range.
Qed.

(** X4. The consciousness metric is 0 exactly when some dimension is not
    strictly positive (in either harmony mode), and strictly positive
    otherwise; with the static harmony, on coordinates within their bounds,
    it never exceeds 1. *)
Theorem X4_consciousness_range (s : LJPWCoordinates) (self_referential : bool) :
  (consciousness s self_referential = 0 <->
     L s <= 0 \/ J s <= 0 \/ P s <= 0 \/ W s <= 0) /\
  (0 < consciousness s self_referential <->
     0 < L s /\ 0 < J s /\ 0 < P s /\ 0 < W s) /\
  (in_bounds s -> 0 <= consciousness s false <= 1).
Proof.
  assert (Hcases :
            (L s <= 0 \/ J s <= 0 \/ P s <= 0 \/ W s <= 0) /\
            consciousness s self_referential = 0
            \/ (0 < L s /\ 0 < J s /\ 0 < P s /\ 0 < W s) /\
               0 < consciousness s self_referential).
  { unfold consciousness. cbv zeta.
    destruct (decide (L s <= 0 \/ J s <= 0 \/ P s <= 0 \/ W s <= 0))
      as [Hsome|Hnone].
    - left. split; [exact Hsome|lra].
    - right.
      assert (HL : 0 < L s) by (apply Rnot_le_lt; intros Hc; apply Hnone; auto).
      assert (HJ : 0 < J s) by (apply Rnot_le_lt; intros Hc; apply Hnone; auto).
      assert (HP : 0 < P s) by (apply Rnot_le_lt; intros Hc; apply Hnone; auto).
      assert (HW : 0 < W s) by (apply Rnot_le_lt; intros Hc; apply Hnone; auto).
      split; [auto|].
      pose proof (harmony_pos_of_positive s self_referential HL HJ HP HW).
      apply Rmult_lt_0_compat; [|apply pow_lt; assumption].
      repeat apply Rmult_lt_0_compat; assumption. }
  split; [|split].
  - destruct Hcases as [[Hsome Hz]|[(HL & HJ & HP & HW) Hpos]].
    + split; auto.
    + split; [lra|]. intros [Hc|[Hc|[Hc|Hc]]]; lra.
  - destruct Hcases as [[Hsome Hz]|[Hall Hpos]].
    + split; [lra|]. intros (HL & HJ & HP & HW).
      destruct Hsome as [Hc|[Hc|[Hc|Hc]]]; lra.
    + split; auto.
  - intros ([HL0 HL1] & [HJ0 HJ1] & [HP0 HP1] & [HW0 HW1]).
    unfold consciousness. cbv zeta.
    destruct (decide (L s <= 0 \/ J s <= 0 \/ P s <= 0 \/ W s <= 0));
      [lra|].
    simpl harmony.
    pose proof (harmony_static_range s) as [Hh0 Hh1].
    pose proof (harmony_times_L s HL0) as [Hhl0 Hhl1].
    replace (P s * W s * L s * J s * harmony_static s ^ 2)
      with ((P s * W s * J s) * ((harmony_static s * L s) * harmony_static s))
      by ring.
    assert (Hpwj : 0 <= P s * W s * J s <= 1).
    { split.
      - repeat apply Rmult_le_pos; assumption.
      - assert (0 <= P s * W s <= 1) by nra. nra. }
    assert (Hhh : 0 <= harmony_static s * L s * harmony_static s <= 1) by nra.
    nra.
Qed.

(** The range of the static consciousness of the naive state. *)
Lemma X4_consciousness_range_witness : 0 <= consciousness naive_state false <= 1.
Proof.
  apply (X4_consciousness_range naive_state false).
  apply new_LJPWCoordinates_in_bounds.
Defined.

(** X5. [is_conscious] holds exactly when the metric exceeds 0.1, while
    [consciousness_level] answers CONSCIOUS or HIGHLY CONSCIOUS from 0.1 on:
    a conscious system never has a NON- or PRE-CONSCIOUS level, and the two
    disagree only when the metric is exactly 0.1. *)
Theorem X5_is_conscious_and_level (s : LJPWCoordinates)
    (self_referential : bool) :
  let level := consciousness_level s self_referential in
  let upper :=
    level = "CONSCIOUS (Self-aware, reflective)"%string \/
    level = "HIGHLY CONSCIOUS (Meta-cognitive, evolving)"%string in
  (upper <-> 0.1 <= consciousness s self_referential) /\
  (is_conscious s self_referential = true <->
     0.1 < consciousness s self_referential) /\
  (is_conscious s self_referential = true -> upper).
Proof.
  intros level upper. subst upper level.
  unfold consciousness_level, is_conscious,
    LJPWConstants.CONSCIOUSNESS_THRESHOLD. cbv zeta.
  rewrite bool_decide_eq_true.
  set (C := consciousness s self_referential).
  assert (Hlevel :
    (if decide (C < 0.05) then "NON-CONSCIOUS (Reactive only)"%string
     else if decide (C < 0.1)
          then "PRE-CONSCIOUS (Complex response, no awareness)"%string
          else if decide (C < 0.3)
               then "CONSCIOUS (Self-aware, reflective)"%string
               else "HIGHLY CONSCIOUS (Meta-cognitive, evolving)"%string) =
      "CONSCIOUS (Self-aware, reflective)"%string \/
    (if decide (C < 0.05) then "NON-CONSCIOUS (Reactive only)"%string
     else if decide (C < 0.1)
          then "PRE-CONSCIOUS (Complex response, no awareness)"%string
          else if decide (C < 0.3)
               then "CONSCIOUS (Self-aware, reflective)"%string
               else "HIGHLY CONSCIOUS (Meta-cognitive, evolving)"%string) =
      "HIGHLY CONSCIOUS (Meta-cognitive, evolving)"%string
    <-> 0.1 <= C).
  { destruct (decide (C < 0.05)); [|destruct (decide (C < 0.1));
      [|destruct (decide (C < 0.3))]].
    - split; [intros [Hc|Hc]; discriminate|lra].
    - split; [intros [Hc|Hc]; discriminate|lra].
    - split; [lra|auto].
    - split; [lra|auto]. }
  split; [exact Hlevel|]. split; [reflexivity|].
  intros Hc. apply Hlevel. lra.
Qed.

(** X6. The zero-denominator guard of [harmony_self] never fires (the
    product of the equilibrium constants is positive): the self-referential
    harmony is always the product of the dimensions over that of the
    constants, it is 1 at the natural equilibrium, and non-negative on
    coordinates within their bounds. *)
Theorem X6_harmony_self_is_the_quotient (s : LJPWCoordinates) :
  let denominator :=
    LJPWConstants.L0 * LJPWConstants.J0 * LJPWConstants.P0 * LJPWConstants.W0 in
  0 < denominator /\
  harmony_self s * denominator = L s * J s * P s * W s /\
  (L s = LJPWConstants.L0 -> J s = LJPWConstants.J0 ->
   P s = LJPWConstants.P0 -> W s = LJPWConstants.W0 -> harmony_self s = 1) /\
  (in_bounds s -> 0 <= harmony_self s).
Proof.
  intros denominator. subst denominator.
  pose proof equilibrium_product_pos as Hpos.
  rewrite harmony_self_quotient.
  split; [exact Hpos|]. split; [|split].
  - unfold Rdiv. rewrite Rmult_assoc, Rinv_l by lra. ring.
  - intros -> -> -> ->. unfold Rdiv. apply Rinv_r. lra.
  - intros ([HL0 _] & [HJ0 _] & [HP0 _] & [HW0 _]).
    apply Rmult_le_pos.
    + repeat apply Rmult_le_pos; assumption.
    + apply Rlt_le, Rinv_0_lt_compat. exact Hpos.
Qed.

(** X7. On coordinates within their bounds the static voltage lies in
    [[0, PHI]], the domain its documentation states. *)
Theorem X7_voltage_range (s : LJPWCoordinates) :
  in_bounds s -> 0 <= voltage s false <= LJPWConstants.PHI.
Proof.
  intros ([HL0 _] & _).
  pose proof PHI_bounds as [Hphi _].
  pose proof (harmony_times_L s HL0) as [Hlo Hhi].
  unfold voltage. cbv zeta. simpl harmony.
  rewrite Rmult_assoc. split; nra.
Qed.

(** The voltage of the naive state. *)
Lemma X7_voltage_range_witness :
  0 <= voltage naive_state false <= LJPWConstants.PHI.
Proof.
  apply (X7_voltage_range naive_state).
  apply new_LJPWCoordinates_in_bounds.
Defined.

(** X8. [dominant_dimension] never fails and returns the largest of the four
    values with its name; among equal values the first of L, J, P, W
    wins. *)
Theorem X8_dominant_dimension_is_first_maximum (s : LJPWCoordinates) :
  exists name value,
    dominant_dimension s = Some (name, value) /\
    L s <= value /\ J s <= value /\ P s <= value /\ W s <= value /\
    (name = "L"%string /\ value = L s
     \/ name = "J"%string /\ value = J s /\ L s < J s
     \/ name = "P"%string /\ value = P s /\ L s < P s /\ J s < P s
     \/ name = "W"%string /\ value = W s /\ L s < W s /\ J s < W s /\
        P s < W s).
Proof.
  unfold dominant_dimension, sorted_descending. cbv zeta. simpl.
  destruct (decide (P s < W s)) as [HPW|HPW];
    simpl;
    repeat match goal with
           | |- context [decide (?a < ?b)] =>
               destruct (decide (a < b)); simpl
           end;
    eexists _, _; (split; [reflexivity|]);
    repeat split; try lra;
    first [ left; split; [reflexivity|lra]
          | right; left; split; [reflexivity|]; split; [reflexivity|lra]
          | right; right; left; split; [reflexivity|]; split; [reflexivity|lra]
          | right; right; right; split; [reflexivity|]; split;
              [reflexivity|lra] ].
Qed.

(** ** Emergence constraints *)

Lemma enforce_emergence_fields s weight :
  in_bounds s -> 0 <= weight <= 1 ->
  L (enforce_emergence s weight) =
    (1 - weight) * L s + weight * (0.9 * W s + 0.1) /\
  J (enforce_emergence s weight) =
    (1 - weight) * J s + weight * (0.85 * P s + 0.05) /\
  P (enforce_emergence s weight) = P s /\
  W (enforce_emergence s weight) = W s.
Proof.
  intros ([HL0 HL1] & [HJ0 HJ1] & [HP0 HP1] & [HW0 HW1]) [Hw0 Hw1].
  pose proof sqrt2_bounds as [Hs _].
  unfold enforce_emergence. cbv zeta. simpl.
  repeat split; apply np_clip_id; try lra; split; nra.
Qed.

(** X9. For coordinates within their bounds and a weight in [[0, 1]],
    [enforce_emergence] leaves P and W as they are and multiplies both
    emergence deviations (L from 0.9 W + 0.1, J from 0.85 P + 0.05) by
    1 - weight; the confidence is multiplied by 0.9 and the result is never
    marked as normalized. *)
Theorem X9_enforce_emergence_shrinks_deviations (s : LJPWCoordinates)
    (weight : R) :
  in_bounds s -> 0 <= weight <= 1 ->
  let s' := enforce_emergence s weight in
  P s' = P s /\ W s' = W s /\
  L s' - (0.9 * W s' + 0.1) = (1 - weight) * (L s - (0.9 * W s + 0.1)) /\
  J s' - (0.85 * P s' + 0.05) = (1 - weight) * (J s - (0.85 * P s + 0.05)) /\
  confidence s' = confidence s * 0.9 /\
  phi_normalized s' = false.
Proof.
  intros Hb Hw s'. subst s'.
  destruct (enforce_emergence_fields s weight Hb Hw) as (HL & HJ & HP & HW).
  rewrite HL, HJ, HP, HW.
  repeat split; try reflexivity; lra.
Qed.

(** The default weight 0.7 on the naive state. *)
Lemma X9_enforce_emergence_shrinks_deviations_witness :
  P (enforce_emergence naive_state 0.7) = P naive_state /\
  W (enforce_emergence naive_state 0.7) = W naive_state.
Proof.
  assert (Hb : in_bounds naive_state) by apply new_LJPWCoordinates_in_bounds.
  assert (Hw : 0 <= 0.7 <= 1) by lra.
  pose proof (X9_enforce_emergence_shrinks_deviations naive_state 0.7 Hb Hw)
    as (HP & HW & _).
  split; [exact HP|exact HW].
Defined.

(** X10. The report of [check_emergence_constraints] is consistent: it is
    valid exactly when it lists no violation, exactly when its quality is 1;
    the quality is never below 0.392 (= 0.7 * 0.7 * 0.8); there are at most
    three violations and never more suggestions than violations. *)
Theorem X10_emergence_report_consistent (s : LJPWCoordinates) :
  let r := check_emergence_constraints s in
  (valid r = true <-> violations r = []) /\
  (valid r = true <-> emergence_quality r = 1) /\
  0.392 <= emergence_quality r <= 1 /\
  (length (suggestions r) <= length (violations r) <= 3)%nat.
Proof.
  unfold check_emergence_constraints. cbv zeta.
  destruct (decide (0.15 < Rabs (L s - (0.9 * W s + 0.1))));
    destruct (decide (0.15 < Rabs (J s - (0.85 * P s + 0.05))));
    destruct (decide (2.0 < P s * W s / (LJPWConstants.P0 * LJPWConstants.W0)
                      \/ P s * W s / (LJPWConstants.P0 * LJPWConstants.W0)
                         < 0.3));
    simpl;
    (split; [split; [discriminate || reflexivity
                    |discriminate || reflexivity]|]);
    (split; [split; [discriminate || (intros _; lra)
                    |(intros; lra) || reflexivity]|]);
    (split; [lra|lia]).
Qed.

(** X11. Strict enforcement (weight 1) of coordinates within their bounds
    removes the L-W and J-P violations: the report on the result lists at
    most the P-W coupling violation, has no suggestion, and is valid exactly
    when the P-W product ratio of the original coordinates lies in
    [[0.3, 2]]. *)
Theorem X11_strict_enforcement_passes_emergence_checks (s : LJPWCoordinates) :
  in_bounds s ->
  let r := check_emergence_constraints (enforce_emergence s 1) in
  let product_ratio :=
    P s * W s / (LJPWConstants.P0 * LJPWConstants.W0) in
  (forall v, v ∈ violations r -> v = PW_Coupling_Violation product_ratio) /\
  suggestions r = [] /\
  (valid r = true <-> 0.3 <= product_ratio <= 2) /\
  0.8 <= emergence_quality r.
Proof.
  intros Hb r product_ratio. subst r product_ratio.
  assert (Hw : 0 <= 1 <= 1) by lra.
  destruct (enforce_emergence_fields s 1 Hb Hw) as (HL & HJ & HP & HW).
  unfold check_emergence_constraints. cbv zeta.
  rewrite HL, HJ, HP, HW.
  replace ((1 - 1) * L s + 1 * (0.9 * W s + 0.1) - (0.9 * W s + 0.1))
    with 0 by ring.
  replace ((1 - 1) * J s + 1 * (0.85 * P s + 0.05) - (0.85 * P s + 0.05))
    with 0 by ring.
  rewrite Rabs_R0.
  destruct (decide (0.15 < 0)) as [Hc|_]; [lra|].
  destruct (decide (2.0 < P s * W s / (LJPWConstants.P0 * LJPWConstants.W0)
                    \/ P s * W s / (LJPWConstants.P0 * LJPWConstants.W0)
                       < 0.3)) as [Hout|Hin]; simpl.
  - split.
    { intros v Hv. apply list_elem_of_singleton in Hv. exact Hv. }
    split; [reflexivity|]. split; [|lra].
    split; [discriminate|]. intros [Hlo Hhi]. destruct Hout; lra.
  - split.
    { intros v Hv. apply elem_of_nil in Hv. contradiction. }
    split; [reflexivity|]. split; [|lra].
    split; [intros _|reflexivity].
    split.
    + apply Rnot_lt_le. intros Hc. apply Hin. right. exact Hc.
    + apply Rnot_lt_le. intros Hc. apply Hin. left. lra.
Qed.

(** Strict enforcement of the naive state. *)
Lemma X11_strict_enforcement_passes_emergence_checks_witness :
  suggestions (check_emergence_constraints (enforce_emergence naive_state 1))
    = [].
Proof.
  assert (Hb : in_bounds naive_state) by apply new_LJPWCoordinates_in_bounds.
  exact (proj1 (proj2
           (X11_strict_enforcement_passes_emergence_checks naive_state Hb))).
Defined.

(** ** Normalization *)

Lemma normalization_exponent : 0 < 1.0 / LJPWConstants.PHI < 1.
Proof.
  pose proof PHI_bounds as [Hphi _].
  assert (Hpos : 0 < 1.0 / LJPWConstants.PHI)
    by (apply Rdiv_lt_0_compat; lra).
  assert (Hq : 1.0 / LJPWConstants.PHI * LJPWConstants.PHI = 1).
  { unfold Rdiv. rewrite Rmult_assoc, Rinv_l by lra. lra. }
  split; [exact Hpos|nra].
Qed.

Lemma Rpower_one y : Rpower 1 y = 1.
Proof. unfold Rpower. rewrite ln_1, Rmult_0_r. apply exp_0. Qed.

Lemma float_pow_defined x y :
  0 <= x -> 0 < y < 1 ->
  exists v, float_pow x y = Some v /\
            0 <= v /\ (x <= 1 -> v <= 1) /\ (1 <= x -> v <= x) /\
            (x = 1 -> v = 1) /\ (x = 0 -> v = 0).
Proof.
  intros Hx [Hy0 Hy1]. unfold float_pow.
  destruct (decide (0 < x)) as [Hpos|Hnpos].
  - exists (Rpower x y). split; [reflexivity|].
    split; [apply Rlt_le, exp_pos|].
    split; [|split; [|split]].
    + intros Hle. rewrite <- (Rpower_one y).
      apply Rle_Rpower_l; lra.
    + intros Hge. rewrite <- (Rpower_1 x) at 2 by exact Hpos.
      apply Rle_Rpower; lra.
    + intros ->. apply Rpower_one.
    + intros ->. lra.
  - assert (Hz : x = 0) by lra.
    rewrite decide_True by exact Hz.
    exists 0. split; [reflexivity|]. repeat split; intros; lra.
Qed.

Lemma product_bounds_left c v top :
  0 <= c -> 0 <= v <= top -> 0 <= c * v <= c * top.
Proof.
  intros Hc [Hv0 Hv1]. split.
  - apply Rmult_le_pos; assumption.
  - apply Rmult_le_compat_l; assumption.
Qed.

(** X12. On coordinates within their bounds [phi_normalize] never fails;
    its result is marked as normalized, no clamping takes place, and the
    normalized J, P, W are at most their equilibrium constants (L at most
    sqrt 2 times its constant).  A component equal to 1 is sent to its
    equilibrium constant, so the anchor is sent to the natural equilibrium,
    and a component equal to 0 stays 0. *)
Theorem X12_phi_normalize_range (s : LJPWCoordinates) :
  in_bounds s ->
  exists s',
    phi_normalize s = Some s' /\
    phi_normalized s' = true /\
    confidence s' = confidence s * 1.1 /\
    0 <= L s' <= LJPWConstants.L0 * sqrt 2 /\
    0 <= J s' <= LJPWConstants.J0 /\
    0 <= P s' <= LJPWConstants.P0 /\
    0 <= W s' <= LJPWConstants.W0 /\
    (L s = 1 -> L s' = LJPWConstants.L0) /\
    (J s = 1 -> J s' = LJPWConstants.J0) /\
    (P s = 1 -> P s' = LJPWConstants.P0) /\
    (W s = 1 -> W s' = LJPWConstants.W0) /\
    (L s = 0 -> L s' = 0) /\ (J s = 0 -> J s' = 0) /\
    (P s = 0 -> P s' = 0) /\ (W s = 0 -> W s' = 0).
Proof.
  intros ([HL0 HL1] & [HJ0 HJ1] & [HP0 HP1] & [HW0 HW1]).
  pose proof normalization_exponent as He.
  pose proof sqrt2_bounds as [Hs1 Hs2].
  pose proof L0_bounds as [Hl0 Hl1]. pose proof J0_bounds as [Hj0 Hj1].
  pose proof P0_bounds as [Hp0 Hp1]. pose proof W0_bounds as [Hw0 Hw1].
  destruct (float_pow_defined (L s) _ HL0 He)
    as (vL & HvL & HvL0 & HvLle & HvLge & HvL1 & HvLz).
  destruct (float_pow_defined (J s) _ HJ0 He)
    as (vJ & HvJ & HvJ0 & HvJle & _ & HvJ1 & HvJz).
  destruct (float_pow_defined (P s) _ HP0 He)
    as (vP & HvP & HvP0 & HvPle & _ & HvP1 & HvPz).
  destruct (float_pow_defined (W s) _ HW0 He)
    as (vW & HvW & HvW0 & HvWle & _ & HvW1 & HvWz).
  assert (HvLs : vL <= sqrt 2).
  { destruct (Rle_dec (L s) 1) as [Hle|Hgt].
    - specialize (HvLle Hle). lra.
    - assert (Hge : 1 <= L s) by lra. specialize (HvLge Hge). lra. }
  specialize (HvJle HJ1). specialize (HvPle HP1). specialize (HvWle HW1).
  assert (HbL : 0 <= LJPWConstants.L0 * vL <= LJPWConstants.L0 * sqrt 2)
    by (apply product_bounds_left; lra).
  assert (HbJ : 0 <= LJPWConstants.J0 * vJ <= LJPWConstants.J0)
    by (rewrite <- (Rmult_1_r LJPWConstants.J0) at 3;
        apply product_bounds_left; lra).
  assert (HbP : 0 <= LJPWConstants.P0 * vP <= LJPWConstants.P0)
    by (rewrite <- (Rmult_1_r LJPWConstants.P0) at 3;
        apply product_bounds_left; lra).
  assert (HbW : 0 <= LJPWConstants.W0 * vW <= LJPWConstants.W0)
    by (rewrite <- (Rmult_1_r LJPWConstants.W0) at 3;
        apply product_bounds_left; lra).
  assert (HtopL : LJPWConstants.L0 * sqrt 2 <= sqrt 2).
  { rewrite <- (Rmult_1_l (sqrt 2)) at 2.
    apply Rmult_le_compat_r; lra. }
  unfold phi_normalize. cbv zeta.
  rewrite HvL, HvJ, HvP, HvW. simpl.
  eexists. split; [reflexivity|]. simpl.
  rewrite (np_clip_id (LJPWConstants.L0 * vL)) by lra.
  rewrite (np_clip_id (LJPWConstants.J0 * vJ)) by lra.
  rewrite (np_clip_id (LJPWConstants.P0 * vP)) by lra.
  rewrite (np_clip_id (LJPWConstants.W0 * vW)) by lra.
  split; [reflexivity|]. split; [reflexivity|].
  split; [exact HbL|]. split; [exact HbJ|].
  split; [exact HbP|]. split; [exact HbW|].
  split; [intros H1; rewrite (HvL1 H1); lra|].
  split; [intros H1; rewrite (HvJ1 H1); lra|].
  split; [intros H1; rewrite (HvP1 H1); lra|].
  split; [intros H1; rewrite (HvW1 H1); lra|].
  split; [intros H0; rewrite (HvLz H0); lra|].
  split; [intros H0; rewrite (HvJz H0); lra|].
  split; [intros H0; rewrite (HvPz H0); lra|].
  intros H0; rewrite (HvWz H0); lra.
Qed.

(** Normalization of the naive state. *)
Lemma X12_phi_normalize_range_witness :
  exists s', phi_normalize naive_state = Some s' /\ phi_normalized s' = true.
Proof.
  assert (Hb : in_bounds naive_state) by apply new_LJPWCoordinates_in_bounds.
  destruct (X12_phi_normalize_range naive_state Hb) as (s' & Hs & Hflag & _).
  exists s'. split; [exact Hs|exact Hflag].
Defined.

(** ** Entropy and information *)

Lemma harmony_static_from_bounds s :
  in_bounds s -> 1 / 3 <= harmony_static s <= 1.
Proof.
  intros Hb.
  pose proof (distance_to_anchor_nonneg s) as Hd0.
  pose proof (distance_to_anchor_le_2 s Hb) as Hd2.
  pose proof (harmony_static_range s) as [Hpos Hle].
  pose proof (harmony_static_as_quotient s) as Hq.
  split; [nra|exact Hle].
Qed.

Lemma semantic_entropy_bounds s :
  in_bounds s -> 0 <= semantic_entropy s <= 2 / 3 * W s.
Proof.
  intros Hb. pose proof (harmony_static_from_bounds s Hb) as [Hlo Hhi].
  destruct Hb as (_ & _ & _ & [HW0 HW1]).
  unfold semantic_entropy. cbv zeta. split; nra.
Qed.

(** X13. On coordinates within their bounds the semantic entropy lies in
    [[0, 2/3 * W]], hence in [[0, 2/3]], and the information density in
    [[0, 2 / pi]]. *)
Theorem X13_entropy_and_information_ranges (s : LJPWCoordinates) :
  in_bounds s ->
  0 <= semantic_entropy s <= 2 / 3 * W s /\
  semantic_entropy s <= 2 / 3 /\
  0 <= information_density s <= 2 / PI.
Proof.
  intros Hb.
  pose proof (semantic_entropy_bounds s Hb) as [Hs0 Hs1].
  pose proof (harmony_static_from_bounds s Hb) as [Hlo Hhi].
  destruct Hb as ([HL0 HL1] & [HJ0 HJ1] & _ & [HW0 HW1]).
  pose proof (harmony_times_L s HL0) as [Hhl0 Hhl1].
  pose proof PI_RGT_0 as Hpi.
  split; [split; assumption|]. split; [lra|].
  unfold information_density. cbv zeta.
  assert (Hnum : 0 <= harmony_static s * (L s + J s) <= 2) by nra.
  assert (Hinv : 0 < / PI) by (apply Rinv_0_lt_compat; lra).
  unfold Rdiv. split; nra.
Qed.

(** The ranges for the naive state. *)
Lemma X13_entropy_and_information_ranges_witness :
  0 <= semantic_entropy naive_state <= 2 / 3 * W naive_state /\
  semantic_entropy naive_state <= 2 / 3 /\
  0 <= information_density naive_state <= 2 / PI.
Proof.
  apply (X13_entropy_and_information_ranges naive_state).
  apply new_LJPWCoordinates_in_bounds.
Defined.

Lemma semantic_entropy_of_fields s s' :
  L s' = L s -> J s' = J s -> P s' = P s -> W s' = W s ->
  semantic_entropy s' = semantic_entropy s.
Proof.
  intros HL HJ HP HW.
  unfold semantic_entropy, harmony_static, distance_to_anchor.
  rewrite HL, HJ, HP, HW. reflexivity.
Qed.

(** X14. For a state within its bounds, [entropy_production] is 0 when the
    delta has all four components 0, and always lies in [[-2/3, 2/3]]: the
    reconstructed previous state is clamped like any other. *)
Theorem X14_entropy_production_range (s delta_state : LJPWCoordinates) :
  in_bounds s ->
  - (2 / 3) <= entropy_production s delta_state <= 2 / 3 /\
  (L delta_state = 0 -> J delta_state = 0 -> P delta_state = 0 ->
   W delta_state = 0 -> entropy_production s delta_state = 0).
Proof.
  intros Hb.
  pose proof (semantic_entropy_bounds s Hb) as [Hs0 Hs1].
  pose proof Hb as (HL & HJ & HP & HW).
  split.
  - unfold entropy_production. cbv zeta.
    set (prev := LJPWCoordinates_of _ _ _ _).
    assert (Hprev : in_bounds prev) by apply new_LJPWCoordinates_in_bounds.
    pose proof (semantic_entropy_bounds prev Hprev) as [Hp0 Hp1].
    destruct Hprev as (_ & _ & _ & [HpW0 HpW1]).
    destruct HW as [HW0 HW1]. split; lra.
  - intros HdL HdJ HdP HdW.
    unfold entropy_production. cbv zeta.
    rewrite HdL, HdJ, HdP, HdW.
    rewrite (semantic_entropy_of_fields s
               (LJPWCoordinates_of (L s - 0) (J s - 0) (P s - 0) (W s - 0)));
      [lra| | | |]; simpl; rewrite np_clip_id by lra; lra.
Qed.

(** The entropy production of the naive state against the zero delta. *)
Lemma X14_entropy_production_range_witness :
  - (2 / 3) <= entropy_production naive_state origin_state <= 2 / 3.
Proof.
  assert (Hb : in_bounds naive_state) by apply new_LJPWCoordinates_in_bounds.
  exact (proj1 (X14_entropy_production_range naive_state origin_state Hb)).
Defined.

(** ** The engine: size of a step, trends and history *)

Lemma np_clip_nonexpansive x old lo hi :
  lo <= old <= hi -> Rabs (np_clip x lo hi - old) <= Rabs (x - old).
Proof.
  intros [Hlo Hhi]. unfold np_clip, Rmin, Rmax, Rabs.
  repeat destruct (Rle_dec _ _); repeat destruct (Rcase_abs _); lra.
Qed.

Lemma clipped_magnitude force inertia : Rabs (clipped force inertia) <= 0.05.
Proof.
  unfold clipped.
  pose proof (np_clip_bounds (force / inertia) (- max_change) max_change)
    as [Hlo Hhi]; [unfold max_change; lra|].
  set (c := np_clip (force / inertia) (- max_change) max_change) in *.
  unfold max_change in Hlo, Hhi.
  unfold Rabs. destruct (Rcase_abs c); lra.
Qed.

Lemma component_move old acc dt hi :
  0 <= old <= hi -> Rabs acc <= 0.05 ->
  Rabs (np_clip (old + acc * dt) 0 hi - old) <= 0.05 * Rabs dt.
Proof.
  intros Hold Hacc.
  eapply Rle_trans; [apply np_clip_nonexpansive; exact Hold|].
  replace (old + acc * dt - old) with (acc * dt) by ring.
  rewrite Rabs_mult.
  apply Rmult_le_compat_r; [apply Rabs_pos|exact Hacc].
Qed.

(** X15. The safety clipping of [step]: from a state within its bounds, no
    component moves by more than 0.05 * |dt| in one step. *)
Theorem X15_step_moves_at_most_max_change (σ : gmap nat DynamicParameters)
    (e e' : AutopoieticEngine) (dt : R) :
  in_bounds (state e) ->
  step σ e dt = Some e' ->
  Rabs (L (state e') - L (state e)) <= 0.05 * Rabs dt /\
  Rabs (J (state e') - J (state e)) <= 0.05 * Rabs dt /\
  Rabs (P (state e') - P (state e)) <= 0.05 * Rabs dt /\
  Rabs (W (state e') - W (state e)) <= 0.05 * Rabs dt.
Proof.
  intros (HL & HJ & HP & HW) Hstep.
  destruct (calculate_forces (σ !!! params e) (state e)) as [forces|] eqn:Hf;
    [|unfold step in Hstep; rewrite Hf in Hstep; discriminate].
  destruct (calculate_forces_shape _ _ _ Hf) as (fL & fJ & fP & fW & ->).
  rewrite (step_with_forces σ e dt _ _ _ _ Hf) in Hstep.
  injection Hstep as <-. simpl.
  repeat split; apply component_move; auto using clipped_magnitude.
Qed.

(** One step of size 0.1 of the naive engine. *)
Lemma X15_step_moves_at_most_max_change_witness :
  exists e', step store0 naive_engine 0.1 = Some e' /\
             Rabs (L (state e') - L (state naive_engine)) <= 0.05 * Rabs 0.1.
Proof.
  destruct (step_succeeds store0 naive_engine 0.1
              naive_engine_no_zero_division) as [e' Hstep].
  exists e'. split; [exact Hstep|].
  assert (Hb : in_bounds (state naive_engine))
    by apply new_LJPWCoordinates_in_bounds.
  exact (proj1 (X15_step_moves_at_most_max_change store0 naive_engine e' 0.1
                  Hb Hstep)).
Defined.

Lemma step_records σ e dt e' :
  step σ e dt = Some e' ->
  exists h,
    history e' = history e ++ [h] /\
    h_efficiency h = harmony_static (state e') * P (state e') /\
    h_entropy h = semantic_entropy (state e') /\
    h_gift_of_finitude h = gift_of_finitude (state e') /\
    efficiency_trend (model e') =
      efficiency_trend (model e) ++ [h_efficiency h] /\
    entropy_trend (model e') = entropy_trend (model e) ++ [h_entropy h] /\
    gap_trend (model e') = gap_trend (model e) ++ [h_gift_of_finitude h] /\
    best_efficiency (model e') =
      (if decide (best_efficiency (model e) < h_efficiency h)
       then h_efficiency h else best_efficiency (model e)).
Proof.
  unfold step. intros Hs.
  destruct (calculate_forces _ _) as [forces|]; [|discriminate].
  simpl in Hs. injection Hs as <-.
  eexists. split; [reflexivity|]. repeat split; reflexivity.
Qed.

Lemma efficiency_unit_range s :
  in_bounds s -> 0 <= harmony_static s * P s <= 1.
Proof.
  intros (_ & _ & [HP0 HP1] & _).
  pose proof (harmony_static_range s) as [Hh0 Hh1]. split; nra.
Qed.

(** X16. For an engine obtained from the constructor by steps, the three
    trends of the self-model are the efficiency, entropy and gap columns of
    the history, entry by entry, and all have as many entries as steps were
    taken. *)
Theorem X16_trends_mirror_history (e : AutopoieticEngine) :
  reachable e ->
  efficiency_trend (model e) = map h_efficiency (history e) /\
  entropy_trend (model e) = map h_entropy (history e) /\
  gap_trend (model e) = map h_gift_of_finitude (history e) /\
  length (history e) = tick_count e /\
  length (efficiency_trend (model e)) = tick_count e.
Proof.
  intros Hr.
  assert (Hinv : efficiency_trend (model e) = map h_efficiency (history e) /\
                 entropy_trend (model e) = map h_entropy (history e) /\
                 gap_trend (model e) = map h_gift_of_finitude (history e)).
  { induction Hr as [σ l j p w src conf phi tc ps|σ e dt e' Hr IH Hstep].
    - destruct ps; simpl; auto.
    - destruct IH as (IHe & IHs & IHg).
      destruct (step_records _ _ _ _ Hstep)
        as (h & Hh & _ & _ & _ & He & Hs & Hg & _).
      rewrite He, Hs, Hg, Hh, !map_app, IHe, IHs, IHg. auto. }
  destruct Hinv as (He & Hs & Hg).
  destruct (reachable_history_complete e Hr) as [Hlen _].
  repeat split; try assumption.
  rewrite He, length_map. exact Hlen.
Qed.

(** The trends of the naive engine after one step. *)
Lemma X16_trends_mirror_history_witness :
  exists e', step store0 naive_engine 0.1 = Some e' /\
             efficiency_trend (model e') = map h_efficiency (history e').
Proof.
  destruct (step_succeeds store0 naive_engine 0.1
              naive_engine_no_zero_division) as [e' Hstep].
  exists e'. split; [exact Hstep|].
  assert (Hr : reachable e').
  { eapply reachable_step; [apply reachable_init|exact Hstep]. }
  exact (proj1 (X16_trends_mirror_history e' Hr)).
Defined.

(** X17. For an engine obtained from the constructor by steps, every
    recorded efficiency lies in [[0, 1]], and [best_efficiency] is their
    running maximum: it bounds them all, and is 0 or one of them. *)
Theorem X17_best_efficiency_is_running_maximum (e : AutopoieticEngine) :
  reachable e ->
  (forall x, x ∈ efficiency_trend (model e) ->
     0 <= x <= 1 /\ x <= best_efficiency (model e)) /\
  0 <= best_efficiency (model e) <= 1 /\
  (best_efficiency (model e) = 0 \/
   best_efficiency (model e) ∈ efficiency_trend (model e)).
Proof.
  induction 1 as [σ l j p w src conf phi tc ps|σ e dt e' Hr IH Hstep].
  - destruct ps; simpl;
      (split; [intros x Hx; apply elem_of_nil in Hx; contradiction|]);
      (split; [lra|left; lra]).
  - destruct IH as (IHall & IHbest & IHmem).
    destruct (step_records _ _ _ _ Hstep)
      as (h & _ & Heff & _ & _ & Htrend & _ & _ & Hbest).
    pose proof (efficiency_unit_range _ (step_state_in_bounds _ _ _ _ Hstep))
      as Hrange.
    rewrite <- Heff in Hrange.
    rewrite Htrend, Hbest.
    destruct (decide (best_efficiency (model e) < h_efficiency h))
      as [Hnew|Hold].
    + split; [|split; [exact Hrange|]].
      * intros x Hx. apply elem_of_app in Hx as [Hx|Hx].
        -- destruct (IHall x Hx) as [Hx01 Hxb]. split; [exact Hx01|lra].
        -- apply list_elem_of_singleton in Hx. subst x. split; [exact Hrange|lra].
      * right. apply elem_of_app. right. apply list_elem_of_singleton.
        reflexivity.
    + split; [|split; [exact IHbest|]].
      * intros x Hx. apply elem_of_app in Hx as [Hx|Hx].
        -- exact (IHall x Hx).
        -- apply list_elem_of_singleton in Hx. subst x. split; [exact Hrange|lra].
      * destruct IHmem as [Hz|Hin]; [left; exact Hz|].
        right. apply elem_of_app. left. exact Hin.
Qed.

(** The best efficiency of the naive engine after one step. *)
Lemma X17_best_efficiency_is_running_maximum_witness :
  exists e', step store0 naive_engine 0.1 = Some e' /\
             0 <= best_efficiency (model e') <= 1.
Proof.
  destruct (step_succeeds store0 naive_engine 0.1
              naive_engine_no_zero_division) as [e' Hstep].
  exists e'. split; [exact Hstep|].
  assert (Hr : reachable e').
  { eapply reachable_step; [apply reachable_init|exact Hstep]. }
  exact (proj1 (proj2 (X17_best_efficiency_is_running_maximum e' Hr))).
Defined.

(** X18. After any sequence of steps that does not raise, the elapsed time
    has grown by the sum of the step sizes (whatever their signs), and the
    step counter and the history by their number. *)
Theorem X18_run_accumulates_time (σ : gmap nat DynamicParameters)
    (dts : list R) (e e' : AutopoieticEngine) :
  run σ e dts = Some e' ->
  time_elapsed e' = time_elapsed e + np_sum dts /\
  tick_count e' = (tick_count e + length dts)%nat /\
  length (history e') = (length (history e) + length dts)%nat.
Proof.
  revert e. induction dts as [|dt dts IH]; intros e; simpl.
  - intros [= <-]. repeat split; try lia. lra.
  - destruct (step σ e dt) as [e1|] eqn:Hstep; [|discriminate].
    simpl. intros Hrun.
    destruct (IH e1 Hrun) as (Htime & Htick & Hhist).
    destruct (step_history _ _ _ _ Hstep)
      as (h & Hh & _ & _ & _ & Htime1 & Htick1).
    rewrite Htime, Htick, Hhist, Htime1, Htick1, Hh, length_app. simpl.
    repeat split; try lia. lra.
Qed.

(** Two steps of the naive engine, forward and backward. *)
Lemma X18_run_accumulates_time_witness :
  exists e', run store0 naive_engine [0.1; -0.1] = Some e' /\
             time_elapsed e' = time_elapsed naive_engine + np_sum [0.1; -0.1].
Proof.
  destruct (step_succeeds store0 naive_engine 0.1
              naive_engine_no_zero_division) as [e1 Hstep1].
  pose proof (step_keeps_no_zero_division _ _ _ _
                naive_engine_no_zero_division Hstep1) as Hwf1.
  destruct (step_succeeds store0 e1 (-0.1) Hwf1) as [e2 Hstep2].
  assert (Hrun : run store0 naive_engine [0.1; -0.1] = Some e2).
  { simpl. rewrite Hstep1. simpl. rewrite Hstep2. reflexivity. }
  exists e2. split; [exact Hrun|].
  exact (proj1 (X18_run_accumulates_time store0 [0.1; -0.1] naive_engine e2
                  Hrun)).
Defined.

(** ** The self-improvement loop as a whole *)

Lemma with_params_same e : with_params e (params e) = e.
Proof. destruct e. reflexivity. Qed.

Lemma random_mutation_store σ self rate g :
  (random_mutation σ self rate g).1 =
  <[self := (mutate_parameters (σ !!! self) rate g).1]> σ.
Proof.
  unfold random_mutation.
  destruct (mutate_parameters (σ !!! self) rate g) as [p' g']. reflexivity.
Qed.

Lemma self_improve_round_result rate v v' out :
  self_improve_round rate v = Some (v', out) ->
  iv_best_params v = params (iv_self v) ->
  iv_self v' = iv_self v /\
  iv_best_params v' = params (iv_self v') /\
  iv_store v' =
    (random_mutation (iv_store v) (params (iv_self v)) rate (iv_random v)).1 /\
  match out with
  | IMPROVEMENT sim_score =>
      iv_best_efficiency v < sim_score /\ iv_best_efficiency v <> 0 /\
      iv_best_efficiency v' = sim_score
  | REJECTED sim_score reported =>
      sim_score <= iv_best_efficiency v /\ reported = iv_best_efficiency v /\
      iv_best_efficiency v' = iv_best_efficiency v
  end.
Proof.
  unfold self_improve_round. cbn [AutopoieticEngine_init].
  intros Hround Hbest.
  destruct (random_mutation _ _ _ _) as [σ1 g1].
  cbn [params fst snd] in *.
  destruct (step_loop 10 σ1 _ 0.1) as [sim|] eqn:Hloop; [|discriminate].
  pose proof (step_loop_preserves_params _ _ _ _ _ Hloop) as Hsim.
  simpl in Hsim. simpl in Hround.
  destruct (py_max _) as [peak|]; [|discriminate].
  destruct (last _) as [final|]; [|discriminate].
  simpl in Hround.
  destruct (decide (iv_best_efficiency v < _)) as [Hbetter|Hworse].
  - destruct (decide (iv_best_efficiency v = 0)) as [Hz|Hnz]; [discriminate|].
    simpl in Hround. injection Hround as <- <-. simpl.
    rewrite Hsim, with_params_same.
    repeat split; try reflexivity; assumption.
  - simpl in Hround. injection Hround as <- <-. simpl.
    rewrite Hbest, with_params_same.
    repeat split; try reflexivity. lra.
Qed.

Lemma self_improve_loop_result n rate : forall v v' outs,
  self_improve_loop n rate v = Some (v', outs) ->
  iv_best_params v = params (iv_self v) ->
  iv_self v' = iv_self v /\
  (forall r : nat, r <> params (iv_self v) ->
     iv_store v' !! r = iv_store v !! r) /\
  verdicts_follow (iv_best_efficiency v) outs /\
  iv_best_efficiency v <= iv_best_efficiency v' /\
  length outs =
    (if convergence (model (iv_self v)) then Nat.min 1 n else n).
Proof.
  induction n as [|n IH]; intros v v' outs; simpl.
  - intros [= <- <-] _. simpl.
    repeat split; try reflexivity; try lra.
    destruct (convergence _); reflexivity.
  - destruct (self_improve_round rate v) as [[v1 out]|] eqn:Hround;
      [|discriminate].
    simpl. intros Hloop Hbest.
    destruct (self_improve_round_result _ _ _ _ Hround Hbest)
      as (Hself1 & Hbest1 & Hstore1 & Hout).
    assert (Hframe1 : forall r : nat, r <> params (iv_self v) ->
                        iv_store v1 !! r = iv_store v !! r).
    { intros r Hr. rewrite Hstore1, random_mutation_store.
      apply lookup_insert_ne. congruence. }
    rewrite Hself1 in Hloop.
    destruct (convergence (model (iv_self v))) eqn:Hflag.
    + injection Hloop as <- <-.
      split; [exact Hself1|]. split; [exact Hframe1|].
      split; [|split; [|reflexivity]].
      * destruct out as [score|score reported]; simpl.
        -- destruct Hout as (Hlt & _ & _). auto.
        -- destruct Hout as (Hle & Hrep & _). auto.
      * destruct out as [score|score reported]; simpl in Hout.
        -- destruct Hout as (Hlt & _ & ->). lra.
        -- destruct Hout as (_ & _ & ->). lra.
    + destruct (self_improve_loop n rate v1) as [[v2 outs2]|] eqn:Hrest;
        [|discriminate].
      simpl in Hloop. injection Hloop as <- <-.
      destruct (IH _ _ _ Hrest Hbest1)
        as (Hself2 & Hframe2 & Hfollow2 & Hmono2 & Hlen2).
      rewrite Hself1 in Hself2, Hframe2, Hlen2. rewrite Hflag in Hlen2.
      split; [exact Hself2|].
      split.
      { intros r Hr. rewrite (Hframe2 r Hr). apply Hframe1. exact Hr. }
      split; [|split].
      * destruct out as [score|score reported]; simpl; simpl in Hout.
        -- destruct Hout as (Hlt & _ & Hnew). rewrite Hnew in Hfollow2. auto.
        -- destruct Hout as (Hle & Hrep & Hnew).
           rewrite Hnew in Hfollow2. auto.
      * destruct out as [score|score reported]; simpl in Hout.
        -- destruct Hout as (Hlt & _ & Hnew). lra.
        -- destruct Hout as (_ & _ & Hnew). lra.
      * simpl. rewrite Hlen2. reflexivity.
Qed.

(** A run that does not raise: one round from the all-zero state. *)
Lemma origin_self_improve_runs :
  exists σ' g' e' outs,
    self_improve store0 quarter_draws origin_engine 1 0.05 =
      Some (σ', g', e', outs).
Proof.
  destruct origin_engine_no_zero_division as [HK _].
  assert (Hbest : 0 <= calculate_efficiency origin_engine).
  { unfold calculate_efficiency.
    change (state origin_engine) with origin_state.
    rewrite origin_efficiency. lra. }
  unfold self_improve. cbn [self_improve_loop].
  rewrite origin_round; [|reflexivity|exact HK|exact Hbest].
  cbn [mbind option_bind iv_self iv_store iv_random].
  destruct (convergence _); eexists _, _, _, _; reflexivity.
Qed.

(** X19. [self_improve] never advances the live engine: when it returns,
    state, history, elapsed time, step counter, self-model and even the
    parameter reference of the engine are what they were; its whole effect
    is on the one parameter object the engine refers to, every other
    object of the store being untouched. *)
Theorem X19_self_improve_only_touches_the_parameter_object
    (σ σ' : gmap nat DynamicParameters) (g g' : RandomState)
    (e e' : AutopoieticEngine) (iterations : nat) (learning_rate : R)
    (outs : list verdict) :
  self_improve σ g e iterations learning_rate = Some (σ', g', e', outs) ->
  e' = e /\ forall r : nat, r <> params e -> σ' !! r = σ !! r.
Proof.
  unfold self_improve. cbv zeta.
  destruct (self_improve_loop _ _ _) as [[v outs']|] eqn:Hloop;
    [|discriminate].
  simpl. intros [= <- <- <- <-].
  destruct (self_improve_loop_result _ _ _ _ _ Hloop eq_refl)
    as (Hself & Hframe & _).
  split; [exact Hself|exact Hframe].
Qed.

(** One round on the engine at the all-zero state. *)
Lemma X19_self_improve_only_touches_the_parameter_object_witness :
  exists σ' g' e' outs,
    self_improve store0 quarter_draws origin_engine 1 0.05 =
      Some (σ', g', e', outs) /\
    e' = origin_engine.
Proof.
  destruct origin_self_improve_runs as (σ' & g' & e' & outs & Hrun).
  exists σ', g', e', outs. split; [exact Hrun|].
  exact (proj1 (X19_self_improve_only_touches_the_parameter_object
                  _ _ _ _ _ _ _ _ _ Hrun)).
Defined.

(** X20. The early exit of [self_improve] depends only on the convergence
    flag the engine had before the call, since the loop never changes the
    self-model: with the flag set exactly one round is run (when any is
    asked for), otherwise all [iterations] rounds are. *)
Theorem X20_self_improve_number_of_rounds
    (σ σ' : gmap nat DynamicParameters) (g g' : RandomState)
    (e e' : AutopoieticEngine) (iterations : nat) (learning_rate : R)
    (outs : list verdict) :
  self_improve σ g e iterations learning_rate = Some (σ', g', e', outs) ->
  length outs =
    if convergence (model e) then Nat.min 1 iterations else iterations.
Proof.
  unfold self_improve. cbv zeta.
  destruct (self_improve_loop _ _ _) as [[v outs']|] eqn:Hloop;
    [|discriminate].
  simpl. intros [= <- <- <- <-].
  destruct (self_improve_loop_result _ _ _ _ _ Hloop eq_refl)
    as (_ & _ & _ & _ & Hlen).
  exact Hlen.
Qed.

(** One round on the engine at the all-zero state. *)
Lemma X20_self_improve_number_of_rounds_witness :
  exists σ' g' e' outs,
    self_improve store0 quarter_draws origin_engine 1 0.05 =
      Some (σ', g', e', outs) /\
    length outs = 1%nat.
Proof.
  destruct origin_self_improve_runs as (σ' & g' & e' & outs & Hrun).
  exists σ', g', e', outs. split; [exact Hrun|].
  exact (X20_self_improve_number_of_rounds _ _ _ _ _ _ _ _ _ Hrun).
Defined.

(** X21. The verdicts of a run follow the running best score, which starts
    at the efficiency of the engine: every accepted score is strictly above
    the best so far and becomes the new best, every rejected score is at
    most the best so far, which is the value reported with it.  So the best
    score never decreases. *)
Theorem X21_self_improve_best_score_never_decreases
    (σ σ' : gmap nat DynamicParameters) (g g' : RandomState)
    (e e' : AutopoieticEngine) (iterations : nat) (learning_rate : R)
    (outs : list verdict) :
  self_improve σ g e iterations learning_rate = Some (σ', g', e', outs) ->
  verdicts_follow (calculate_efficiency e) outs.
Proof.
  unfold self_improve. cbv zeta.
  destruct (self_improve_loop _ _ _) as [[v outs']|] eqn:Hloop;
    [|discriminate].
  simpl. intros [= <- <- <- <-].
  destruct (self_improve_loop_result _ _ _ _ _ Hloop eq_refl)
    as (_ & _ & Hfollow & _).
  exact Hfollow.
Qed.

(** One round on the engine at the all-zero state. *)
Lemma X21_self_improve_best_score_never_decreases_witness :
  exists σ' g' e' outs,
    self_improve store0 quarter_draws origin_engine 1 0.05 =
      Some (σ', g', e', outs) /\
    verdicts_follow (calculate_efficiency origin_engine) outs.
Proof.
  destruct origin_self_improve_runs as (σ' & g' & e' & outs & Hrun).
  exists σ', g', e', outs. split; [exact Hrun|].
  exact (X21_self_improve_best_score_never_decreases _ _ _ _ _ _ _ _ _ Hrun).
Defined.

(** ** Self-improvement from zero efficiency *)

Lemma m_p_semantic_pos : 0 < LJPWConstants.m_p_semantic.
Proof.
  assert (Hs : sqrt 5 < 3).
  { rewrite <- (sqrt_square 3) by lra. apply sqrt_lt_1_alt. lra. }
  pose proof sqrt5_bounds as [Hlo _].
  unfold LJPWConstants.m_p_semantic, LJPWConstants.m_e_semantic,
    LJPWConstants.L0, LJPWConstants.PHI_INV, LJPWConstants.PHI.
  apply Rmult_lt_0_compat.
  - apply Rmult_lt_0_compat; lra.
  - apply pow_lt. lra.
Qed.

Lemma calculate_forces_power p st :
  K_JL p + L st <> 0 ->
  exists fL fJ fW,
    calculate_forces p st =
      Some [fL; fJ;
            alpha_PL p * L st * (1.0 + 0.3 * harmony_static st) +
            alpha_PJ p * J st - beta_P p * P st;
            fW].
Proof.
  intros Hden. unfold calculate_forces, force_equations. simpl.
  destruct (decide (K_JL p + L st = 0)); [contradiction|]. eauto.
Qed.

Lemma mutate_parameters_keeps_positive p rate g :
  (forall k, 0 < getattr p k) ->
  forall k, 0 < getattr (mutate_parameters p rate g).1 k.
Proof.
  intros Hpos k.
  pose proof (mutate_parameters_floor p rate g k (Hpos k)). lra.
Qed.

Lemma step_loop_efficiencies n : forall σ e dt,
  no_zero_division σ e ->
  exists e' new,
    step_loop n σ e dt = Some e' /\
    efficiency_trend (model e') = efficiency_trend (model e) ++ new /\
    Forall (fun x => 0 <= x) new.
Proof.
  induction n as [|n IH]; intros σ e dt Hwf.
  - exists e, []. simpl. rewrite app_nil_r. auto.
  - destruct (step_succeeds σ e dt Hwf) as [e1 Hstep].
    pose proof (step_keeps_no_zero_division _ _ _ _ Hwf Hstep) as Hwf1.
    destruct (step_records _ _ _ _ Hstep)
      as (h & _ & Heff & _ & _ & Htrend & _).
    pose proof (efficiency_unit_range _ (step_state_in_bounds _ _ _ _ Hstep))
      as [Hnonneg _].
    destruct (IH σ e1 dt Hwf1) as (e' & new & Hloop & Htrend' & Hall).
    exists e', (h_efficiency h :: new). simpl. rewrite Hstep. simpl.
    split; [exact Hloop|].
    split; [rewrite Htrend', Htrend, <- app_assoc; reflexivity|].
    constructor; [rewrite Heff; exact Hnonneg|exact Hall].
Qed.

Lemma fold_max_ge l : forall m0,
  m0 <= fold_left (fun m y => if decide (m < y) then y else m) l m0.
Proof.
  induction l as [|y l IH]; intros m0; simpl; [lra|].
  destruct (decide (m0 < y)) as [Hlt|Hge].
  - eapply Rle_trans; [|apply IH]. lra.
  - apply IH.
Qed.

Lemma last_nonneg x l f :
  0 <= x -> Forall (fun y => 0 <= y) l -> last (x :: l) = Some f -> 0 <= f.
Proof.
  intros Hx Hl Hlast.
  apply last_Some in Hlast as [l' Heq].
  assert (Hin : f ∈ x :: l).
  { rewrite Heq. apply elem_of_app. right. apply list_elem_of_singleton.
    reflexivity. }
  apply elem_of_cons in Hin as [->|Hin]; [exact Hx|].
  rewrite Forall_forall in Hl. apply Hl. exact Hin.
Qed.

(** The first step of a powerless engine with a positive L or J, under
    positive coefficients, produces a positive power. *)
Lemma powerless_first_step σ e dt :
  in_bounds (state e) -> P (state e) = 0 ->
  0 < L (state e) \/ 0 < J (state e) ->
  (forall k, 0 < getattr (σ !!! params e) k) ->
  0 < dt ->
  exists e1,
    step σ e dt = Some e1 /\
    efficiency_trend (model e1) =
      efficiency_trend (model e) ++
      [harmony_static (state e1) * P (state e1)] /\
    0 < harmony_static (state e1) * P (state e1).
Proof.
  intros ([HL0 HL1] & [HJ0 HJ1] & _ & _) HP Hsome Hpos Hdt.
  pose proof (Hpos key_K_JL) as HK. pose proof (Hpos key_alpha_PL) as HaL.
  pose proof (Hpos key_alpha_PJ) as HaJ. simpl in HK, HaL, HaJ.
  assert (Hden : K_JL (σ !!! params e) + L (state e) <> 0) by lra.
  destruct (calculate_forces_power _ _ Hden) as (fL & fJ & fW & Hf).
  pose proof (step_with_forces σ e dt _ _ _ _ Hf) as Hstep.
  set (fP := alpha_PL (σ !!! params e) * L (state e) *
             (1.0 + 0.3 * harmony_static (state e)) +
             alpha_PJ (σ !!! params e) * J (state e) -
             beta_P (σ !!! params e) * P (state e)) in *.
  assert (HfP : 0 < fP).
  { subst fP. rewrite HP.
    pose proof (harmony_static_range (state e)) as [Hh0 Hh1].
    assert (Hk : 0 < 1.0 + 0.3 * harmony_static (state e)) by lra.
    assert (Ht1 : 0 <= alpha_PL (σ !!! params e) * L (state e) *
                       (1.0 + 0.3 * harmony_static (state e))).
    { apply Rmult_le_pos; [apply Rmult_le_pos|]; lra. }
    assert (Ht2 : 0 <= alpha_PJ (σ !!! params e) * J (state e))
      by (apply Rmult_le_pos; lra).
    destruct Hsome as [HLpos|HJpos].
    - assert (0 < alpha_PL (σ !!! params e) * L (state e) *
                  (1.0 + 0.3 * harmony_static (state e))).
      { apply Rmult_lt_0_compat; [apply Rmult_lt_0_compat|]; lra. }
      lra.
    - assert (0 < alpha_PJ (σ !!! params e) * J (state e))
        by (apply Rmult_lt_0_compat; lra).
      lra. }
  assert (Hacc : 0 < clipped fP LJPWConstants.m_p_semantic).
  { pose proof m_p_semantic_pos as Hm.
    assert (Hq : 0 < fP / LJPWConstants.m_p_semantic)
      by (apply Rdiv_lt_0_compat; assumption).
    unfold clipped, max_change. clip_cases. }
  destruct (step_records _ _ _ _ Hstep)
    as (h & _ & Heff & _ & _ & Htrend & _).
  eexists. split; [exact Hstep|].
  rewrite <- Heff. split; [exact Htrend|].
  rewrite Heff. cbn [state _record_step].
  apply Rmult_lt_0_compat; [apply harmony_static_range|].
  simpl. rewrite HP.
  assert (Hmove : 0 < clipped fP LJPWConstants.m_p_semantic * dt)
    by (apply Rmult_lt_0_compat; assumption).
  clip_cases.
Qed.

(** X22. [self_improve] cannot start from zero efficiency.  On an engine
    within its bounds whose power P is 0 while L or J is positive, with
    positive coefficients, any call asking for at least one round raises
    [ZeroDivisionError]: the first candidate scores above 0, and its
    acceptance divides by the best efficiency, which is 0. *)
Theorem X22_self_improve_raises_from_zero_power
    (σ : gmap nat DynamicParameters) (g : RandomState)
    (e : AutopoieticEngine) (iterations : nat) (learning_rate : R) :
  in_bounds (state e) ->
  P (state e) = 0 ->
  0 < L (state e) \/ 0 < J (state e) ->
  (forall k, 0 < getattr (σ !!! params e) k) ->
  (0 < iterations)%nat ->
  self_improve σ g e iterations learning_rate = None.
Proof.
  intros Hb HP Hsome Hpos Hiter.
  destruct iterations as [|n]; [lia|].
  assert (Hround : forall best_params,
    self_improve_round learning_rate
      {| iv_store := σ; iv_random := g; iv_self := e;
         iv_best_params := best_params;
         iv_best_efficiency := calculate_efficiency e |} = None).
  { intros best_params.
    unfold self_improve_round. cbn [AutopoieticEngine_init iv_self iv_store
      iv_random iv_best_efficiency iv_best_params params].
    pose proof (random_mutation_lookup σ (params e) learning_rate g) as Hmut.
    destruct (random_mutation σ (params e) learning_rate g) as [σ1 g1].
    simpl in Hmut. cbn [params fst snd].
    match goal with
    | |- context [step_loop 10 σ1 ?e0 0.1] => set (sim0 := e0)
    end.
    assert (Hpos1 : forall k, 0 < getattr (σ1 !!! params sim0) k).
    { intros k. change (params sim0) with (params e). rewrite Hmut.
      apply mutate_parameters_keeps_positive. exact Hpos. }
    assert (H01 : 0 < 0.1) by lra.
    destruct (powerless_first_step σ1 sim0 0.1 Hb HP Hsome Hpos1 H01)
      as (e1 & Hstep1 & Htrend1 & Heff1).
    assert (Hwf0 : no_zero_division σ1 sim0).
    { split; [exact (Hpos1 key_K_JL)|]. destruct Hb as ([HL0 _] & _).
      exact HL0. }
    pose proof (step_keeps_no_zero_division _ _ _ _ Hwf0 Hstep1) as Hwf1.
    destruct (step_loop_efficiencies 9 σ1 e1 0.1 Hwf1)
      as (e10 & new & Hloop & Htrend10 & Hnew).
    change (step_loop 10 σ1 sim0 0.1)
      with (e' ← step σ1 sim0 0.1; step_loop 9 σ1 e' 0.1).
    rewrite Hstep1. cbn [mbind option_bind]. rewrite Hloop.
    cbn [mbind option_bind].
    rewrite Htrend10, Htrend1.
    change (efficiency_trend (model sim0)) with (@nil R). cbn [app].
    set (eff1 := harmony_static (state e1) * P (state e1)) in *.
    pose proof (fold_max_ge new eff1) as Hpeak.
    cbn [py_max mbind option_bind].
    destruct (last (eff1 :: new)) as [final|] eqn:Hlast;
      [|reflexivity].
    cbn [mbind option_bind].
    assert (Hfinal : 0 <= final).
    { eapply last_nonneg; [|exact Hnew|exact Hlast]. lra. }
    assert (Hbest : calculate_efficiency e = 0).
    { unfold calculate_efficiency. rewrite HP. ring. }
    rewrite Hbest.
    rewrite decide_True by lra.
    rewrite decide_True by reflexivity. reflexivity. }
  unfold self_improve. cbv zeta. cbn [self_improve_loop].
  rewrite Hround. reflexivity.
Qed.

(** The powerless engine under the default parameters. *)
Lemma X22_self_improve_raises_from_zero_power_witness :
  self_improve store0 quarter_draws powerless_engine 1 0.05 = None.
Proof.
  pose proof sqrt2_ge_1 as Hs.
  assert (HL : L powerless_state = 0.5) by (simpl; apply np_clip_id; lra).
  assert (HP : P powerless_state = 0) by (simpl; apply np_clip_id; lra).
  apply (X22_self_improve_raises_from_zero_power store0 quarter_draws
           powerless_engine 1 0.05).
  - apply new_LJPWCoordinates_in_bounds.
  - exact HP.
  - left. change (state powerless_engine) with powerless_state.
    rewrite HL. lra.
  - intros k. change (params powerless_engine) with 0%nat.
    rewrite store0_lookup. destruct k; simpl; lra.
  - lia.
Defined.

(** ** More on the mutation of parameters *)

(** X23. [random_mutation] leaves a coefficient that is not strictly
    positive exactly as it is (a coefficient set to 0 stays 0 for ever), and
    touches no other object of the store than the one it is called on. *)
Theorem X23_random_mutation_skips_nonpositive
    (σ : gmap nat DynamicParameters) (self : nat) (rate : R)
    (g : RandomState) (key : param_key) :
  getattr (σ !!! self) key <= 0 ->
  getattr ((random_mutation σ self rate g).1 !!! self) key =
    getattr (σ !!! self) key /\
  forall r : nat, r <> self -> (random_mutation σ self rate g).1 !! r = σ !! r.
Proof.
  intros Hnonpos. split.
  - rewrite random_mutation_lookup.
    destruct (mutate_parameters_key (σ !!! self) rate g key) as [_ Hkeep].
    apply Hkeep. lra.
  - intros r Hr. rewrite random_mutation_store.
    apply lookup_insert_ne. congruence.
Qed.

(** The erosion coefficient of a parameter object where it is 0. *)
Lemma X23_random_mutation_skips_nonpositive_witness :
  getattr ((random_mutation store_without_erosion 0%nat 0.05 quarter_draws).1
             !!! 0%nat) key_gamma =
  getattr (store_without_erosion !!! 0%nat) key_gamma.
Proof.
  assert (Hzero : getattr (store_without_erosion !!! 0%nat) key_gamma <= 0).
  { unfold store_without_erosion. rewrite lookup_total_singleton_eq.
    simpl. lra. }
  exact (proj1 (X23_random_mutation_skips_nonpositive store_without_erosion
                  0%nat 0.05 quarter_draws key_gamma Hzero)).
Defined.

(** X24. With a rate in [[0, 1]] and unit samples in [[0, 1)], one mutation
    changes a positive coefficient by at most the fraction [rate] of its
    value, up to the floor: the new value lies between
    [max(0.01, value * (1 - rate))] and [max(0.01, value * (1 + rate))]. *)
Theorem X24_random_mutation_is_bounded
    (σ : gmap nat DynamicParameters) (self : nat) (rate : R)
    (g : RandomState) (key : param_key) :
  0 <= rate ->
  (forall n : nat, 0 <= g n < 1) ->
  0 < getattr (σ !!! self) key ->
  let value := getattr (σ !!! self) key in
  let value' := getattr ((random_mutation σ self rate g).1 !!! self) key in
  Rmax 0.01 (value * (1 - rate)) <= value' <= Rmax 0.01 (value * (1 + rate)).
Proof.
  intros Hrate Hunit Hpos value value'. subst value value'.
  rewrite random_mutation_lookup.
  destruct (mutate_parameters_key (σ !!! self) rate g key) as [Hmut Hkeep].
  destruct (getattr (σ !!! self) key) as [v|n] eqn:Hv.
  - destruct (Hmut eq_refl Hpos) as [i ->].
    destruct (Hunit i) as [Hu0 Hu1].
    cbn [number_value] in *.
    assert (Hnoise : - rate <= scale_uniform (- rate) rate (g i) <= rate).
    { unfold scale_uniform. split; nra. }
    assert (Hlo : v * (1 - rate) <= v + scale_uniform (- rate) rate (g i) * v)
      by nra.
    assert (Hhi : v + scale_uniform (- rate) rate (g i) * v <= v * (1 + rate))
      by nra.
    split; apply Rle_max_compat_l; assumption.
  - rewrite Hkeep by (left; reflexivity).
    pose proof (PyInt_positive n Hpos) as Hone.
    cbn [number_value] in *.
    split.
    + apply Rmax_lub; nra.
    + apply Rle_trans with (IZR n * (1 + rate)); [nra|apply Rmax_r].
Qed.

(** The saturation constant of the default parameters. *)
Lemma X24_random_mutation_is_bounded_witness :
  Rmax 0.01 (getattr (store0 !!! 0%nat) key_K_JL * (1 - 0.05)) <=
  getattr ((random_mutation store0 0%nat 0.05 quarter_draws).1 !!! 0%nat)
    key_K_JL <=
  Rmax 0.01 (getattr (store0 !!! 0%nat) key_K_JL * (1 + 0.05)).
Proof.
  apply (X24_random_mutation_is_bounded store0 0%nat 0.05 quarter_draws
           key_K_JL).
  - lra.
  - intros n. unfold quarter_draws. lra.
  - rewrite store0_lookup. simpl. lra.
Defined.

(** ** The tick report after a cycle of steps *)

Lemma step_loop_tick_count n : forall σ e dt e',
  step_loop n σ e dt = Some e' -> tick_count e' = (tick_count e + n)%nat.
Proof.
  induction n as [|n IH]; intros σ e dt e'; simpl.
  - intros [= <-]. lia.
  - destruct (step σ e dt) as [e1|] eqn:Hstep; [|discriminate].
    simpl. intros Hrest. rewrite (IH _ _ _ _ Hrest).
    destruct (step_history _ _ _ _ Hstep) as (h & _ & _ & _ & _ & _ & ->).
    lia.
Qed.

(** X25. Twenty steps make one cycle of the tick report: [tick_status]
    then shows one more completed cycle, the same phase in the cycle, and
    20 * 2.64 more femtoseconds of experienced time. *)
Theorem X25_twenty_steps_complete_a_cycle (σ : gmap nat DynamicParameters)
    (e e' : AutopoieticEngine) (dt : R) :
  step_loop 20 σ e dt = Some e' ->
  ts_cycles_completed (tick_status e') = S (ts_cycles_completed (tick_status e))
  /\ ts_phase_in_cycle (tick_status e') = ts_phase_in_cycle (tick_status e)
  /\ (ts_phase_in_cycle (tick_status e') < 20)%nat
  /\ ts_time_experienced_fs (tick_status e') =
       ts_time_experienced_fs (tick_status e) + 20 * 2.64.
Proof.
  intros Hloop.
  pose proof (step_loop_tick_count _ _ _ _ _ Hloop) as Htick.
  unfold tick_status, TICKS_PER_CYCLE, FEMTOSECONDS_PER_TICK.
  cbn [ts_cycles_completed ts_phase_in_cycle ts_time_experienced_fs].
  rewrite Htick.
  split; [|split; [|split]].
  - replace (tick_count e + 20)%nat with (tick_count e + 1 * 20)%nat by lia.
    rewrite Nat.div_add by lia. lia.
  - replace (tick_count e + 20)%nat with (tick_count e + 1 * 20)%nat by lia.
    apply Nat.Div0.mod_add.
  - apply Nat.mod_upper_bound. lia.
  - rewrite plus_INR. simpl INR. lra.
Qed.

(** Twenty steps of the naive engine. *)
Lemma X25_twenty_steps_complete_a_cycle_witness :
  exists e', step_loop 20 store0 naive_engine 0.1 = Some e' /\
             ts_cycles_completed (tick_status e') =
               S (ts_cycles_completed (tick_status naive_engine)).
Proof.
  assert (Hdt : 0 < 0.1) by lra.
  destruct (step_loop_appends 20 store0 naive_engine 0.1 Hdt
              naive_engine_no_zero_division) as (e' & new & Hloop & _).
  exists e'. split; [exact Hloop|].
  exact (proj1 (X25_twenty_steps_complete_a_cycle store0 naive_engine e' 0.1
                  Hloop)).
Defined.

(** ** The tick engine of the core ontology *)

(** What one tick teaches, a function of the state alone. *)
Lemma tick_effect t :
  Ontology.state (Ontology.tick t).1 = Ontology.state t /\
  Ontology.tick_count (Ontology.tick t).1 = S (Ontology.tick_count t) /\
  Ontology.accumulated_learning (Ontology.tick t).1 =
    Ontology.accumulated_learning t +
    Ontology.power_stroke_magnitude t * harmony_static (Ontology.state t).
Proof.
  unfold Ontology.tick. cbv zeta. simpl.
  repeat split; try reflexivity. lia.
Qed.

Lemma tick_result t :
  let r := (Ontology.tick t).2 in
  Ontology.r_tick r = S (Ontology.tick_count t) /\
  Ontology.r_fuel r = Ontology.fuel t /\
  Ontology.r_compression r = Ontology.compression t /\
  Ontology.r_ignition_ready r = Ontology.ignition_ready t /\
  Ontology.r_power_stroke r = Ontology.power_stroke_magnitude t /\
  Ontology.r_harmony r = harmony_static (Ontology.state t) /\
  Ontology.r_learning_this_tick r =
    Ontology.power_stroke_magnitude t * harmony_static (Ontology.state t) /\
  Ontology.r_total_learning r =
    Ontology.accumulated_learning t +
    Ontology.power_stroke_magnitude t * harmony_static (Ontology.state t) /\
  Ontology.r_time_experienced_fs r =
    INR (S (Ontology.tick_count t)) * 2.64.
Proof.
  unfold Ontology.tick. cbv zeta. simpl.
  unfold CoreOntologyConstants.FEMTOSECONDS_PER_SEMANTIC_UNIT.
  replace (Ontology.tick_count t + 1)%nat with (S (Ontology.tick_count t))
    by lia.
  repeat split; reflexivity.
Qed.

(** The quantities of a tick engine that depend on its state only. *)
Lemma same_state_same_readings t t' :
  Ontology.state t' = Ontology.state t ->
  Ontology.fuel t' = Ontology.fuel t /\
  Ontology.compression t' = Ontology.compression t /\
  Ontology.ignition_ready t' = Ontology.ignition_ready t /\
  Ontology.power_stroke_magnitude t' = Ontology.power_stroke_magnitude t.
Proof.
  intros Hs.
  unfold Ontology.fuel, Ontology.compression, Ontology.ignition_ready,
    Ontology.power_stroke_magnitude, Ontology.fuel.
  rewrite Hs. auto.
Qed.

Lemma tick_loop_results n : forall t results,
  exists t' new,
    Ontology.tick_loop n t results = (t', results ++ new) /\
    Ontology.state t' = Ontology.state t /\
    Ontology.tick_count t' = (Ontology.tick_count t + n)%nat /\
    Ontology.accumulated_learning t' =
      Ontology.accumulated_learning t +
      INR n * (Ontology.power_stroke_magnitude t *
               harmony_static (Ontology.state t)) /\
    length new = n /\
    forall (i : nat) (r : Ontology.TickResult),
      new !! i = Some r ->
      Ontology.r_tick r = (Ontology.tick_count t + i + 1)%nat /\
      Ontology.r_fuel r = Ontology.fuel t /\
      Ontology.r_compression r = Ontology.compression t /\
      Ontology.r_ignition_ready r = Ontology.ignition_ready t /\
      Ontology.r_power_stroke r = Ontology.power_stroke_magnitude t /\
      Ontology.r_harmony r = harmony_static (Ontology.state t) /\
      Ontology.r_learning_this_tick r =
        Ontology.power_stroke_magnitude t *
        harmony_static (Ontology.state t) /\
      Ontology.r_total_learning r =
        Ontology.accumulated_learning t +
        INR (i + 1) * (Ontology.power_stroke_magnitude t *
                       harmony_static (Ontology.state t)).
Proof.
  induction n as [|n IH]; intros t results.
  - exists t, []. simpl. rewrite app_nil_r.
    split; [reflexivity|]. split; [reflexivity|]. split; [lia|].
    split; [lra|]. split; [reflexivity|].
    intros i r Hi. destruct i; discriminate Hi.
  - cbn [Ontology.tick_loop].
    destruct (Ontology.tick t) as [t1 r1] eqn:Htick.
    pose proof (tick_effect t) as (Hs1 & Hc1 & Ha1).
    pose proof (tick_result t) as Hr1. cbv zeta in Hr1.
    rewrite Htick in Hs1, Hc1, Ha1, Hr1. simpl in Hs1, Hc1, Ha1, Hr1.
    destruct Hr1 as (Hrt & Hrf & Hrc & Hri & Hrp & Hrh & Hrl & Hra & _).
    destruct (same_state_same_readings t t1 Hs1) as (Hf & Hc & Hig1 & Hp).
    destruct (IH t1 (results ++ [r1]))
      as (t' & new & Hloop & Hs & Hcount & Hacc & Hlen & Hall).
    exists t', (r1 :: new).
    split; [rewrite Hloop, <- app_assoc; reflexivity|].
    split; [congruence|].
    split; [lia|].
    split.
    { rewrite Hacc, Ha1, Hp, Hs1, S_INR. lra. }
    split; [simpl; lia|].
    intros i r Hlookup. destruct i as [|i]; simpl in Hlookup.
    + injection Hlookup as <-.
      rewrite Hrt, Hrf, Hrc, Hri, Hrp, Hrh, Hrl, Hra. simpl INR.
      repeat split; try reflexivity; try lia; try lra.
    + destruct (Hall i r Hlookup)
        as (Ht & Hfu & Hco & Hig & Hpo & Hha & Hle & Hto).
      rewrite Ht, Hfu, Hco, Hig, Hpo, Hha, Hle, Hto.
      rewrite Hf, Hc, Hig1, Hp, Hs1, Ha1, Hc1.
      repeat split; try reflexivity; try lia.
      replace (S i + 1)%nat with (S (i + 1)) by lia.
      rewrite (S_INR (i + 1)). lra.
Qed.

(** X26. The tick engine never changes its state.  [run_cycle] returns 20
    results, advances the tick counter by 20 (so the phase angle is the
    same after the cycle), and adds 20 times the same learning to the
    accumulated learning; the results are numbered consecutively and all
    report the fuel, compression, ignition flag, power stroke, harmony and
    learning of the state the cycle started with. *)
Theorem X26_run_cycle_repeats_one_tick (t : Ontology.TickEngine) :
  let learning :=
    Ontology.power_stroke_magnitude t * harmony_static (Ontology.state t) in
  exists t' results,
    Ontology.run_cycle t = (t', results) /\
    Ontology.state t' = Ontology.state t /\
    Ontology.tick_count t' = (Ontology.tick_count t + 20)%nat /\
    Ontology.current_phase_angle t' = Ontology.current_phase_angle t /\
    Ontology.accumulated_learning t' =
      Ontology.accumulated_learning t + 20 * learning /\
    length results = 20%nat /\
    forall (i : nat) (r : Ontology.TickResult),
      results !! i = Some r ->
      Ontology.r_tick r = (Ontology.tick_count t + i + 1)%nat /\
      Ontology.r_fuel r = Ontology.fuel t /\
      Ontology.r_compression r = Ontology.compression t /\
      Ontology.r_ignition_ready r = Ontology.ignition_ready t /\
      Ontology.r_power_stroke r = Ontology.power_stroke_magnitude t /\
      Ontology.r_harmony r = harmony_static (Ontology.state t) /\
      Ontology.r_learning_this_tick r = learning /\
      Ontology.r_total_learning r =
        Ontology.accumulated_learning t + INR (i + 1) * learning.
Proof.
  intros learning. subst learning. unfold Ontology.run_cycle.
  destruct (tick_loop_results 20 t [])
    as (t' & new & Hloop & Hs & Hcount & Hacc & Hlen & Hall).
  exists t', new. rewrite app_nil_l in Hloop.
  split; [exact Hloop|]. split; [exact Hs|]. split; [exact Hcount|].
  split.
  { unfold Ontology.current_phase_angle. rewrite Hcount.
    replace (Ontology.tick_count t + 20)%nat
      with (Ontology.tick_count t + 1 * 20)%nat by lia.
    rewrite Nat.Div0.mod_add. reflexivity. }
  split.
  { rewrite Hacc. simpl INR. lra. }
  split; [exact Hlen|exact Hall].
Qed.

Lemma in_bounds_deltas s :
  in_bounds s ->
  0 <= Rabs (P s - CoreOntologyConstants.P0) <= 1 /\
  0 <= Rabs (W s - CoreOntologyConstants.W0) <= 1.
Proof.
  intros (_ & _ & [HP0 HP1] & [HW0 HW1]).
  pose proof P0_bounds. pose proof W0_bounds.
  unfold CoreOntologyConstants.P0, CoreOntologyConstants.W0, Rabs.
  split; destruct (Rcase_abs _); lra.
Qed.

(** X27. On a state within its bounds the two readings of the P-W tension
    agree: [ignition_ready] holds exactly when [compression] is at least 1;
    the floor of 0.01 on the deltas never decides. *)
Theorem X27_ignition_agrees_with_compression (t : Ontology.TickEngine) :
  in_bounds (Ontology.state t) ->
  Ontology.ignition_ready t = true <-> 1 <= Ontology.compression t.
Proof.
  intros Hb.
  destruct (in_bounds_deltas _ Hb) as [[Ha0 Ha1] [Hb0 Hb1]].
  unfold Ontology.ignition_ready, Ontology.compression. cbv zeta.
  unfold CoreOntologyConstants.PW_UNCERTAINTY_BOUND.
  rewrite bool_decide_eq_true.
  set (a := Rabs (P (Ontology.state t) - CoreOntologyConstants.P0)) in *.
  set (b := Rabs (W (Ontology.state t) - CoreOntologyConstants.W0)) in *.
  assert (Hdiv : 1 <= a * b / 0.287 <-> 0.287 <= a * b).
  { set (ab := a * b). split; intros; lra. }
  rewrite Hdiv.
  unfold Rmax. destruct (Rle_dec 0.01 a); destruct (Rle_dec 0.01 b);
    split; intros; nra.
Qed.

(** The tick engine on the state of the demonstration. *)
Lemma X27_ignition_agrees_with_compression_witness :
  Ontology.ignition_ready (Ontology.TickEngine_of conscious_being) = true <->
  1 <= Ontology.compression (Ontology.TickEngine_of conscious_being).
Proof.
  apply (X27_ignition_agrees_with_compression
           (Ontology.TickEngine_of conscious_being)).
  apply new_LJPWCoordinates_in_bounds.
Defined.

(** X28. On a state within its bounds, the learning of one tick (power
    stroke times harmony) lies between 0 and 2/3 of |P - W|, hence never
    exceeds 2/3, and the power stroke itself never exceeds 2. *)
Theorem X28_learning_per_tick_is_bounded (t : Ontology.TickEngine) :
  in_bounds (Ontology.state t) ->
  let r := (Ontology.tick t).2 in
  0 <= Ontology.r_power_stroke r <= 2 /\
  0 <= Ontology.r_learning_this_tick r <=
    2 / 3 * Rabs (P (Ontology.state t) - W (Ontology.state t)) /\
  Ontology.r_learning_this_tick r <= 2 / 3.
Proof.
  intros Hb r. subst r.
  pose proof (tick_result t) as Hr. cbv zeta in Hr.
  destruct Hr as (_ & _ & _ & _ & Hp & _ & Hl & _).
  rewrite Hp, Hl.
  pose proof (distance_to_anchor_nonneg (Ontology.state t)) as Hd0.
  pose proof (distance_to_anchor_le_2 _ Hb) as Hd2.
  pose proof (harmony_static_range (Ontology.state t)) as [Hh0 Hh1].
  pose proof (harmony_static_as_quotient (Ontology.state t)) as Hq.
  destruct Hb as (_ & _ & [HP0 HP1] & [HW0 HW1]).
  unfold Ontology.power_stroke_magnitude, Ontology.fuel,
    Ontology.gap_from_anchor, Ontology.net_flow.
  set (d := distance_to_anchor (Ontology.state t)) in *.
  set (h := harmony_static (Ontology.state t)) in *.
  set (n := Rabs (P (Ontology.state t) - W (Ontology.state t))).
  assert (Hn : 0 <= n <= 1).
  { subst n. unfold Rabs. destruct (Rcase_abs _); lra. }
  assert (Hdh : 0 <= d * h <= 2 / 3) by nra.
  assert (Hnd : 0 <= n * d <= 2) by nra.
  split; [exact Hnd|].
  replace (n * d * h) with (n * (d * h)) by ring.
  split; [split; nra|nra].
Qed.

(** One tick on the state of the demonstration. *)
Lemma X28_learning_per_tick_is_bounded_witness :
  Ontology.r_learning_this_tick
    (Ontology.tick (Ontology.TickEngine_of conscious_being)).2 <= 2 / 3.
Proof.
  assert (Hb : in_bounds
                 (Ontology.state (Ontology.TickEngine_of conscious_being)))
    by apply new_LJPWCoordinates_in_bounds.
  exact (proj2 (proj2 (X28_learning_per_tick_is_bounded
                         (Ontology.TickEngine_of conscious_being) Hb))).
Defined.
